(** * Cookie Guardian: the policy engine of the background service worker

    A shallow embedding of [background.js] (class [CookieGuardianBackground])
    and [encryption.js] (class [CookieEncryption]), and the properties of the
    engine that the specification states about them.

    Conventions of the embedding.
    - A JavaScript string is a [string]: a sequence of code units below 256.
      Host names, cookie names and list patterns live in that range.
    - A number is an integer, or [NaN].  The arithmetic is that of the
      integers, which is the arithmetic of the source on safe integers
      (below 2^53 in magnitude); the facts that depend on a computed value
      say so.
    - A JavaScript object used as a map ([siteRules]) is an association list
      in the order [Object.entries] enumerates it.
    - An [async] handler is run to completion: an [await] is a call to the
      host that either resolves or rejects, and a rejection is an exception
      that the enclosing [try]/[catch] sees.  Interleaving of two handlers at
      an [await] is not modelled.
    - The host platform (cookie jar, key/value storage, clock, random bytes)
      is part of the [World]: every request the engine makes is appended to
      the world's list of [calls], and an oracle of the world says whether
      the host resolves or rejects it. *)

From Stdlib Require Import ZArith NArith List String Ascii Bool Lia.
From Stdlib.Strings Require Import Byte.
Import ListNotations.

Set Implicit Arguments.

(* ================================================================== *)
(** * JavaScript values used by the engine *)
(* ================================================================== *)

(** [String.prototype.startsWith]. *)
Fixpoint startsWith (s searchString : string) {struct s} : bool :=
  match searchString with
  | EmptyString => true
  | String a p =>
      match s with
      | EmptyString => false
      | String b r => Ascii.eqb a b && startsWith r p
      end
  end.

(** [String.prototype.includes]: [searchString] occurs somewhere in [s]. *)
Fixpoint includes (s searchString : string) : bool :=
  if startsWith s searchString then true
  else match s with
       | EmptyString => false
       | String _ rest => includes rest searchString
       end.

(** [s.replace(/\*/g, '.*')]: every ['*'] becomes the two characters ['.*'];
    every other character is copied as it is. *)
Fixpoint replace_star (s : string) : string :=
  match s with
  | EmptyString => EmptyString
  | String c rest =>
      if Ascii.eqb c "*"%char
      then String "."%char (String "*"%char (replace_star rest))
      else String c (replace_star rest)
  end.

(** A number as the engine meets it: an integer, or [NaN]. *)
Inductive JsNumber : Type :=
| NaN
| Num (z : Z).

(** Truthiness of a number: [0] and [NaN] are falsy. *)
Definition truthy_number (n : JsNumber) : bool :=
  match n with
  | NaN => false
  | Num z => negb (z =? 0)%Z
  end.

(** Truthiness of an optional number ([undefined] is falsy). *)
Definition truthy_opt (o : option JsNumber) : bool :=
  match o with
  | None => false
  | Some n => truthy_number n
  end.

(** The integers that a JavaScript number holds exactly.  The product and
    the sum of two of them are computed exactly when the result is one of
    them, and so is the whole part of the quotient of one of them by 1000;
    beyond them the source rounds. *)
Definition safe_integer (z : Z) : Prop := (- 2 ^ 53 < z < 2 ^ 53)%Z.

(** [Math.floor(x / 1000)] on an integer [x]. *)
Definition floor_div_1000 (n : JsNumber) : JsNumber :=
  match n with
  | NaN => NaN
  | Num z => Num (z / 1000)%Z
  end.

(** The values a property of a whitelist override can hold, as far as
    [applyWhitelistRule] looks at them. *)
Inductive JsValue : Type :=
| Undefined
| Bool (b : bool)
| Number (n : JsNumber)
| Object.

Definition truthy (v : JsValue) : bool :=
  match v with
  | Undefined => false
  | Bool b => b
  | Number n => truthy_number n
  | Object => true
  end.

(** [ToNumber] followed by [* 60 * 1000 + now]. *)
Definition ToNumber (v : JsValue) : JsNumber :=
  match v with
  | Undefined => NaN
  | Bool b => Num (if b then 1 else 0)
  | Number n => n
  | Object => NaN
  end.

(* ------------------------------------------------------------------ *)
(** ** Objects used as maps *)
(* ------------------------------------------------------------------ *)

(** Own enumerable string-keyed properties, in the order [Object.entries]
    lists them: array-index keys in ascending numeric order first, then the
    other keys in the order they were created. *)
Definition JsObject (A : Type) : Type := list (string * A).

Fixpoint own_get (A : Type) (o : JsObject A) (k : string) : option A :=
  match o with
  | [] => None
  | (k', v) :: rest => if String.eqb k' k then Some v else own_get rest k
  end.

Definition digit_of (c : ascii) : option N :=
  let n := N_of_ascii c in
  if (48 <=? n)%N && (n <=? 57)%N then Some (n - 48)%N else None.

Fixpoint parse_digits (acc : N) (s : string) : option N :=
  match s with
  | EmptyString => Some acc
  | String c rest =>
      match digit_of c with
      | Some d => parse_digits (10 * acc + d)%N rest
      | None => None
      end
  end.

(** A key is an array index when it is the canonical decimal form of an
    integer between 0 and 2^32 - 2. *)
Definition array_index (k : string) : option N :=
  match k with
  | EmptyString => None
  | String c rest =>
      if Ascii.eqb c "0"%char && negb (String.eqb rest EmptyString) then None
      else match parse_digits 0 k with
           | Some n => if (n <? 4294967295)%N then Some n else None
           | None => None
           end
  end.

(** Assignment to a property that exists keeps its place. *)
Fixpoint replace_own (A : Type) (o : JsObject A) (k : string) (v : A) : JsObject A :=
  match o with
  | [] => []
  | (k', v') :: rest =>
      if String.eqb k' k then (k', v) :: rest
      else (k', v') :: replace_own rest k v
  end.

(** A new array-index key goes among the leading array-index keys, in
    ascending order. *)
Fixpoint insert_index (A : Type) (n : N) (k : string) (v : A) (o : JsObject A)
  : JsObject A :=
  match o with
  | [] => [(k, v)]
  | (k', v') :: rest =>
      match array_index k' with
      | Some m => if (m <? n)%N then (k', v') :: insert_index n k v rest
                  else (k, v) :: o
      | None => (k, v) :: o
      end
  end.

(** [o[k] = v].  Assigning to ["__proto__"] runs the setter inherited from
    [Object.prototype] and creates no own property. *)
Definition obj_set (A : Type) (o : JsObject A) (k : string) (v : A) : JsObject A :=
  if String.eqb k "__proto__" then o
  else match own_get o k with
       | Some _ => replace_own o k v
       | None =>
           match array_index k with
           | Some n => insert_index n k v o
           | None => o ++ [(k, v)]
           end
       end.

(** [delete o[k]]. *)
Fixpoint obj_delete (A : Type) (o : JsObject A) (k : string) : JsObject A :=
  match o with
  | [] => []
  | (k', v) :: rest =>
      if String.eqb k' k then rest else (k', v) :: obj_delete rest k
  end.

(** [Object.keys(o)] *)
Definition keys (A : Type) (o : JsObject A) : list string := map fst o.

(** The names every plain object inherits from [Object.prototype]; reading
    one of them from an object that has no own property of that name gives
    a function or an object, never [undefined]. *)
Definition Object_prototype_names : list string :=
  [ "constructor"; "__defineGetter__"; "__defineSetter__"; "hasOwnProperty";
    "__lookupGetter__"; "__lookupSetter__"; "isPrototypeOf";
    "propertyIsEnumerable"; "toString"; "valueOf"; "__proto__";
    "toLocaleString" ]%string.

Definition inherited (k : string) : bool :=
  existsb (String.eqb k) Object_prototype_names.

(* ================================================================== *)
(** * Built-ins of the platform *)
(* ================================================================== *)

(** [RegExp]: construction from a source text ([None] when the constructor
    throws a [SyntaxError]) and [RegExp.prototype.test] for an expression
    without the [g] and [y] flags, which keeps no state between calls. *)
Class RegExpEngine : Type := {
  RegExp : Type;
  RegExp_new : string -> option RegExp;
  RegExp_test : RegExp -> string -> bool
}.

(** Web Crypto with AES-GCM, [btoa]/[atob] on binary strings, the UTF-8
    [TextEncoder]/[TextDecoder], and the number of arguments the engine
    accepts in one call: a call with more throws a [RangeError]. *)
Class Platform : Type := {
  CryptoKey : Type;
  subtle_encrypt : CryptoKey -> list byte -> list byte -> list byte;
  subtle_decrypt : CryptoKey -> list byte -> list byte -> option (list byte);
  subtle_exportKey : CryptoKey -> list byte;
  btoa : string -> string;
  atob : string -> option string;
  TextEncoder_encode : string -> list byte;
  TextDecoder_decode : list byte -> string;
  max_arguments : N
}.

(** What a handler can throw. *)
Inductive JsError : Type :=
| TypeError            (* property read on undefined, missing key object *)
| RangeError           (* more arguments than a call takes *)
| InvalidCharacterError (* atob on text that is not base64 *)
| SyntaxError          (* new RegExp on a malformed source *)
| OperationError       (* AES-GCM authentication failure: the spec's DecryptionError *)
| HostRejected.        (* the host rejected a request *)

Inductive Completion (A : Type) : Type :=
| Normal (a : A)
| Throw (e : JsError).

Arguments Throw {A} e.

(* ================================================================== *)
(** * encryption.js *)
(* ================================================================== *)

Section Encryption.
Context {P : Platform}.

(** The instance state of [CookieEncryption]: [this.key], [null] until a key
    has been loaded or generated. *)
Record CookieEncryption : Type := {
  key : option CryptoKey
}.

(** The object [encryptCookie] returns. *)
Record Envelope : Type := {
  env_encrypted : string;
  env_iv : string;
  env_domain : string;
  env_timestamp : Z
}.

(** [String.fromCharCode(...new Uint8Array(buffer))] passes every byte of
    the buffer as an argument of one call. *)
Definition spread_fits (buffer : list byte) : bool :=
  (N.of_nat (List.length buffer) <=? max_arguments)%N.

Definition arrayBufferToBase64 (buffer : list byte) : Completion string :=
  if spread_fits buffer then Normal (btoa (string_of_list_byte buffer))
  else Throw RangeError.

Definition base64ToArrayBuffer (base64 : string) : Completion (list byte) :=
  match atob base64 with
  | Some binary => Normal (list_byte_of_string binary)
  | None => Throw InvalidCharacterError
  end.

(** [generateNewKey]: [fresh] is the key [crypto.subtle.generateKey]
    returns.  The result is the instance with the new key and the text
    written to storage under [encryptionKey]; when the conversion of the
    exported key throws, the instance holds the new key all the same. *)
Definition generateNewKey (self : CookieEncryption) (fresh : CryptoKey)
  : CookieEncryption * Completion string :=
  ({| key := Some fresh |}, arrayBufferToBase64 (subtle_exportKey fresh)).

(** [encryptCookie]: [iv] is what [crypto.getRandomValues] fills the 12-byte
    array with, [now] is [Date.now()]. *)
Definition encryptCookie (self : CookieEncryption) (iv : list byte) (now : Z)
    (value domain : string) : Completion Envelope :=
  let data := TextEncoder_encode value in
  match key self with
  | None => Throw TypeError
  | Some k =>
      let encrypted := subtle_encrypt k iv data in
      match arrayBufferToBase64 encrypted with
      | Throw e => Throw e
      | Normal encrypted64 =>
          match arrayBufferToBase64 iv with
          | Throw e => Throw e
          | Normal iv64 =>
              Normal {| env_encrypted := encrypted64;
                        env_iv := iv64;
                        env_domain := domain;
                        env_timestamp := now |}
          end
      end
  end.

Definition decryptCookie (self : CookieEncryption) (encryptedData : Envelope)
  : Completion string :=
  match base64ToArrayBuffer (env_iv encryptedData) with
  | Throw e => Throw e
  | Normal iv =>
      match base64ToArrayBuffer (env_encrypted encryptedData) with
      | Throw e => Throw e
      | Normal ciphertext =>
          match key self with
          | None => Throw TypeError
          | Some k =>
              match subtle_decrypt k iv ciphertext with
              | None => Throw OperationError
              | Some decrypted => Normal (TextDecoder_decode decrypted)
              end
          end
      end
  end.

End Encryption.

(* ================================================================== *)
(** * background.js: data *)
(* ================================================================== *)

(** A cookie as the host's cookie jar hands it out.  [expirationDate] is
    absent for a session cookie. *)
Record Cookie : Type := {
  name : string;
  domain : string;
  path : string;
  value : string;
  secure : bool;
  httpOnly : bool;
  expirationDate : option JsNumber
}.

(** The argument of [chrome.cookies.onChanged]. *)
Record ChangeInfo : Type := {
  cookie : Cookie;
  removed : bool;
  cause : string
}.

Inductive Priority : Type := low | medium | high.

(** An override rule of the whitelist side table, read property by
    property. *)
Record WhitelistRule : Type := {
  wl_expiration : JsValue;
  wl_encrypt : JsValue
}.

Definition SideTable : Type := JsObject WhitelistRule.

Definition with_expirationDate (c : Cookie) (e : option JsNumber) : Cookie :=
  {| name := name c; domain := domain c; path := path c; value := value c;
     secure := secure c; httpOnly := httpOnly c; expirationDate := e |}.

Definition with_value (c : Cookie) (v : string) : Cookie :=
  {| name := name c; domain := domain c; path := path c; value := v;
     secure := secure c; httpOnly := httpOnly c;
     expirationDate := expirationDate c |}.

(** [`http${cookie.secure ? 's' : ''}://${cookie.domain}${cookie.path}`] *)
Definition cookie_url (c : Cookie) : string :=
  ("http" ++ (if secure c then "s" else "") ++ "://" ++ domain c ++ path c)%string.

(** [`ENCRYPTED_REF_${cookie.domain}_${cookie.name}`] *)
Definition encrypted_ref (c : Cookie) : string :=
  ("ENCRYPTED_REF_" ++ domain c ++ "_" ++ name c)%string.

(** [`encrypted_${cookie.domain}_${cookie.name}`] *)
Definition envelope_key (c : Cookie) : string :=
  ("encrypted_" ++ domain c ++ "_" ++ name c)%string.

(** The value field of a change entry: at most 50 characters of the value,
    or the word [empty]. *)
Definition logged_value (v : string) : string :=
  match v with
  | EmptyString => "empty"%string
  | _ => if 50 <? String.length v
         then (substring 0 50 v ++ "...")%string
         else v
  end.

Section Background.
Context {E : RegExpEngine} {P : Platform}.

(** A rule of [siteRules] as the code of the extension builds it:
    [getDefaultRules], and the rules the options page saves.  [expiration]
    is in minutes; [pattern] is a [RegExp] on the built-in category rules
    and absent elsewhere.  [handleMessage] stores whatever a [SAVE_RULE]
    message carries and validates nothing; a rule whose [pattern] is some
    other truthy value, on which [rule.pattern.test] throws, is not
    represented here. *)
Record Rule : Type := {
  expiration : option Z;
  encrypt : bool;
  pattern : option RegExp;
  priority : option Priority;
  autoDelete : bool
}.

Inductive EncryptionKind : Type := whitelist_rule | auto_encryption.

(** The entries of the audit log.  [COOKIE_CHANGE] is the entry
    [logCookieChange] writes (it has a [changeType] and no [action]); the
    others are the [action]s of [logAudit]. *)
Inductive AuditDetails : Type :=
| COOKIE_CHANGE (cookie domain changeType value : string)
| BLACKLIST_DELETED (cookie domain pattern : string)
| RULE_APPLIED (cookie domain : string) (expiration : option Z) (rule : Rule)
| ENCRYPTED (cookie domain : string) (type : EncryptionKind).

Record AuditEntry : Type := {
  timestamp : Z;
  details : AuditDetails
}.

(** The [action] of an entry; a change entry has none. *)
Definition action (entry : AuditEntry) : option string :=
  match details entry with
  | COOKIE_CHANGE _ _ _ _ => None
  | BLACKLIST_DELETED _ _ _ => Some "BLACKLIST_DELETED"%string
  | RULE_APPLIED _ _ _ _ => Some "RULE_APPLIED"%string
  | ENCRYPTED _ _ _ => Some "ENCRYPTED"%string
  end.

(** One entry of the object given to [chrome.storage.local.set]. *)
Inductive StorageItem : Type :=
| item_auditLog (log : list AuditEntry)
| item_siteRules (rules : JsObject Rule)
| item_whitelist (patterns : list string)
| item_blacklist (patterns : list string)
| item_envelope (key : string) (e : Envelope).

(** A request to the host. *)
Inductive HostCall : Type :=
| cookies_remove (url name : string)
| cookies_set (c : Cookie)
| storage_set (items : list StorageItem)
| storage_get (keys : list string).

(** The engine's fields ([this.auditLog] ... [this.encryption]) and the
    host around it.  [calls] is newest first.  [host_accepts history c]
    says whether the host, having served [history], resolves request [c]. *)
Record World : Type := {
  auditLog : list AuditEntry;
  siteRules : JsObject Rule;
  whitelist : list string;
  blacklist : list string;
  encryption : option CookieEncryption;
  now : Z;
  random : nat -> list byte;
  drawn : nat;
  stored_whitelistRules : option SideTable;
  host_accepts : list HostCall -> HostCall -> bool;
  calls : list HostCall
}.

Definition set_auditLog (w : World) (l : list AuditEntry) : World :=
  {| auditLog := l; siteRules := siteRules w; whitelist := whitelist w;
     blacklist := blacklist w; encryption := encryption w; now := now w;
     random := random w; drawn := drawn w;
     stored_whitelistRules := stored_whitelistRules w;
     host_accepts := host_accepts w; calls := calls w |}.

Definition set_siteRules (w : World) (r : JsObject Rule) : World :=
  {| auditLog := auditLog w; siteRules := r; whitelist := whitelist w;
     blacklist := blacklist w; encryption := encryption w; now := now w;
     random := random w; drawn := drawn w;
     stored_whitelistRules := stored_whitelistRules w;
     host_accepts := host_accepts w; calls := calls w |}.

Definition set_whitelist (w : World) (l : list string) : World :=
  {| auditLog := auditLog w; siteRules := siteRules w; whitelist := l;
     blacklist := blacklist w; encryption := encryption w; now := now w;
     random := random w; drawn := drawn w;
     stored_whitelistRules := stored_whitelistRules w;
     host_accepts := host_accepts w; calls := calls w |}.

Definition set_blacklist (w : World) (l : list string) : World :=
  {| auditLog := auditLog w; siteRules := siteRules w; whitelist := whitelist w;
     blacklist := l; encryption := encryption w; now := now w;
     random := random w; drawn := drawn w;
     stored_whitelistRules := stored_whitelistRules w;
     host_accepts := host_accepts w; calls := calls w |}.

Definition set_drawn (w : World) (n : nat) : World :=
  {| auditLog := auditLog w; siteRules := siteRules w; whitelist := whitelist w;
     blacklist := blacklist w; encryption := encryption w; now := now w;
     random := random w; drawn := n;
     stored_whitelistRules := stored_whitelistRules w;
     host_accepts := host_accepts w; calls := calls w |}.

Definition set_calls (w : World) (l : list HostCall) : World :=
  {| auditLog := auditLog w; siteRules := siteRules w; whitelist := whitelist w;
     blacklist := blacklist w; encryption := encryption w; now := now w;
     random := random w; drawn := drawn w;
     stored_whitelistRules := stored_whitelistRules w;
     host_accepts := host_accepts w; calls := l |}.

(* ------------------------------------------------------------------ *)
(** ** Handlers as state transformers that may throw *)
(* ------------------------------------------------------------------ *)

Definition Eff (A : Type) : Type := World -> Completion A * World.

Definition ret (A : Type) (a : A) : Eff A := fun w => (Normal a, w).

Definition throw {A : Type} (e : JsError) : Eff A := fun w => (Throw e, w).

Definition bind (A B : Type) (m : Eff A) (f : A -> Eff B) : Eff B :=
  fun w =>
    match m w with
    | (Normal a, w') => f a w'
    | (Throw e, w') => (Throw e, w')
    end.

(** [try { m } catch (error) { handler }] *)
Definition try_catch (A : Type) (m : Eff A) (handler : Eff A) : Eff A :=
  fun w =>
    match m w with
    | (Normal a, w') => (Normal a, w')
    | (Throw _, w') => handler w'
    end.

Definition read (A : Type) (f : World -> A) : Eff A := fun w => (Normal (f w), w).

Definition update (f : World -> World) : Eff unit := fun w => (Normal tt, f w).

(** [await] of a host request: the request is recorded, and it throws when
    the host rejects it. *)
Definition request (c : HostCall) : Eff unit :=
  fun w =>
    let w' := set_calls w (c :: calls w) in
    if host_accepts w (calls w) c then (Normal tt, w') else (Throw HostRejected, w').

(** A host request whose promise nobody awaits: a rejection goes unseen. *)
Definition fire (c : HostCall) : Eff unit :=
  try_catch (request c) (ret tt).

End Background.

Declare Scope eff_scope.
Delimit Scope eff_scope with eff.
Notation "x <- m ;; k" := (bind m (fun x => k))
  (at level 61, m at next level, right associativity) : eff_scope.
Notation "m ;; k" := (bind m (fun _ => k))
  (at level 61, right associativity) : eff_scope.

(* ================================================================== *)
(** * background.js: the handlers of [CookieGuardianBackground] *)
(* ================================================================== *)

Section Handlers.
Context {E : RegExpEngine} {P : Platform}.
Local Open Scope eff_scope.

(** [this.auditLog.unshift(logEntry)] followed by
    [if (this.auditLog.length > 1000) this.auditLog = this.auditLog.slice(0, 1000)]. *)
Definition unshift_capped (logEntry : AuditEntry) (log : list AuditEntry)
  : list AuditEntry :=
  let log' := logEntry :: log in
  if 1000 <? List.length log' then firstn 1000 log' else log'.

Definition logCookieChange (changeInfo : ChangeInfo) : Eff unit :=
  t <- read now ;;
  let c := cookie changeInfo in
  let logEntry :=
    {| timestamp := t;
       details := COOKIE_CHANGE (name c) (domain c)
                    (if removed changeInfo then "REMOVED"%string else cause changeInfo)
                    (logged_value (value c)) |} in
  update (fun w => set_auditLog w (unshift_capped logEntry (auditLog w))) ;;
  log <- read auditLog ;;
  try_catch (request (storage_set [item_auditLog log])) (ret tt).

Definition logAudit (action : AuditDetails) : Eff unit :=
  t <- read now ;;
  let logEntry := {| timestamp := t; details := action |} in
  update (fun w => set_auditLog w (unshift_capped logEntry (auditLog w))) ;;
  log <- read auditLog ;;
  fire (storage_set [item_auditLog (firstn 1000 log)]).

(** [this.encryption.encryptCookie(value, domain)] with the random bytes and
    the clock of the world. *)
Definition encrypt_in_world (enc : CookieEncryption) (value domain : string)
  : Eff Envelope :=
  fun w =>
    let w' := set_drawn w (S (drawn w)) in
    (encryptCookie enc (random w (drawn w)) (now w) value domain, w').

(** [Math.floor((Date.now() + (rule.expiration * 60 * 1000)) / 1000)], in
    the arithmetic of the integers (exact on safe integers). *)
Definition whitelist_expiry (now : Z) (e : JsValue) : JsNumber :=
  match ToNumber e with
  | NaN => NaN
  | Num m => floor_div_1000 (Num (now + m * 60 * 1000))
  end.

Definition applyWhitelistRule (cookie : Cookie) (rule : WhitelistRule) : Eff unit :=
  t <- read now ;;
  let updatedCookie :=
    if truthy (wl_expiration rule)
    then with_expirationDate cookie (Some (whitelist_expiry t (wl_expiration rule)))
    else cookie in
  enc <- read encryption ;;
  updatedCookie <-
    match truthy (wl_encrypt rule), enc with
    | true, Some enc =>
        try_catch
          (encrypted <- encrypt_in_world enc (value cookie) (domain cookie) ;;
           request (storage_set [item_envelope (envelope_key cookie) encrypted]) ;;
           logAudit (ENCRYPTED (name cookie) (domain cookie) whitelist_rule) ;;
           ret (with_value updatedCookie (encrypted_ref cookie)))
          (ret updatedCookie)
    | _, _ => ret updatedCookie
    end ;;
  try_catch (request (cookies_set updatedCookie)) (ret tt).

(** What [whitelistRules[cookie.domain]] finds.  [whitelistRules] is the
    object [chrome.storage.local.get(['whitelistRules'])] resolves to: it
    has the single own key [whitelistRules] (when the side table is stored),
    and the lookup by domain is made on that object.  A table read as a
    rule has an [expiration] (an [encrypt]) exactly when it has an entry of
    that name, and the entry is an object. *)
Definition table_as_rule (t : SideTable) : WhitelistRule :=
  {| wl_expiration := match own_get t "expiration" with
                      | Some _ => Object | None => Undefined end;
     wl_encrypt := match own_get t "encrypt" with
                   | Some _ => Object | None => Undefined end |}.

Definition whitelistRules_lookup (stored : option SideTable) (k : string)
  : option WhitelistRule :=
  if String.eqb k "whitelistRules" then
    match stored with
    | Some t => Some (table_as_rule t)
    | None => None
    end
  else if inherited k then
    Some {| wl_expiration := Undefined; wl_encrypt := Undefined |}
  else None.

(** A list pattern matches a domain: [new RegExp(pattern.replace(/\*/g, '.*'))]
    does not throw and its [test] accepts the domain. *)
Definition pattern_matches (pattern domain : string) : bool :=
  match RegExp_new (replace_star pattern) with
  | Some regex => RegExp_test regex domain
  | None => false
  end.

(** The whitelist loop of [applyWhitelistBlacklist]; [None] is [null]. *)
Fixpoint check_whitelist (cookie : Cookie) (patterns : list string)
  : Eff (option bool) :=
  match patterns with
  | [] => ret None
  | pattern :: rest =>
      returned <-
        try_catch
          (match RegExp_new (replace_star pattern) with
           | None => throw SyntaxError
           | Some regex =>
               if RegExp_test regex (domain cookie) then
                 request (storage_get ["whitelistRules"%string]) ;;
                 stored <- read stored_whitelistRules ;;
                 match whitelistRules_lookup stored (domain cookie) with
                 | Some rule => applyWhitelistRule cookie rule
                 | None => ret tt
                 end ;;
                 ret (Some true)
               else ret None
           end)
          (ret None) ;;
      match returned with
      | Some result => ret (Some result)
      | None => check_whitelist cookie rest
      end
  end.

(** The blacklist loop of [applyWhitelistBlacklist], followed by the
    whitelist loop when no pattern returned. *)
Fixpoint check_blacklist (cookie : Cookie) (patterns : list string)
  : Eff (option bool) :=
  match patterns with
  | [] => wl <- read whitelist ;; check_whitelist cookie wl
  | pattern :: rest =>
      returned <-
        try_catch
          (match RegExp_new (replace_star pattern) with
           | None => throw SyntaxError
           | Some regex =>
               if RegExp_test regex (domain cookie) then
                 request (cookies_remove (cookie_url cookie) (name cookie)) ;;
                 logAudit (BLACKLIST_DELETED (name cookie) (domain cookie) pattern) ;;
                 ret (Some false)
               else ret None
           end)
          (ret None) ;;
      match returned with
      | Some result => ret (Some result)
      | None => check_blacklist cookie rest
      end
  end.

(** [Some false]: blacklisted and deleted; [Some true]: whitelisted;
    [None] ([null]): neither. *)
Definition applyWhitelistBlacklist (cookie : Cookie) : Eff (option bool) :=
  bl <- read blacklist ;;
  check_blacklist cookie bl.

(** [rule.pattern && rule.pattern.test(domain)] *)
Definition pattern_test (rule : Rule) (domain : string) : bool :=
  match pattern rule with
  | Some regex => RegExp_test regex domain
  | None => false
  end.

(** The loop of [applyRules] over [Object.entries(this.siteRules)]. *)
Fixpoint find_rule (entries : list (string * Rule)) (domain : string)
    (matchedRule : option Rule) : option Rule :=
  match entries with
  | [] => matchedRule
  | (key, rule) :: rest =>
      if String.eqb key "*" then find_rule rest domain matchedRule
      else if pattern_test rule domain then Some rule
      else if includes domain key then Some rule
      else find_rule rest domain matchedRule
  end.

(** [matchedRule] after the loop; [None] is [undefined]. *)
Definition resolve (rules : JsObject Rule) (domain : string) : option Rule :=
  find_rule rules domain (own_get rules "*").

Definition truthy_minutes (e : option Z) : bool :=
  match e with
  | Some m => negb (m =? 0)%Z
  | None => false
  end.

(** [Math.floor((Date.now() + matchedRule.expiration * 60 * 1000) / 1000)],
    in the arithmetic of the integers: the value the source computes when
    the clock, the product and the sum are safe integers. *)
Definition rule_expiry (now minutes : Z) : Z := ((now + minutes * 60 * 1000) / 1000)%Z.

(** The clock and an expiration for which [rule_expiry] is exact. *)
Definition exact_expiry (now minutes : Z) : Prop :=
  safe_integer now
  /\ safe_integer (minutes * 60 * 1000)
  /\ safe_integer (now + minutes * 60 * 1000).

Definition applyRules (cookie : Cookie) : Eff unit :=
  rules <- read siteRules ;;
  match resolve rules (domain cookie) with
  | None => throw TypeError
  | Some matchedRule =>
      match expiration matchedRule with
      | Some minutes =>
          if negb (minutes =? 0)%Z && negb (truthy_opt (expirationDate cookie)) then
            t <- read now ;;
            let updatedCookie :=
              with_expirationDate cookie (Some (Num (rule_expiry t minutes))) in
            try_catch
              (request (cookies_set updatedCookie) ;;
               logAudit (RULE_APPLIED (name cookie) (domain cookie)
                           (expiration matchedRule) matchedRule))
              (ret tt)
          else ret tt
      | None => ret tt
      end
  end.

(** The loop of [applyEncryption]. *)
Fixpoint should_encrypt (entries : list (string * Rule)) (domain : string)
    (shouldEncrypt : bool) : bool :=
  match entries with
  | [] => shouldEncrypt
  | (key, rule) :: rest =>
      if String.eqb key "*" then
        should_encrypt rest domain (if encrypt rule then true else shouldEncrypt)
      else if pattern_test rule domain then encrypt rule
      else if includes domain key && encrypt rule then true
      else should_encrypt rest domain shouldEncrypt
  end.

Definition nonempty (s : string) : bool :=
  match s with
  | EmptyString => false
  | _ => true
  end.

Definition applyEncryption (cookie : Cookie) : Eff unit :=
  rules <- read siteRules ;;
  let shouldEncrypt := should_encrypt rules (domain cookie) false in
  enc <- read encryption ;;
  match enc with
  | Some enc =>
      if shouldEncrypt && nonempty (value cookie)
         && negb (startsWith (value cookie) "ENCRYPTED_REF_") then
        try_catch
          (encrypted <- encrypt_in_world enc (value cookie) (domain cookie) ;;
           request (storage_set [item_envelope (envelope_key cookie) encrypted]) ;;
           request (cookies_set (with_value cookie (encrypted_ref cookie))) ;;
           logAudit (ENCRYPTED (name cookie) (domain cookie) auto_encryption))
          (ret tt)
      else ret tt
  | None => ret tt
  end.

Definition handleCookieChange (changeInfo : ChangeInfo) : Eff unit :=
  logCookieChange changeInfo ;;
  let cookie := cookie changeInfo in
  listResult <- applyWhitelistBlacklist cookie ;;
  match listResult with
  | Some false => ret tt
  | _ =>
      applyRules cookie ;;
      applyEncryption cookie
  end.

(** The messages of [handleMessage] that act on the rules, the lists, the
    audit log and the encryption instance.  [GET_STATS] and
    [GET_CATEGORIES], which read the cookie jar, and [EXPORT_BACKUP],
    [IMPORT_BACKUP] and [SYNC_DATA], which go through the sync manager (an
    import overwrites storage with what the backup holds and reloads the
    rules and the lists from it), are not among them. *)
Inductive Message : Type :=
| GET_AUDIT_LOG
| GET_RULES
| SAVE_RULE (domain : string) (rule : Rule)
| DELETE_RULE (domain : string)
| GET_WHITELIST
| GET_BLACKLIST
| ADD_TO_LIST (listType pattern : string)
| REMOVE_FROM_LIST (listType pattern : string)
| ENCRYPT_COOKIE (value domain : string)
| DECRYPT_COOKIE (encryptedData : Envelope).

(** The argument of [sendResponse]. *)
Inductive Response : Type :=
| response_auditLog (log : list AuditEntry)
| response_rules (rules : JsObject Rule)
| response_whitelist (patterns : list string)
| response_blacklist (patterns : list string)
| response_success
| response_encrypted (e : Envelope)
| response_decrypted (text : string)
| response_failure.

Definition array_includes (l : list string) (x : string) : bool :=
  existsb (String.eqb x) l.

Definition persist_lists : Eff unit :=
  wl <- read whitelist ;;
  bl <- read blacklist ;;
  request (storage_set [item_whitelist wl; item_blacklist bl]).

Definition handleMessage (message : Message) : Eff Response :=
  try_catch
    (match message with
     | GET_AUDIT_LOG =>
         log <- read auditLog ;; ret (response_auditLog (firstn 100 log))
     | GET_RULES =>
         rules <- read siteRules ;; ret (response_rules rules)
     | SAVE_RULE domain rule =>
         update (fun w => set_siteRules w (obj_set (siteRules w) domain rule)) ;;
         rules <- read siteRules ;;
         request (storage_set [item_siteRules rules]) ;;
         ret response_success
     | DELETE_RULE domain =>
         update (fun w => set_siteRules w (obj_delete (siteRules w) domain)) ;;
         rules <- read siteRules ;;
         request (storage_set [item_siteRules rules]) ;;
         ret response_success
     | GET_WHITELIST =>
         wl <- read whitelist ;; ret (response_whitelist wl)
     | GET_BLACKLIST =>
         bl <- read blacklist ;; ret (response_blacklist bl)
     | ADD_TO_LIST listType pattern =>
         (if String.eqb listType "whitelist" then
            update (fun w =>
              if array_includes (whitelist w) pattern then w
              else set_whitelist w (whitelist w ++ [pattern]))
          else
            update (fun w =>
              if array_includes (blacklist w) pattern then w
              else set_blacklist w (blacklist w ++ [pattern]))) ;;
         persist_lists ;;
         ret response_success
     | REMOVE_FROM_LIST listType pattern =>
         (if String.eqb listType "whitelist" then
            update (fun w => set_whitelist w
              (filter (fun p => negb (String.eqb p pattern)) (whitelist w)))
          else
            update (fun w => set_blacklist w
              (filter (fun p => negb (String.eqb p pattern)) (blacklist w)))) ;;
         persist_lists ;;
         ret response_success
     | ENCRYPT_COOKIE value domain =>
         enc <- read encryption ;;
         match enc with
         | Some enc =>
             encrypted <- encrypt_in_world enc value domain ;;
             ret (response_encrypted encrypted)
         | None => ret response_failure
         end
     | DECRYPT_COOKIE encryptedData =>
         enc <- read encryption ;;
         match enc with
         | Some enc =>
             fun w =>
               match decryptCookie enc encryptedData with
               | Normal text => (Normal (response_decrypted text), w)
               | Throw e => (Throw e, w)
               end
         | None => ret response_failure
         end
     end)
    (ret response_failure).

(** What can happen to the engine: a cookie changes, or one of the messages
    above arrives. *)
Inductive Operation : Type :=
| cookie_changed (changeInfo : ChangeInfo)
| message_received (message : Message).

(** One operation run to completion; only the world after it matters here
    (a handler that throws leaves the changes it had made). *)
Definition step (w : World) (op : Operation) : World :=
  match op with
  | cookie_changed changeInfo => snd (handleCookieChange changeInfo w)
  | message_received message => snd (handleMessage message w)
  end.

Definition run (w : World) (ops : list Operation) : World :=
  fold_left step ops w.

End Handlers.

(* ================================================================== *)
(** * A regular-expression engine *)
(* ================================================================== *)

(** ECMAScript regular expressions as the engine meets them: the literals
    of [getDefaultRules] and of the classifier, and the sources that
    [new RegExp] compiles from list patterns, without flags or with the [i]
    flag.  Modelled are characters, [.], character classes and class
    escapes, the assertions [^], [$], [\b] and [\B], groups, alternation and
    the quantifiers.  Look-around, back-references (and the octal escapes
    that share their syntax), named groups and the [\c] and [\u] escapes are
    not modelled; [regex_compile] answers [Unsupported] for a source that
    uses one of them. *)

Inductive regex : Type :=
| Void                      (* no string at all; arises in derivatives *)
| Eps                       (* the empty string *)
| Chr (c : ascii)
| Dot                       (* any character but a line terminator *)
| Class (negated : bool) (ranges : list (ascii * ascii))
| Bol                       (* ^ *)
| Eol                       (* $ *)
| Boundary (negated : bool) (* \b and \B *)
| Cat (r1 r2 : regex)
| Alt (r1 r2 : regex)
| Star (r : regex).

(** A [RegExp] object: its pattern and its [ignoreCase] flag. *)
Record compiled : Type := {
  body : regex;
  ignoreCase : bool
}.

(** Line feed and carriage return. *)
Definition line_terminator (a : ascii) : bool :=
  let n := nat_of_ascii a in (n =? 10) || (n =? 13).

(** [Canonicalize] without the [u] flag: the upper-case form of a letter
    when that form is a single code unit of the same range. *)
Definition canonicalize (a : ascii) : ascii :=
  let n := nat_of_ascii a in
  if ((97 <=? n) && (n <=? 122))
     || ((224 <=? n) && (n <=? 254) && negb (n =? 247))
  then ascii_of_nat (n - 32)
  else a.

Definition char_match (ci : bool) (c a : ascii) : bool :=
  if ci then Ascii.eqb (canonicalize c) (canonicalize a) else Ascii.eqb c a.

Definition in_range (a : ascii) (range : ascii * ascii) : bool :=
  (nat_of_ascii (fst range) <=? nat_of_ascii a)
  && (nat_of_ascii a <=? nat_of_ascii (snd range)).

Definition in_ranges (ranges : list (ascii * ascii)) (a : ascii) : bool :=
  existsb (in_range a) ranges.

Definition all_characters : list ascii := map ascii_of_nat (seq 0 256).

(** [CharacterSetMatcher]: some member of the set has the canonical form of
    the character, or none has when the class is negated. *)
Definition class_match (ci negated : bool) (ranges : list (ascii * ascii))
    (a : ascii) : bool :=
  let found :=
    if ci
    then existsb (fun c => in_ranges ranges c
                           && Ascii.eqb (canonicalize c) (canonicalize a))
           all_characters
    else in_ranges ranges a in
  xorb negated found.

(** The word characters of [\w] and [\b]. *)
Definition word_ranges : list (ascii * ascii) :=
  [ ("a", "z"); ("A", "Z"); ("0", "9"); ("_", "_") ]%char.

(** [IsWordChar] of the character next to a position; there is none at
    either end of the input. *)
Definition is_word (o : option ascii) : bool :=
  match o with
  | Some a => in_ranges word_ranges a
  | None => false
  end.

(** The character left of the position reached after [s], when [p] was left
    of its start. *)
Fixpoint after (p : option ascii) (s : string) : option ascii :=
  match s with
  | EmptyString => p
  | String a rest => after (Some a) rest
  end.

(** The character right of the position where [s] starts, when [n] follows
    its end. *)
Definition before (s : string) (n : option ascii) : option ascii :=
  match s with
  | EmptyString => n
  | String a _ => Some a
  end.

(** [Matches ci p r s n]: the expression matches exactly [s] at a place of
    the input where [p] is the character before [s] and [n] the character
    after it ([None] at an end of the input). *)
Inductive Matches (ci : bool)
  : option ascii -> regex -> string -> option ascii -> Prop :=
| MEps p n : Matches ci p Eps EmptyString n
| MChr p n c a :
    char_match ci c a = true -> Matches ci p (Chr c) (String a EmptyString) n
| MDot p n a :
    line_terminator a = false -> Matches ci p Dot (String a EmptyString) n
| MClass p n negated ranges a :
    class_match ci negated ranges a = true ->
    Matches ci p (Class negated ranges) (String a EmptyString) n
| MBol n : Matches ci None Bol EmptyString n
| MEol p : Matches ci p Eol EmptyString None
| MBoundary p n negated :
    xorb (is_word p) (is_word n) = negb negated ->
    Matches ci p (Boundary negated) EmptyString n
| MCat p n r1 r2 s1 s2 :
    Matches ci p r1 s1 (before s2 n) ->
    Matches ci (after p s1) r2 s2 n ->
    Matches ci p (Cat r1 r2) (s1 ++ s2) n
| MAltL p n r1 r2 s : Matches ci p r1 s n -> Matches ci p (Alt r1 r2) s n
| MAltR p n r1 r2 s : Matches ci p r2 s n -> Matches ci p (Alt r1 r2) s n
| MStarNil p n r : Matches ci p (Star r) EmptyString n
| MStarApp p n r s1 s2 :
    Matches ci p r s1 (before s2 n) ->
    Matches ci (after p s1) (Star r) s2 n ->
    Matches ci p (Star r) (s1 ++ s2) n.

Definition absent (o : option ascii) : bool :=
  match o with
  | Some _ => false
  | None => true
  end.

(** The expression matches the empty string between [p] and [n]. *)
Fixpoint nullable (p n : option ascii) (r : regex) : bool :=
  match r with
  | Void => false
  | Eps => true
  | Chr _ => false
  | Dot => false
  | Class _ _ => false
  | Bol => absent p
  | Eol => absent n
  | Boundary negated => Bool.eqb (xorb (is_word p) (is_word n)) (negb negated)
  | Cat r1 r2 => nullable p n r1 && nullable p n r2
  | Alt r1 r2 => nullable p n r1 || nullable p n r2
  | Star _ => true
  end.

(** What is left of [r] after it has read [a], which follows [p]. *)
Fixpoint deriv (ci : bool) (p : option ascii) (a : ascii) (r : regex) : regex :=
  match r with
  | Void => Void
  | Eps => Void
  | Chr c => if char_match ci c a then Eps else Void
  | Dot => if line_terminator a then Void else Eps
  | Class negated ranges => if class_match ci negated ranges a then Eps else Void
  | Bol => Void
  | Eol => Void
  | Boundary _ => Void
  | Cat r1 r2 =>
      if nullable p (Some a) r1
      then Alt (Cat (deriv ci p a r1) r2) (deriv ci p a r2)
      else Cat (deriv ci p a r1) r2
  | Alt r1 r2 => Alt (deriv ci p a r1) (deriv ci p a r2)
  | Star r1 => Cat (deriv ci p a r1) (Star r1)
  end.

(** A match that starts at the first character of [s], which follows [p]. *)
Fixpoint match_here (ci : bool) (p : option ascii) (r : regex) (s : string)
  : bool :=
  if nullable p (before s None) r then true
  else match s with
       | EmptyString => false
       | String a rest => match_here ci (Some a) (deriv ci p a r) rest
       end.

(** A match that starts at some index of [s]. *)
Fixpoint search (ci : bool) (p : option ascii) (r : regex) (s : string) : bool :=
  if match_here ci p r s then true
  else match s with
       | EmptyString => false
       | String a rest => search ci (Some a) r rest
       end.

(** [RegExp.prototype.test] *)
Definition regex_test (re : compiled) (s : string) : bool :=
  search (ignoreCase re) None (body re) s.


(* ------------------------------------------------------------------ *)
(** ** The pattern grammar *)
(* ------------------------------------------------------------------ *)

(** The syntax characters of a pattern other than [.] and [*]. *)
Definition other_syntax_character (a : ascii) : bool :=
  existsb (Ascii.eqb a)
    [ "^"; "$"; "\"; "+"; "?"; "("; ")"; "["; "]"; "{"; "}"; "|" ]%char.

Inductive compile_result : Type :=
| Compiled (r : regex)
| Malformed      (* the constructor throws a SyntaxError *)
| Unsupported.   (* the source is outside the modelled syntax *)

(** What a production gives: the value and the rest of the source, a
    [SyntaxError], or a construct that is not modelled. *)
Inductive outcome (A : Type) : Type :=
| Got (a : A) (rest : string)
| Bad
| Outside.

Arguments Bad {A}.
Arguments Outside {A}.

Definition char_is (a c : ascii) : bool := Ascii.eqb a c.

Definition hex_value (a : ascii) : option nat :=
  let n := nat_of_ascii a in
  if (48 <=? n) && (n <=? 57) then Some (n - 48)
  else if (65 <=? n) && (n <=? 70) then Some (n - 55)
  else if (97 <=? n) && (n <=? 102) then Some (n - 87)
  else None.

Fixpoint decimal (acc : N) (s : string) : N * string :=
  match s with
  | EmptyString => (acc, s)
  | String a rest =>
      match digit_of a with
      | Some d => decimal (10 * acc + d)%N rest
      | None => (acc, s)
      end
  end.

Definition DecimalDigits (s : string) : option (N * string) :=
  match s with
  | EmptyString => None
  | String a _ =>
      match digit_of a with
      | Some _ => Some (decimal 0 s)
      | None => None
      end
  end.

(** What follows a brace when it opens a quantifier: [n}], [n,}] or [n,m}]. *)
Definition braces (s : string) : option (N * option N * string) :=
  match DecimalDigits s with
  | None => None
  | Some (lo, rest) =>
      match rest with
      | String a rest1 =>
          if char_is a "}" then Some (lo, Some lo, rest1)
          else if char_is a "," then
            match rest1 with
            | String b rest2 =>
                if char_is b "}" then Some (lo, None, rest2)
                else match DecimalDigits rest1 with
                     | Some (hi, String c rest3) =>
                         if char_is c "}" then Some (lo, Some hi, rest3) else None
                     | _ => None
                     end
            | EmptyString => None
            end
          else None
      | EmptyString => None
      end
  end.

Definition QuantifierPrefix (s : string) : option (N * option N * string) :=
  match s with
  | EmptyString => None
  | String a rest =>
      if char_is a "*" then Some (0%N, None, rest)
      else if char_is a "+" then Some (1%N, None, rest)
      else if char_is a "?" then Some (0%N, Some 1%N, rest)
      else if char_is a "{" then braces rest
      else None
  end.

(** The [?] that makes a quantifier lazy changes which match is found, not
    whether there is one. *)
Definition lazy_mark (s : string) : string :=
  match s with
  | String a rest => if char_is a "?" then rest else s
  | EmptyString => s
  end.

Fixpoint power (n : nat) (r tail : regex) : regex :=
  match n with
  | O => tail
  | S n' => Cat r (power n' r tail)
  end.

Fixpoint options (n : nat) (r : regex) : regex :=
  match n with
  | O => Eps
  | S n' => Alt (Cat r (options n' r)) Eps
  end.

(** [r{lo,hi}], and [r{lo,}] when [hi] is absent. *)
Definition repeat_regex (r : regex) (lo : N) (hi : option N) : regex :=
  match hi with
  | None => power (N.to_nat lo) r (Star r)
  | Some hi => power (N.to_nat lo) r (options (N.to_nat (hi - lo)) r)
  end.

(** An atom with the quantifier that follows it, if any. *)
Definition quantified (atom : outcome regex) : outcome regex :=
  match atom with
  | Got r rest =>
      match QuantifierPrefix rest with
      | Some (lo, hi, rest') =>
          match hi with
          | Some hi' => if (hi' <? lo)%N then Bad
                        else Got (repeat_regex r lo hi) (lazy_mark rest')
          | None => Got (repeat_regex r lo hi) (lazy_mark rest')
          end
      | None => Got r rest
      end
  | other => other
  end.

Definition digit_ranges : list (ascii * ascii) := [ ("0", "9") ]%char.

(** The white space and line terminators below 256. *)
Definition space_ranges : list (ascii * ascii) :=
  [ (ascii_of_nat 9, ascii_of_nat 13); (" ", " ")%char;
    (ascii_of_nat 160, ascii_of_nat 160) ].

Definition complement_of (ranges : list (ascii * ascii)) : list (ascii * ascii) :=
  map (fun c => (c, c))
    (filter (fun c => negb (in_ranges ranges c)) all_characters).

Definition CharacterClassEscape (a : ascii) : option (bool * list (ascii * ascii)) :=
  if char_is a "d" then Some (false, digit_ranges)
  else if char_is a "D" then Some (true, digit_ranges)
  else if char_is a "s" then Some (false, space_ranges)
  else if char_is a "S" then Some (true, space_ranges)
  else if char_is a "w" then Some (false, word_ranges)
  else if char_is a "W" then Some (true, word_ranges)
  else None.

Definition ControlEscape (a : ascii) : option ascii :=
  if char_is a "t" then Some (ascii_of_nat 9)
  else if char_is a "n" then Some (ascii_of_nat 10)
  else if char_is a "v" then Some (ascii_of_nat 11)
  else if char_is a "f" then Some (ascii_of_nat 12)
  else if char_is a "r" then Some (ascii_of_nat 13)
  else None.

Definition is_digit (a : ascii) : bool :=
  match digit_of a with
  | Some _ => true
  | None => false
  end.

(** What follows a backslash when it stands for one character: a control
    escape, [\0], [\xHH], or the character itself.  A decimal escape and the
    [\c] and [\u] escapes are not modelled. *)
Definition CharacterEscape (s : string) : outcome ascii :=
  match s with
  | EmptyString => Bad
  | String a rest =>
      match ControlEscape a with
      | Some c => Got c rest
      | None =>
          if char_is a "c" || char_is a "u" then Outside
          else if char_is a "0" then
            match rest with
            | String b _ => if is_digit b then Outside else Got (ascii_of_nat 0) rest
            | EmptyString => Got (ascii_of_nat 0) rest
            end
          else if is_digit a then Outside
          else if char_is a "x" then
            match rest with
            | String h1 (String h2 rest') =>
                match hex_value h1, hex_value h2 with
                | Some v1, Some v2 => Got (ascii_of_nat (16 * v1 + v2)) rest'
                | _, _ => Got a rest
                end
            | _ => Got a rest
            end
          else Got a rest
      end
  end.

Inductive ClassAtom : Type :=
| One (c : ascii)
| Many (ranges : list (ascii * ascii)).

Definition members (atom : ClassAtom) : list (ascii * ascii) :=
  match atom with
  | One c => [(c, c)]
  | Many ranges => ranges
  end.

Definition class_atom (s : string) : outcome ClassAtom :=
  match s with
  | EmptyString => Bad
  | String a rest =>
      if char_is a "\" then
        match rest with
        | EmptyString => Bad
        | String e rest' =>
            if char_is e "b" then Got (One (ascii_of_nat 8)) rest'
            else match CharacterClassEscape e with
                 | Some (negated, ranges) =>
                     Got (Many (if negated then complement_of ranges else ranges)) rest'
                 | None =>
                     match CharacterEscape rest with
                     | Got c rest'' => Got (One c) rest''
                     | Bad => Bad
                     | Outside => Outside
                     end
                 end
        end
      else Got (One a) rest
  end.

Definition and_then (A : Type) (first : list A) (more : outcome (list A))
  : outcome (list A) :=
  match more with
  | Got l rest => Got (first ++ l) rest
  | other => other
  end.

(** The members of a class up to its closing bracket.  [fuel] bounds the
    number of members; the length of the source is enough. *)
Fixpoint ClassRanges (fuel : nat) (s : string) : outcome (list (ascii * ascii)) :=
  match fuel with
  | O => Outside
  | S fuel' =>
      match s with
      | EmptyString => Bad
      | String a rest =>
          if char_is a "]" then Got [] rest
          else
            match class_atom s with
            | Got first rest1 =>
                match rest1 with
                | String dash (String b rest2) =>
                    if char_is dash "-" && negb (char_is b "]") then
                      match class_atom (String b rest2) with
                      | Got second rest3 =>
                          match first, second with
                          | One lo, One hi =>
                              if nat_of_ascii lo <=? nat_of_ascii hi
                              then and_then [(lo, hi)] (ClassRanges fuel' rest3)
                              else Bad
                          | _, _ =>
                              and_then
                                (members first ++ [(dash, dash)] ++ members second)
                                (ClassRanges fuel' rest3)
                          end
                      | Bad => Bad
                      | Outside => Outside
                      end
                    else and_then (members first) (ClassRanges fuel' rest1)
                | _ => and_then (members first) (ClassRanges fuel' rest1)
                end
            | Bad => Bad
            | Outside => Outside
            end
      end
  end.

(** What follows an opening bracket. *)
Definition CharacterClass (s : string) : outcome regex :=
  let negated := match s with
                 | String a _ => char_is a "^"
                 | EmptyString => false
                 end in
  let s' := match s with
            | String a rest => if char_is a "^" then rest else s
            | EmptyString => s
            end in
  match ClassRanges (S (String.length s')) s' with
  | Got ranges rest => Got (Class negated ranges) rest
  | Bad => Bad
  | Outside => Outside
  end.

(** An atom other than a group.  A quantifier with nothing to repeat is a
    [SyntaxError]; a brace, a closing bracket and any other character stand
    for themselves. *)
Definition Atom (s : string) : outcome regex :=
  match s with
  | EmptyString => Bad
  | String a rest =>
      if char_is a "*" || char_is a "+" || char_is a "?" then Bad
      else if char_is a "{" then
        match braces rest with
        | Some _ => Bad
        | None => Got (Chr a) rest
        end
      else if char_is a "." then Got Dot rest
      else if char_is a "[" then CharacterClass rest
      else if char_is a "\" then
        match rest with
        | EmptyString => Bad
        | String e rest' =>
            match CharacterClassEscape e with
            | Some (negated, ranges) => Got (Class negated ranges) rest'
            | None =>
                match CharacterEscape rest with
                | Got c rest'' => Got (Chr c) rest''
                | Bad => Bad
                | Outside => Outside
                end
            end
        end
      else Got (Chr a) rest
  end.

(** [^], [$], [\b] and [\B]; an assertion takes no quantifier. *)
Definition Assertion (s : string) : option (regex * string) :=
  match s with
  | String a rest =>
      if char_is a "^" then Some (Bol, rest)
      else if char_is a "$" then Some (Eol, rest)
      else if char_is a "\" then
        match rest with
        | String e rest' =>
            if char_is e "b" then Some (Boundary false, rest')
            else if char_is e "B" then Some (Boundary true, rest')
            else None
        | EmptyString => None
        end
      else None
  | EmptyString => None
  end.

Inductive GroupStart : Type :=
| NoGroup
| Group (inner : string)
| BadGroup
| OutsideGroup.

(** An opening parenthesis: a capturing group, [(?:], or a look-around or
    named group, which are not modelled. *)
Definition group_start (s : string) : GroupStart :=
  match s with
  | String a rest =>
      if char_is a "(" then
        match rest with
        | String q rest1 =>
            if char_is q "?" then
              match rest1 with
              | String k rest2 =>
                  if char_is k ":" then Group rest2
                  else if char_is k "=" || char_is k "!" || char_is k "<"
                       then OutsideGroup
                       else BadGroup
              | EmptyString => BadGroup
              end
            else Group rest
        | EmptyString => BadGroup
        end
      else NoGroup
  | EmptyString => NoGroup
  end.

(** The closing parenthesis of a group. *)
Definition closed (inner : outcome regex) : outcome regex :=
  match inner with
  | Got r (String a rest) => if char_is a ")" then Got r rest else Bad
  | Got _ EmptyString => Bad
  | other => other
  end.

(** [Disjunction], [Alternative] and [Term] of the grammar.  Every call
    passes on less [fuel]; three units for each character of the source are
    enough. *)
Fixpoint Disjunction (fuel : nat) (s : string) : outcome regex :=
  match fuel with
  | O => Outside
  | S fuel' =>
      match Alternative fuel' s with
      | Got r rest =>
          match rest with
          | String a rest' =>
              if char_is a "|" then
                match Disjunction fuel' rest' with
                | Got r' rest'' => Got (Alt r r') rest''
                | other => other
                end
              else Got r rest
          | EmptyString => Got r rest
          end
      | other => other
      end
  end
with Alternative (fuel : nat) (s : string) : outcome regex :=
  match fuel with
  | O => Outside
  | S fuel' =>
      match s with
      | EmptyString => Got Eps s
      | String a _ =>
          if char_is a "|" || char_is a ")" then Got Eps s
          else
            match Term fuel' s with
            | Got t rest =>
                match Alternative fuel' rest with
                | Got r rest' => Got (Cat t r) rest'
                | other => other
                end
            | other => other
            end
      end
  end
with Term (fuel : nat) (s : string) : outcome regex :=
  match fuel with
  | O => Outside
  | S fuel' =>
      match Assertion s with
      | Some (assertion, rest) => Got assertion rest
      | None =>
          match group_start s with
          | Group inner => quantified (closed (Disjunction fuel' inner))
          | BadGroup => Bad
          | OutsideGroup => Outside
          | NoGroup => quantified (Atom s)
          end
      end
  end.

(** [new RegExp(source)]: the whole source is one disjunction; a closing
    parenthesis that is left over is a [SyntaxError]. *)
Definition regex_compile (source : string) : compile_result :=
  match Disjunction (3 * String.length source + 3) source with
  | Got r EmptyString => Compiled r
  | Got _ _ => Malformed
  | Bad => Malformed
  | Outside => Unsupported
  end.

Definition list_pattern_engine : RegExpEngine := {|
  RegExp := compiled;
  RegExp_new source :=
    match regex_compile source with
    | Compiled r => Some {| body := r; ignoreCase := false |}
    | _ => None
    end;
  RegExp_test := regex_test
|}.

(** The pattern of a regular-expression literal that is a word. *)
Fixpoint word (s : string) : regex :=
  match s with
  | EmptyString => Eps
  | String a rest => Cat (Chr a) (word rest)
  end.

(** [/(w1|w2|w3|w4)/i] *)
Definition one_of_i (w1 w2 w3 w4 : string) : compiled :=
  {| body := Alt (word w1) (Alt (word w2) (Alt (word w3) (word w4)));
     ignoreCase := true |}.

(** A list pattern as a user who thinks of wildcards writes it: ordinary
    characters, [.] and [*]. *)
Definition list_pattern_char (a : ascii) : bool := negb (other_syntax_character a).

Fixpoint list_pattern (p : string) : bool :=
  match p with
  | EmptyString => true
  | String a rest => list_pattern_char a && list_pattern rest
  end.

Definition atom_of (a : ascii) : regex :=
  if Ascii.eqb a "."%char then Dot else Chr a.

(** What such a pattern means once compiled: [*] stands for any run of
    characters without a line terminator, [.] for one such character, and
    every other character for itself. *)
Fixpoint glob (p : string) : regex :=
  match p with
  | EmptyString => Eps
  | String a rest =>
      if Ascii.eqb a "*"%char then Cat (Star Dot) (glob rest)
      else Cat (atom_of a) (glob rest)
  end.

(* ================================================================== *)
(** * A reference platform and sample worlds *)
(* ================================================================== *)

(** A small platform on which the handlers can be run: a key is one byte,
    a ciphertext is the key followed by the plaintext, the codecs are the
    identity, and a call takes 120000 arguments.  It is used to evaluate
    the engine on concrete inputs. *)
Definition demo_decrypt (k : byte) (iv c : list byte) : option (list byte) :=
  match c with
  | k' :: m => if Byte.eqb k k' then Some m else None
  | [] => None
  end.

Definition demo_platform : Platform := {|
  CryptoKey := byte;
  subtle_encrypt k iv m := k :: m;
  subtle_decrypt := demo_decrypt;
  subtle_exportKey k := [k];
  btoa s := s;
  atob s := Some s;
  TextEncoder_encode := list_byte_of_string;
  TextDecoder_decode := string_of_list_byte;
  max_arguments := 120000
|}.

Section Samples.
#[local] Existing Instance list_pattern_engine.
#[local] Existing Instance demo_platform.

(** An instance of [CookieEncryption] whose key has been loaded. *)
Definition keyed (k : byte) : CookieEncryption := {| key := Some k |}.

(** [getDefaultRules()] *)
Definition getDefaultRules : JsObject Rule :=
  [ ("*"%string,
     {| expiration := Some 30%Z; encrypt := false; pattern := None;
        priority := Some medium; autoDelete := false |});
    ("banking"%string,
     {| expiration := Some 15%Z; encrypt := true;
        pattern := Some (one_of_i "bank" "credit" "paypal" "stripe");
        priority := Some high; autoDelete := false |});
    ("social"%string,
     {| expiration := Some 60%Z; encrypt := false;
        pattern := Some (one_of_i "facebook" "twitter" "instagram" "linkedin");
        priority := Some medium; autoDelete := false |});
    ("shopping"%string,
     {| expiration := Some 120%Z; encrypt := false;
        pattern := Some (one_of_i "amazon" "ebay" "shopify" "alibaba");
        priority := Some medium; autoDelete := false |}) ].

(** The engine right after [init] on a fresh profile, at time [t], on a
    host that resolves every request. *)
Definition fresh_world (t : Z) : World :=
  {| auditLog := [];
     siteRules := getDefaultRules;
     whitelist := [];
     blacklist := [];
     encryption := Some {| key := Some x07 |};
     now := t;
     random := fun _ => [x00];
     drawn := 0;
     stored_whitelistRules := None;
     host_accepts := fun _ _ => true;
     calls := [] |}.

(** A session cookie. *)
Definition session_cookie (d n v : string) : Cookie :=
  {| name := n; domain := d; path := "/"%string; value := v;
     secure := true; httpOnly := false; expirationDate := None |}.

(** The change event for a cookie that a page has just set. *)
Definition cookie_set_event (c : Cookie) : ChangeInfo :=
  {| cookie := c; removed := false; cause := "explicit"%string |}.

(** A fresh engine whose blacklist holds [*.ads.example.com] and whose
    whitelist holds [*.example.com]. *)
Definition ads_world : World :=
  set_whitelist
    (set_blacklist (fresh_world 1700000000000) ["*.ads.example.com"%string])
    ["*.example.com"%string].

(** A rule as the options page builds it. *)
Definition user_rule (minutes : Z) (enc : bool) : Rule :=
  {| expiration := Some minutes; encrypt := enc; pattern := None;
     priority := Some medium; autoDelete := false |}.

(** A default rule as [saveDefaultRule] of the options page builds it. *)
Definition user_default_rule (minutes : Z) (enc : bool) : Rule :=
  {| expiration := Some minutes; encrypt := enc; pattern := None;
     priority := None; autoDelete := false |}.

(** A fresh engine whose whitelist holds [good.example.com] and whose
    storage holds an override for that domain: 60 minutes, encrypted. *)
Definition override_world : World :=
  {| auditLog := [];
     siteRules := getDefaultRules;
     whitelist := ["good.example.com"%string];
     blacklist := [];
     encryption := Some {| key := Some x07 |};
     now := 1700000000000;
     random := fun _ => [x00];
     drawn := 0;
     stored_whitelistRules :=
       Some [("good.example.com"%string,
              {| wl_expiration := Number (Num 60); wl_encrypt := Bool true |})];
     host_accepts := fun _ _ => true;
     calls := [] |}.

End Samples.

(* ================================================================== *)
(** * Appends to the audit log *)
(* ================================================================== *)

Section Appends.
Context {E : RegExpEngine} {P : Platform}.

(** One append, by either of the two functions that write to the log. *)
Inductive Append : Type :=
| by_logAudit (action : AuditDetails)
| by_logCookieChange (changeInfo : ChangeInfo).

Definition append (w : World) (a : Append) : World :=
  match a with
  | by_logAudit action => snd (logAudit action w)
  | by_logCookieChange changeInfo => snd (logCookieChange changeInfo w)
  end.

(** The entry an append builds. *)
Definition appended_entry (w : World) (a : Append) : AuditEntry :=
  match a with
  | by_logAudit action => {| timestamp := now w; details := action |}
  | by_logCookieChange changeInfo =>
      let c := cookie changeInfo in
      {| timestamp := now w;
         details := COOKIE_CHANGE (name c) (domain c)
                      (if removed changeInfo then "REMOVED"%string
                       else cause changeInfo)
                      (logged_value (value c)) |}
  end.

End Appends.

(* ================================================================== *)
(** * Notions used to state the facts about rules *)
(* ================================================================== *)

Section RuleNotions.
Context {E : RegExpEngine} {P : Platform}.

(** A non-default entry applies to a domain: its pattern matches it, or
    its key occurs in it. *)
Definition rule_hits (domain : string) (entry : string * Rule) : bool :=
  negb (String.eqb (fst entry) "*")
  && (pattern_test (snd entry) domain || includes domain (fst entry)).

Definition pattern_hits (domain : string) (entry : string * Rule) : bool :=
  negb (String.eqb (fst entry) "*") && pattern_test (snd entry) domain.

Definition key_hits (domain : string) (entry : string * Rule) : bool :=
  negb (String.eqb (fst entry) "*") && includes domain (fst entry).

Definition rule_of (found : option (string * Rule)) (otherwise : option Rule)
  : option Rule :=
  match found with
  | Some entry => Some (snd entry)
  | None => otherwise
  end.

(** The resolution order in the words of the specification: first a rule
    whose pattern matches the domain, then a rule whose key is a substring
    of the domain, then the default rule; within a tier the first rule
    wins. *)
Definition resolve_by_tiers (rules : JsObject Rule) (domain : string)
  : option Rule :=
  rule_of (find (pattern_hits domain) rules)
    (rule_of (find (key_hits domain) rules) (own_get rules "*")).

(** The number of rules under the reserved key. *)
Definition count_default (rules : JsObject Rule) : nat :=
  List.length (filter (fun entry => String.eqb (fst entry) "*") rules).

(** A computation that leaves [siteRules] as it found it. *)
Definition keeps_rules (A : Type) (m : Eff A) : Prop :=
  forall w, siteRules (snd (m w)) = siteRules w.

(** The rules are a well-formed object with a rule under ['*']. *)
Definition rules_ok (w : World) : Prop :=
  NoDup (keys (siteRules w)) /\ own_get (siteRules w) "*" <> None.

(** An operation other than the deletion of the rule under ['*']. *)
Definition keeps_default (op : Operation) : Prop :=
  match op with
  | message_received (DELETE_RULE domain) => domain <> "*"%string
  | _ => True
  end.

End RuleNotions.

(* ================================================================== *)
(** * Facts: the audit log *)
(* ================================================================== *)

#[local] Arguments unshift_capped : simpl never.
#[local] Arguments firstn : simpl never.
#[local] Arguments Ascii.eqb : simpl never.
#[local] Arguments String.eqb : simpl never.

Ltac run_eff :=
  unfold fire in *;
  unfold bind, read, update, ret, throw, try_catch, request in *;
  simpl in *.

(** Case analysis on the host's answer to the next request. *)
Ltac case_host :=
  match goal with
  | |- context [host_accepts ?w ?h ?c] =>
      let Hhost := fresh "Hhost" in
      destruct (host_accepts w h c) eqn:Hhost
  end.

Section AuditLogFacts.
Context {E : RegExpEngine} {P : Platform}.

Lemma unshift_capped_firstn (e : AuditEntry) (log : list AuditEntry) :
  unshift_capped e log = firstn 1000 (e :: log).
Proof.
  unfold unshift_capped.
  destruct (1000 <? List.length (e :: log)) eqn:Hlen; [reflexivity|].
  apply Nat.ltb_ge in Hlen.
  symmetry. apply firstn_all2. exact Hlen.
Qed.

Lemma unshift_capped_length (e : AuditEntry) (log : list AuditEntry) :
  List.length (unshift_capped e log) <= 1000.
Proof. rewrite unshift_capped_firstn. apply firstn_le_length. Qed.

Lemma unshift_capped_head (e : AuditEntry) (log : list AuditEntry) :
  exists kept, unshift_capped e log = e :: kept /\ kept = firstn 999 log.
Proof.
  rewrite unshift_capped_firstn.
  change 1000 with (S 999). rewrite firstn_cons. eauto.
Qed.

Lemma unshift_capped_split (e : AuditEntry) (log : list AuditEntry) :
  e :: log = unshift_capped e log ++ skipn 1000 (e :: log).
Proof.
  rewrite unshift_capped_firstn. symmetry. apply firstn_skipn.
Qed.

Lemma logAudit_auditLog (action : AuditDetails) (w : World) :
  auditLog (snd (logAudit action w))
  = unshift_capped {| timestamp := now w; details := action |} (auditLog w).
Proof.
  unfold logAudit. run_eff.
  case_host; reflexivity.
Qed.

Lemma logCookieChange_auditLog (changeInfo : ChangeInfo) (w : World) :
  auditLog (snd (logCookieChange changeInfo w))
  = unshift_capped (appended_entry w (by_logCookieChange changeInfo)) (auditLog w).
Proof.
  unfold logCookieChange. run_eff.
  case_host; reflexivity.
Qed.

Lemma append_auditLog (w : World) (a : Append) :
  auditLog (append w a) = unshift_capped (appended_entry w a) (auditLog w).
Proof.
  destruct a; simpl.
  - apply logAudit_auditLog.
  - apply logCookieChange_auditLog.
Qed.

Lemma appends_bounded (appends : list Append) (w : World) :
  List.length (auditLog w) <= 1000 ->
  List.length (auditLog (fold_left append appends w)) <= 1000.
Proof.
  revert w. induction appends as [|a rest IH]; intros w Hw; simpl.
  - exact Hw.
  - apply IH. rewrite append_auditLog. apply unshift_capped_length.
Qed.

(** C8.  Starting from a log of at most 1000 entries, the log has at most
    1000 entries after any sequence of appends (by [logAudit] or by
    [logCookieChange]).  Each further append puts its entry at index 0,
    and the log it leaves is the previous log with the new entry in front,
    cut after its leading entries: what is dropped is the tail (the oldest
    entries), as many as exceed the cap, and the entries kept are in the
    order they had. *)
Theorem auditLog_capped_newest_first (w : World) (appends : list Append) :
  List.length (auditLog w) <= 1000 ->
  let w1 := fold_left append appends w in
  List.length (auditLog w1) <= 1000
  /\ forall a : Append,
       let w2 := append w1 a in
       List.length (auditLog w2) <= 1000
       /\ nth_error (auditLog w2) 0 = Some (appended_entry w1 a)
       /\ exists dropped,
            appended_entry w1 a :: auditLog w1 = auditLog w2 ++ dropped
            /\ List.length dropped = List.length (auditLog w1) + 1 - 1000.
Proof.
  intros Hw w1.
  assert (Hw1 : List.length (auditLog w1) <= 1000) by (apply appends_bounded; exact Hw).
  split; [exact Hw1|].
  intros a w2. unfold w2. rewrite append_auditLog.
  split; [apply unshift_capped_length|].
  split.
  - destruct (unshift_capped_head (appended_entry w1 a) (auditLog w1))
      as [kept [-> _]]. reflexivity.
  - exists (skipn 1000 (appended_entry w1 a :: auditLog w1)). split.
    + apply unshift_capped_split.
    + rewrite length_skipn. simpl List.length. lia.
Qed.

End AuditLogFacts.

(** The bound holds on a fresh engine after two appends. *)
Lemma auditLog_capped_newest_first_witness :
  List.length
    (auditLog
       (fold_left (@append list_pattern_engine demo_platform)
          [by_logAudit (BLACKLIST_DELETED "sid" "x.ads.example.com" "*.ads.example.com");
           by_logCookieChange
             {| cookie := session_cookie "example.com" "sid" "abc";
                removed := false; cause := "explicit"%string |}]
          (fresh_world 0))) <= 1000.
Proof.
  refine (proj1 (@auditLog_capped_newest_first list_pattern_engine demo_platform
                   (fresh_world 0) _ _)).
  simpl. lia.
Defined.

(* ================================================================== *)
(** * Facts: the regular-expression engine *)
(* ================================================================== *)

Section RegexFacts.
Variable ci : bool.
Local Open Scope string_scope.

Lemma append_empty (s1 s2 : string) : s1 ++ s2 = "" -> s1 = "" /\ s2 = "".
Proof. destruct s1; simpl; [auto | discriminate]. Qed.

Lemma append_nil_r (s : string) : s ++ "" = s.
Proof. induction s; simpl; congruence. Qed.


Lemma absent_None (o : option ascii) : absent o = true <-> o = None.
Proof. destruct o; simpl; split; congruence. Qed.

Lemma nullable_Matches (r : regex) (p n : option ascii) :
  nullable p n r = true <-> Matches ci p r "" n.
Proof.
  split.
  - induction r; simpl; intros Hn; try discriminate.
    + constructor.
    + apply absent_None in Hn. subst. constructor.
    + apply absent_None in Hn. subst. constructor.
    + constructor. apply Bool.eqb_prop. exact Hn.
    + apply andb_true_iff in Hn as [H1 H2].
      change "" with ("" ++ ""). constructor; simpl; auto.
    + apply orb_true_iff in Hn as [H1 | H2];
        [apply MAltL | apply MAltR]; auto.
    + constructor.
  - revert p n. induction r; intros p n Hm; simpl; inversion Hm; subst; auto.
    + match goal with H : xorb _ _ = _ |- _ => rewrite H end.
      apply Bool.eqb_reflx.
    + match goal with H : _ ++ _ = "" |- _ => apply append_empty in H as [-> ->] end.
      simpl in *. rewrite IHr1, IHr2; auto.
    + rewrite IHr1; auto.
    + rewrite IHr2; auto using orb_true_r.
Qed.

Lemma Matches_Star_cons (r : regex) (a : ascii) (s : string) (p n : option ascii) :
  Matches ci p (Star r) (String a s) n ->
  exists s1 s2,
    s = s1 ++ s2
    /\ Matches ci p r (String a s1) (before s2 n)
    /\ Matches ci (after p (String a s1)) (Star r) s2 n.
Proof.
  intros Hm.
  remember (Star r) as r' eqn:Hr. remember (String a s) as s' eqn:Hs.
  revert s Hs.
  induction Hm; intros t Ht; try discriminate.
  inversion Hr; subst r0.
  destruct s1 as [|b s1']; simpl in Ht.
  - simpl in *. apply IHHm2; auto.
  - inversion Ht; subst. exists s1', s2. auto.
Qed.

Lemma deriv_sound (r : regex) (a : ascii) (s : string) (p n : option ascii) :
  Matches ci (Some a) (deriv ci p a r) s n -> Matches ci p r (String a s) n.
Proof.
  revert s n. induction r; simpl; intros s n Hm; try solve [inversion Hm].
  - destruct (char_match ci c a) eqn:Hc; inversion Hm; subst.
    constructor; exact Hc.
  - destruct (line_terminator a) eqn:Hl; inversion Hm; subst.
    constructor; exact Hl.
  - destruct (class_match ci negated ranges a) eqn:Hc; inversion Hm; subst.
    constructor; exact Hc.
  - destruct (nullable p (Some a) r1) eqn:Hn.
    + inversion Hm; subst.
      * match goal with H : Matches ci _ (Cat _ _) _ _ |- _ => inversion H; subst end.
        change (String a (s1 ++ s2)) with (String a s1 ++ s2).
        constructor; auto.
      * change (String a s) with ("" ++ String a s).
        constructor; [apply nullable_Matches; exact Hn | simpl; auto].
    + inversion Hm; subst.
      change (String a (s1 ++ s2)) with (String a s1 ++ s2).
      constructor; auto.
  - inversion Hm; subst; [apply MAltL | apply MAltR]; auto.
  - inversion Hm; subst.
    change (String a (s1 ++ s2)) with (String a s1 ++ s2).
    constructor; auto.
Qed.

Lemma deriv_complete (r : regex) (a : ascii) (s : string) (p n : option ascii) :
  Matches ci p r (String a s) n -> Matches ci (Some a) (deriv ci p a r) s n.
Proof.
  revert s n. induction r; simpl; intros s n Hm; try solve [inversion Hm].
  - inversion Hm; subst.
    match goal with H : char_match _ _ _ = true |- _ => rewrite H end.
    constructor.
  - inversion Hm; subst.
    match goal with H : line_terminator _ = false |- _ => rewrite H end.
    constructor.
  - inversion Hm; subst.
    match goal with H : class_match _ _ _ _ = true |- _ => rewrite H end.
    constructor.
  - inversion Hm; subst.
    match goal with
    | Heq : ?s1 ++ ?s2 = String _ _, H1 : Matches ci _ r1 ?s1 _ |- _ =>
        destruct s1 as [|b s1']; simpl in Heq;
        [ subst s2; simpl in *;
          assert (Hn : nullable p (Some a) r1 = true)
            by (apply nullable_Matches; exact H1);
          rewrite Hn; apply MAltR; auto
        | inversion Heq; subst;
          destruct (nullable p (Some a) r1); [apply MAltL|]; constructor; auto ]
    end.
  - inversion Hm; subst; [apply MAltL | apply MAltR]; auto.
  - apply Matches_Star_cons in Hm as (s1 & s2 & -> & H1 & H2).
    constructor; auto.
Qed.

Lemma match_here_spec (s : string) (r : regex) (p : option ascii) :
  match_here ci p r s = true <->
  exists s1 s2, s = s1 ++ s2 /\ Matches ci p r s1 (before s2 None).
Proof.
  revert r p. induction s as [|a rest IH]; intros r p; simpl.
  - destruct (nullable p None r) eqn:Hn.
    + split; [intros _ | reflexivity].
      exists "", "". split; [reflexivity | apply nullable_Matches; exact Hn].
    + split; [discriminate|].
      intros (s1 & s2 & Heq & Hm). symmetry in Heq.
      apply append_empty in Heq as [-> ->].
      apply nullable_Matches in Hm. simpl in Hm. congruence.
  - destruct (nullable p (Some a) r) eqn:Hn.
    + split; [intros _ | reflexivity].
      exists "", (String a rest). split; [reflexivity | apply nullable_Matches; exact Hn].
    + rewrite IH. split.
      * intros (s1 & s2 & -> & Hm).
        exists (String a s1), s2. split; [reflexivity | apply deriv_sound; exact Hm].
      * intros (s1 & s2 & Heq & Hm).
        destruct s1 as [|b s1'].
        -- simpl in Heq. subst s2. apply nullable_Matches in Hm. simpl in Hm. congruence.
        -- simpl in Heq. inversion Heq; subst.
           exists s1', s2. split; [reflexivity | apply deriv_complete; exact Hm].
Qed.

Lemma search_nil (r : regex) (p : option ascii) :
  search ci p r "" = match_here ci p r "" || false.
Proof. reflexivity. Qed.

Lemma search_cons (r : regex) (a : ascii) (rest : string) (p : option ascii) :
  search ci p r (String a rest)
  = match_here ci p r (String a rest) || search ci (Some a) r rest.
Proof. reflexivity. Qed.

(** [test] searches: it answers [true] exactly when the expression matches at
    some place of the subject. *)
Lemma search_spec (s : string) (r : regex) (p : option ascii) :
  search ci p r s = true <->
  exists pre mid post,
    s = pre ++ mid ++ post /\ Matches ci (after p pre) r mid (before post None).
Proof.
  revert p. induction s as [|a rest IH]; intros p.
  - rewrite search_nil, orb_false_r, match_here_spec. split.
    + intros (s1 & s2 & Heq & Hm). exists "", s1, s2. auto.
    + intros (pre & mid & post & Heq & Hm).
      symmetry in Heq. apply append_empty in Heq as [-> Heq].
      exists mid, post. auto.
  - rewrite search_cons, orb_true_iff, IH, match_here_spec. split.
    + intros [(s1 & s2 & Heq & Hm) | (pre & mid & post & -> & Hm)].
      * exists "", s1, s2. auto.
      * exists (String a pre), mid, post. auto.
    + intros (pre & mid & post & Heq & Hm).
      destruct pre as [|b pre'].
      * left. exists mid, post. auto.
      * right. simpl in Heq. inversion Heq; subst.
        exists pre', mid, post. auto.
Qed.


End RegexFacts.

(* ================================================================== *)
(** * Facts: list patterns *)
(* ================================================================== *)

Section ListPatternFacts.
Local Open Scope string_scope.




Lemma startsWith_empty (s : string) : startsWith s "" = true.
Proof. destruct s; reflexivity. Qed.


(** A character that is no syntax character other than [.] and [*]. *)
Lemma ordinary_character (a : ascii) :
  other_syntax_character a = false ->
  char_is a "^" = false /\ char_is a "$" = false /\ char_is a "\" = false
  /\ char_is a "+" = false /\ char_is a "?" = false /\ char_is a "(" = false
  /\ char_is a ")" = false /\ char_is a "[" = false /\ char_is a "]" = false
  /\ char_is a "{" = false /\ char_is a "}" = false /\ char_is a "|" = false.
Proof.
  unfold other_syntax_character, char_is. simpl existsb.
  rewrite !orb_false_iff. tauto.
Qed.

(** The source of a list pattern does not start with a quantifier. *)
Lemma replace_star_opens_no_quantifier (p : string) :
  list_pattern p = true ->
  QuantifierPrefix (replace_star p) = None
  /\ lazy_mark (replace_star p) = replace_star p.
Proof.
  destruct p as [|a p]; intros Hp; [split; reflexivity|].
  simpl in Hp. apply andb_true_iff in Hp as [Ha _].
  unfold list_pattern_char in Ha. apply negb_true_iff in Ha.
  apply ordinary_character in Ha
    as (_ & _ & _ & Hplus & Hopt & _ & _ & _ & _ & Hbrace & _).
  simpl replace_star. destruct (Ascii.eqb a "*") eqn:Hstar.
  - split; reflexivity.
  - unfold QuantifierPrefix, lazy_mark.
    change (char_is a "*") with (Ascii.eqb a "*").
    rewrite Hstar, Hplus, Hopt, Hbrace. split; reflexivity.
Qed.

Lemma Term_ordinary (fuel : nat) (a : ascii) (rest : string) :
  other_syntax_character a = false -> Ascii.eqb a "*" = false ->
  QuantifierPrefix rest = None ->
  Term (S fuel) (String a rest) = Got (atom_of a) rest.
Proof.
  intros Ha Hstar Hq.
  apply ordinary_character in Ha
    as (H1 & H2 & H3 & H4 & H5 & H6 & H7 & H8 & H9 & H10 & H11 & H12).
  cbn [Term]. unfold Assertion, group_start. rewrite H1, H2, H3, H6.
  unfold Atom, atom_of.
  change (char_is a "*") with (Ascii.eqb a "*").
  change (char_is a ".") with (Ascii.eqb a ".").
  rewrite Hstar, H4, H5, H10, H8, H3. simpl orb. cbv iota.
  destruct (Ascii.eqb a "."); simpl; rewrite Hq; reflexivity.
Qed.

Lemma Term_any_run (fuel : nat) (rest : string) :
  Term (S fuel) (String "." (String "*" rest)) = Got (Star Dot) (lazy_mark rest).
Proof. reflexivity. Qed.

Lemma Alternative_step (fuel : nat) (a : ascii) (rest : string) :
  Alternative (S fuel) (String a rest)
  = if char_is a "|" || char_is a ")" then Got Eps (String a rest)
    else match Term fuel (String a rest) with
         | Got t rest1 =>
             match Alternative fuel rest1 with
             | Got r rest2 => Got (Cat t r) rest2
             | other => other
             end
         | other => other
         end.
Proof. reflexivity. Qed.

Lemma Disjunction_step (fuel : nat) (s : string) :
  Disjunction (S fuel) s
  = match Alternative fuel s with
    | Got r rest =>
        match rest with
        | String a rest' =>
            if char_is a "|" then
              match Disjunction fuel rest' with
              | Got r' rest'' => Got (Alt r r') rest''
              | other => other
              end
            else Got r rest
        | EmptyString => Got r rest
        end
    | other => other
    end.
Proof. reflexivity. Qed.

Lemma Alternative_glob (p : string) (fuel : nat) :
  list_pattern p = true ->
  String.length (replace_star p) < fuel ->
  Alternative fuel (replace_star p) = Got (glob p) "".
Proof.
  revert fuel. induction p as [|a p IH]; intros fuel Hp Hfuel.
  - destruct fuel as [|fuel]; [simpl in Hfuel; lia | reflexivity].
  - simpl in Hp. apply andb_true_iff in Hp as [Ha Hp].
    unfold list_pattern_char in Ha. apply negb_true_iff in Ha.
    destruct (replace_star_opens_no_quantifier p Hp) as [Hq Hlazy].
    simpl replace_star in *. simpl glob.
    destruct (Ascii.eqb a "*") eqn:Hstar.
    + simpl in Hfuel.
      destruct fuel as [|[|fuel]]; try lia.
      rewrite Alternative_step.
      change (char_is "." "|" || char_is "." ")") with false.
      cbv iota. rewrite Term_any_run, Hlazy.
      rewrite IH by (auto; lia). reflexivity.
    + simpl in Hfuel.
      destruct fuel as [|[|fuel]]; try lia.
      rewrite Alternative_step.
      pose proof (ordinary_character a Ha)
        as (_ & _ & _ & _ & _ & _ & Hclose & _ & _ & _ & _ & Hbar).
      rewrite Hbar, Hclose. simpl orb. cbv iota.
      rewrite Term_ordinary by assumption.
      rewrite IH by (auto; lia). reflexivity.
Qed.

(** A pattern of ordinary characters, [.] and [*] compiles, to the
    expression that reads [*] as a wildcard. *)
Lemma regex_compile_glob (p : string) :
  list_pattern p = true -> regex_compile (replace_star p) = Compiled (glob p).
Proof.
  intros Hp. unfold regex_compile.
  replace (3 * String.length (replace_star p) + 3)
    with (S (3 * String.length (replace_star p) + 2)) by lia.
  rewrite Disjunction_step.
  rewrite Alternative_glob by (auto; lia). reflexivity.
Qed.

Lemma RegExp_new_list_pattern (p : string) :
  list_pattern p = true ->
  @RegExp_new list_pattern_engine (replace_star p)
  = Some {| body := glob p; ignoreCase := false |}.
Proof.
  intros Hp. simpl. rewrite regex_compile_glob; auto.
Qed.








End ListPatternFacts.



(* ================================================================== *)
(** * Facts: the blacklist *)
(* ================================================================== *)

Section BlacklistFacts.
Context {E : RegExpEngine} {P : Platform}.

Lemma logAudit_run (action : AuditDetails) (w : World) :
  logAudit action w
  = (Normal tt,
     let log := unshift_capped {| timestamp := now w; details := action |}
                  (auditLog w) in
     set_calls (set_auditLog w log)
       (storage_set [item_auditLog (firstn 1000 log)] :: calls w)).
Proof. unfold logAudit. run_eff. case_host; reflexivity. Qed.

Lemma logCookieChange_run (changeInfo : ChangeInfo) (w : World) :
  logCookieChange changeInfo w
  = (Normal tt,
     let log := unshift_capped (appended_entry w (by_logCookieChange changeInfo))
                  (auditLog w) in
     set_calls (set_auditLog w log) (storage_set [item_auditLog log] :: calls w)).
Proof. unfold logCookieChange. run_eff. case_host; reflexivity. Qed.

(** A pattern that does not match is passed over and leaves no trace. *)
Lemma check_blacklist_skip (c : Cookie) (p : string) (rest : list string) (w : World) :
  pattern_matches p (domain c) = false ->
  check_blacklist c (p :: rest) w = check_blacklist c rest w.
Proof.
  unfold pattern_matches. intros Hp. simpl. run_eff.
  destruct (RegExp_new (replace_star p)) as [regex|]; [|reflexivity].
  rewrite Hp. reflexivity.
Qed.

Lemma check_blacklist_skip_all (c : Cookie) (before rest : list string) (w : World) :
  (forall p, In p before -> pattern_matches p (domain c) = false) ->
  check_blacklist c (before ++ rest) w = check_blacklist c rest w.
Proof.
  induction before as [|p before IH]; intros Hnone; [reflexivity|].
  simpl app. rewrite check_blacklist_skip by (apply Hnone; left; reflexivity).
  apply IH. intros q Hq. apply Hnone. right. exact Hq.
Qed.

(** The first pattern that matches has the cookie removed and the removal
    logged, and ends the pass. *)
Lemma check_blacklist_hit (c : Cookie) (p : string) (rest : list string) (w : World) :
  pattern_matches p (domain c) = true ->
  host_accepts w (calls w) (cookies_remove (cookie_url c) (name c)) = true ->
  check_blacklist c (p :: rest) w
  = (Normal (Some false),
     snd (logAudit (BLACKLIST_DELETED (name c) (domain c) p)
            (set_calls w (cookies_remove (cookie_url c) (name c) :: calls w)))).
Proof.
  unfold pattern_matches. intros Hp Hhost.
  rewrite logAudit_run. simpl. run_eff.
  destruct (RegExp_new (replace_star p)) as [regex|]; [|discriminate].
  rewrite Hp, Hhost.
  rewrite logAudit_run. reflexivity.
Qed.

(** A removal that the host rejects is swallowed: the pass goes on to the
    next pattern, and nothing is logged. *)
Lemma check_blacklist_rejected (c : Cookie) (p : string) (rest : list string)
    (w : World) :
  pattern_matches p (domain c) = true ->
  host_accepts w (calls w) (cookies_remove (cookie_url c) (name c)) = false ->
  check_blacklist c (p :: rest) w
  = check_blacklist c rest
      (set_calls w (cookies_remove (cookie_url c) (name c) :: calls w)).
Proof.
  unfold pattern_matches. intros Hp Hhost. simpl. run_eff.
  destruct (RegExp_new (replace_star p)) as [regex|]; [|discriminate].
  rewrite Hp, Hhost. reflexivity.
Qed.

(** C1, as the code has it.  Let the domain of the changed cookie match a
    blacklist pattern, and let [pattern] be the first one in stored order
    that does.  [handleCookieChange] asks the host to remove the cookie at
    the URL made of the scheme ([https] for a secure cookie), the domain and
    the path.  (1) When the host carries out the removal, the handler
    completes having put one [BLACKLIST_DELETED] entry with that pattern on
    top of the entry that records the change, made no other request than the
    removal and the two writes of the log (no [cookies_set], no envelope
    stored), drawn no random bytes, and left rules and lists as they were.
    The whitelist plays no part.  (2) When the host rejects the removal,
    nothing is logged for the pattern and the handler goes on as if the
    blacklist were what follows the pattern: the later patterns, then the
    whitelist, the rules and the encryption. *)
Theorem blacklisted_cookie_is_deleted
    (w : World) (changeInfo : ChangeInfo)
    (before after : list string) (pattern : string) :
  let c := cookie changeInfo in
  let url :=
    ("http" ++ (if secure c then "s" else "") ++ "://" ++ domain c ++ path c)%string in
  let removal := cookies_remove url (name c) in
  let w1 := snd (logCookieChange changeInfo w) in
  let w' := snd (handleCookieChange changeInfo w) in
  blacklist w = before ++ pattern :: after ->
  (forall p, In p before -> pattern_matches p (domain c) = false) ->
  pattern_matches pattern (domain c) = true ->
  (host_accepts w1 (calls w1) removal = true ->
   fst (handleCookieChange changeInfo w) = Normal tt
   /\ auditLog w'
      = unshift_capped
          {| timestamp := now w;
             details := BLACKLIST_DELETED (name c) (domain c) pattern |}
          (unshift_capped (appended_entry w (by_logCookieChange changeInfo))
             (auditLog w))
   /\ calls w'
      = storage_set [item_auditLog (firstn 1000 (auditLog w'))]
        :: removal
        :: storage_set [item_auditLog (auditLog w1)]
        :: calls w
   /\ drawn w' = drawn w
   /\ siteRules w' = siteRules w
   /\ whitelist w' = whitelist w
   /\ blacklist w' = blacklist w)
  /\ (host_accepts w1 (calls w1) removal = false ->
      handleCookieChange changeInfo w
      = bind (check_blacklist c after)
          (fun listResult =>
             match listResult with
             | Some false => ret tt
             | _ => bind (applyRules c) (fun _ => applyEncryption c)
             end)
          (set_calls w1 (removal :: calls w1))).
Proof.
  intros c url removal w1 w' Hbl Hbefore Hpattern.
  assert (Hstart : handleCookieChange changeInfo w
                   = bind (check_blacklist c (pattern :: after))
                       (fun listResult =>
                          match listResult with
                          | Some false => ret tt
                          | _ => bind (applyRules c) (fun _ => applyEncryption c)
                          end) w1).
  { unfold handleCookieChange, bind at 1.
    unfold w1. rewrite logCookieChange_run. simpl snd.
    unfold applyWhitelistBlacklist.
    unfold bind at 1. unfold bind at 1, read at 1.
    simpl blacklist. rewrite Hbl.
    rewrite check_blacklist_skip_all by exact Hbefore.
    reflexivity. }
  split.
  - intros Hhost.
    assert (Hrun : handleCookieChange changeInfo w
                   = (Normal tt,
                      snd (logAudit (BLACKLIST_DELETED (name c) (domain c) pattern)
                             (set_calls w1 (removal :: calls w1))))).
    { rewrite Hstart. unfold bind at 1.
      rewrite check_blacklist_hit by assumption. reflexivity. }
    unfold w'. rewrite Hrun. simpl fst. simpl snd.
    rewrite logAudit_run. unfold w1. rewrite logCookieChange_run.
    simpl. repeat split; reflexivity.
  - intros Hhost. rewrite Hstart. unfold bind at 1.
    rewrite check_blacklist_rejected by assumption. reflexivity.
Qed.

End BlacklistFacts.

(** The scenario of the specification: the blacklist holds
    [*.ads.example.com] and a cookie of [x.ads.example.com] changes (the
    domain is on the whitelist as well). *)
Lemma blacklisted_cookie_is_deleted_witness :
  let w' :=
    snd (handleCookieChange
           (cookie_set_event (session_cookie "x.ads.example.com" "sid" "abc"))
           ads_world) in
  map details (auditLog w')
  = [ BLACKLIST_DELETED "sid" "x.ads.example.com" "*.ads.example.com";
      COOKIE_CHANGE "sid" "x.ads.example.com" "explicit" "abc" ]
  /\ nth_error (calls w') 1
     = Some (cookies_remove "https://x.ads.example.com/" "sid").
Proof.
  assert (H1 : blacklist ads_world = [] ++ "*.ads.example.com"%string :: [])
    by reflexivity.
  assert (H2 : forall p, In p (@nil string) ->
                 @pattern_matches list_pattern_engine p "x.ads.example.com" = false)
    by (intros p []).
  assert (H3 : @pattern_matches list_pattern_engine
                 "*.ads.example.com" "x.ads.example.com" = true)
    by reflexivity.
  destruct (proj1 (@blacklisted_cookie_is_deleted list_pattern_engine demo_platform
                     ads_world
                     (cookie_set_event
                        (session_cookie "x.ads.example.com" "sid" "abc"))
                     [] [] "*.ads.example.com" H1 H2 H3) eq_refl)
    as (_ & Hlog & Hcalls & _).
  cbv zeta. rewrite Hlog, Hcalls. split; reflexivity.
Defined.

(* ================================================================== *)
(** * Facts: rule resolution *)
(* ================================================================== *)

Section ResolutionFacts.
Context {E : RegExpEngine} {P : Platform}.

Lemma find_rule_first_hit (entries : list (string * Rule)) (d : string)
    (matchedRule : option Rule) :
  find_rule entries d matchedRule
  = rule_of (find (rule_hits d) entries) matchedRule.
Proof.
  induction entries as [|[k r] rest IH]; [reflexivity|].
  simpl. unfold rule_hits at 1. simpl.
  destruct (String.eqb k "*"); simpl; [exact IH|].
  destruct (pattern_test r d); simpl; [reflexivity|].
  destruct (includes d k); simpl; [reflexivity | exact IH].
Qed.

Lemma find_app_hit (A : Type) (f : A -> bool) (l1 l2 : list A) :
  existsb f l1 = true -> find f (l1 ++ l2) = find f l1.
Proof.
  induction l1 as [|x l1 IH]; simpl; [discriminate|].
  destruct (f x); simpl; auto.
Qed.

Lemma find_skip (A : Type) (f : A -> bool) (l1 l2 : list A) :
  (forall x, In x l1 -> f x = false) -> find f (l1 ++ l2) = find f l2.
Proof.
  induction l1 as [|x l1 IH]; intros Hnone; simpl; [reflexivity|].
  rewrite (Hnone x) by (left; reflexivity).
  apply IH. intros y Hy. apply Hnone. right. exact Hy.
Qed.

(** C2, as the code has it.  [applyRules] scans the non-default rules once,
    in the order [Object.entries] lists them, and resolves to the first
    whose pattern matches the domain or whose key is a substring of it; it
    resolves to the value under ['*'] only when no such rule exists.  So a
    rule that applies by its key wins over every rule listed after it, also
    over one whose pattern matches; and a rule added under a new key that is
    not an array index is listed last, so it never displaces a rule that
    already applied. *)
Theorem resolve_first_rule_that_applies (rules : JsObject Rule) (d : string) :
  resolve rules d = rule_of (find (rule_hits d) rules) (own_get rules "*")
  /\ (forall before after k r,
         rules = before ++ (k, r) :: after ->
         (forall entry, In entry before -> rule_hits d entry = false) ->
         k <> "*"%string ->
         includes d k = true ->
         resolve rules d = Some r)
  /\ (forall k r,
         existsb (rule_hits d) rules = true ->
         own_get rules k = None -> array_index k = None ->
         k <> "__proto__"%string ->
         resolve (obj_set rules k r) d = resolve rules d).
Proof.
  split; [apply find_rule_first_hit|].
  split.
  - intros before after k r -> Hbefore Hk Hkey.
    unfold resolve. rewrite find_rule_first_hit.
    rewrite find_skip by exact Hbefore.
    simpl. unfold rule_hits at 1. simpl.
    apply String.eqb_neq in Hk. rewrite Hk, Hkey, orb_true_r. reflexivity.
  - intros k r Hhit Hfresh Hindex Hproto.
    unfold obj_set. apply String.eqb_neq in Hproto.
    rewrite Hproto, Hfresh, Hindex.
    unfold resolve. rewrite !find_rule_first_hit.
    rewrite find_app_hit by exact Hhit.
    destruct (find (rule_hits d) rules) as [entry|] eqn:Hfind; [reflexivity|].
    apply existsb_exists in Hhit as (x & Hin & Hx).
    pose proof (find_none _ _ Hfind x Hin). congruence.
Qed.

End ResolutionFacts.

(** With the built-in rules and the domain [socialamazon.com]: the key of
    the [social] rule occurs in the domain, the pattern of the [shopping]
    rule, which is listed later, matches it; the tiers of the specification
    give the [shopping] rule, the code resolves to the [social] rule. *)
Lemma resolve_is_not_tiered :
  includes "socialamazon.com" "social" = true
  /\ option_map (fun r => pattern_test r "socialamazon.com")
       (own_get getDefaultRules "shopping") = Some true
  /\ resolve_by_tiers getDefaultRules "socialamazon.com"
     = own_get getDefaultRules "shopping"
  /\ resolve getDefaultRules "socialamazon.com"
     = own_get getDefaultRules "social"
  /\ resolve getDefaultRules "socialamazon.com"
     <> resolve_by_tiers getDefaultRules "socialamazon.com".
Proof.
  split; [reflexivity|].
  split; [reflexivity|].
  assert (Htiers : resolve_by_tiers getDefaultRules "socialamazon.com"
                   = own_get getDefaultRules "shopping") by reflexivity.
  assert (Hcode : resolve getDefaultRules "socialamazon.com"
                  = own_get getDefaultRules "social") by reflexivity.
  split; [exact Htiers|]. split; [exact Hcode|].
  rewrite Htiers, Hcode. intros H.
  apply (f_equal (option_map (@expiration list_pattern_engine))) in H.
  discriminate H.
Qed.

(* ================================================================== *)
(** * Facts: objects used as maps *)
(* ================================================================== *)

Section ObjectFacts.
Variable A : Type.
Implicit Types (o : JsObject A) (k : string) (v : A).

Lemma own_get_None o k : own_get o k = None <-> ~ In k (keys o).
Proof.
  induction o as [|[k' v'] o IH]; simpl.
  - tauto.
  - destruct (String.eqb k' k) eqn:Hk.
    + apply String.eqb_eq in Hk. split; [discriminate | tauto].
    + apply String.eqb_neq in Hk. rewrite IH. tauto.
Qed.

Lemma own_get_replace_own o k v k' :
  own_get (replace_own o k v) k'
  = if String.eqb k k' then option_map (fun _ => v) (own_get o k')
    else own_get o k'.
Proof.
  induction o as [|[k0 v0] o IH]; simpl.
  - destruct (String.eqb k k'); reflexivity.
  - destruct (String.eqb k0 k) eqn:H0; simpl.
    + apply String.eqb_eq in H0. subst k0.
      destruct (String.eqb k k'); reflexivity.
    + rewrite IH. destruct (String.eqb k0 k') eqn:H1; [|reflexivity].
      apply String.eqb_eq in H1. subst k0.
      rewrite String.eqb_sym, H0. reflexivity.
Qed.

Lemma own_get_insert_index n o k v k' :
  k <> k' -> own_get (insert_index n k v o) k' = own_get o k'.
Proof.
  intros Hk. apply String.eqb_neq in Hk.
  induction o as [|[k0 v0] o IH]; simpl.
  - rewrite Hk. reflexivity.
  - destruct (array_index k0) as [m|]; [destruct (m <? n)%N|]; simpl;
      rewrite ?IH, ?Hk; reflexivity.
Qed.

Lemma own_get_app o l k :
  own_get (o ++ l) k
  = match own_get o k with Some x => Some x | None => own_get l k end.
Proof.
  induction o as [|[k0 v0] o IH]; simpl; [reflexivity|].
  destruct (String.eqb k0 k); [reflexivity | exact IH].
Qed.

Lemma own_get_delete o k k' :
  k <> k' -> own_get (obj_delete o k) k' = own_get o k'.
Proof.
  intros Hk. induction o as [|[k0 v0] o IH]; simpl; [reflexivity|].
  destruct (String.eqb k0 k) eqn:H0; simpl.
  - apply String.eqb_eq in H0. subst k0.
    apply String.eqb_neq in Hk. rewrite Hk. reflexivity.
  - rewrite IH. reflexivity.
Qed.

Lemma array_index_star : array_index "*" = None.
Proof. reflexivity. Qed.

(** Assignment never removes the property under ['*']. *)
Lemma obj_set_keeps_default o k v :
  own_get o "*" <> None -> own_get (obj_set o k v) "*" <> None.
Proof.
  intros Hd. unfold obj_set.
  destruct (String.eqb k "__proto__"); [exact Hd|].
  destruct (own_get o k) eqn:Hk.
  - rewrite own_get_replace_own.
    destruct (String.eqb k "*"); [|exact Hd].
    destruct (own_get o "*"); [discriminate | contradiction].
  - destruct (array_index k) as [n|] eqn:Hi.
    + rewrite own_get_insert_index; [exact Hd|].
      intros ->. rewrite array_index_star in Hi. discriminate.
    + rewrite own_get_app. destruct (own_get o "*"); [discriminate | contradiction].
Qed.

Lemma obj_delete_keeps_default o k :
  k <> "*"%string -> own_get o "*" <> None -> own_get (obj_delete o k) "*" <> None.
Proof. intros Hk Hd. rewrite own_get_delete; assumption. Qed.

Lemma keys_replace_own o k v : keys (replace_own o k v) = keys o.
Proof.
  induction o as [|[k0 v0] o IH]; simpl; [reflexivity|].
  destruct (String.eqb k0 k); simpl; [reflexivity | rewrite IH; reflexivity].
Qed.

Lemma In_keys_insert_index n o k v x :
  In x (keys (insert_index n k v o)) <-> x = k \/ In x (keys o).
Proof.
  induction o as [|[k0 v0] o IH]; simpl.
  - intuition.
  - destruct (array_index k0) as [m|]; [destruct (m <? n)%N|]; simpl;
      rewrite ?IH; intuition.
Qed.

Lemma NoDup_insert_index n o k v :
  NoDup (keys o) -> ~ In k (keys o) -> NoDup (keys (insert_index n k v o)).
Proof.
  induction o as [|[k0 v0] o IH]; simpl; intros Hnd Hk.
  - constructor; [tauto | constructor].
  - inversion Hnd as [|? ? Hk0 Hrest]; subst.
    destruct (array_index k0) as [m|]; [destruct (m <? n)%N|]; simpl.
    + constructor.
      * rewrite In_keys_insert_index. intuition.
      * apply IH; tauto.
    + constructor; [simpl; tauto | exact Hnd].
    + constructor; [simpl; tauto | exact Hnd].
Qed.

Lemma NoDup_keys_app o k v :
  NoDup (keys o) -> ~ In k (keys o) -> NoDup (keys (o ++ [(k, v)])).
Proof.
  induction o as [|[k0 v0] o IH]; simpl; intros Hnd Hk.
  - constructor; [tauto | constructor].
  - inversion Hnd as [|? ? Hk0 Hrest]; subst.
    constructor.
    + unfold keys. rewrite map_app, in_app_iff. simpl. intuition.
    + apply IH; tauto.
Qed.

Lemma In_keys_delete o k x : In x (keys (obj_delete o k)) -> In x (keys o).
Proof.
  induction o as [|[k0 v0] o IH]; simpl; [tauto|].
  destruct (String.eqb k0 k); simpl; intuition.
Qed.

Lemma NoDup_obj_delete o k : NoDup (keys o) -> NoDup (keys (obj_delete o k)).
Proof.
  induction o as [|[k0 v0] o IH]; simpl; intros Hnd; [constructor|].
  inversion Hnd as [|? ? Hk0 Hrest]; subst.
  destruct (String.eqb k0 k); simpl; [exact Hrest|].
  constructor; [|apply IH; exact Hrest].
  intros Hin. apply Hk0. eapply In_keys_delete. exact Hin.
Qed.

Lemma NoDup_obj_set o k v : NoDup (keys o) -> NoDup (keys (obj_set o k v)).
Proof.
  intros Hnd. unfold obj_set.
  destruct (String.eqb k "__proto__"); [exact Hnd|].
  destruct (own_get o k) eqn:Hk.
  - rewrite keys_replace_own. exact Hnd.
  - apply own_get_None in Hk.
    destruct (array_index k).
    + apply NoDup_insert_index; assumption.
    + apply NoDup_keys_app; assumption.
Qed.

(** An object has one property under a name it has at all. *)
Lemma one_entry_per_key o k :
  NoDup (keys o) -> own_get o k <> None ->
  List.length (filter (fun entry => String.eqb (fst entry) k) o) = 1.
Proof.
  induction o as [|[k0 v0] o IH]; simpl; intros Hnd Hk; [contradiction|].
  inversion Hnd as [|? ? Hk0 Hrest]; subst.
  destruct (String.eqb k0 k) eqn:H0; simpl.
  - apply String.eqb_eq in H0. subst k0. f_equal.
    apply length_zero_iff_nil.
    clear - Hk0. induction o as [|[k1 v1] o IH]; simpl; [reflexivity|].
    simpl in Hk0. destruct (String.eqb k1 k) eqn:H1.
    + apply String.eqb_eq in H1. tauto.
    + apply IH. tauto.
  - apply IH; assumption.
Qed.

End ObjectFacts.

(* ================================================================== *)
(** * Facts: the default rule *)
(* ================================================================== *)

Section DefaultRuleFacts.
Context {E : RegExpEngine} {P : Platform}.

Lemma keeps_ret (A : Type) (a : A) : keeps_rules (ret a).
Proof. intros w. reflexivity. Qed.

Lemma keeps_throw (A : Type) (e : JsError) : keeps_rules (@throw _ _ A e).
Proof. intros w. reflexivity. Qed.

Lemma keeps_read (A : Type) (f : World -> A) : keeps_rules (read f).
Proof. intros w. reflexivity. Qed.

Lemma keeps_request (c : HostCall) : keeps_rules (request c).
Proof. intros w. unfold request. case_host; reflexivity. Qed.

Lemma keeps_update (f : World -> World) :
  (forall w, siteRules (f w) = siteRules w) -> keeps_rules (update f).
Proof. intros Hf w. apply Hf. Qed.

Lemma keeps_bind (A B : Type) (m : Eff A) (f : A -> Eff B) :
  keeps_rules m -> (forall a, keeps_rules (f a)) -> keeps_rules (bind m f).
Proof.
  intros Hm Hf w. unfold bind. specialize (Hm w).
  destruct (m w) as [[a|e] w1]; simpl in *.
  - rewrite Hf. exact Hm.
  - exact Hm.
Qed.

Lemma keeps_try_catch (A : Type) (m handler : Eff A) :
  keeps_rules m -> keeps_rules handler -> keeps_rules (try_catch m handler).
Proof.
  intros Hm Hh w. unfold try_catch. specialize (Hm w).
  destruct (m w) as [[a|e] w1]; simpl in *.
  - exact Hm.
  - rewrite Hh. exact Hm.
Qed.

Lemma keeps_fire (c : HostCall) : keeps_rules (fire c).
Proof. apply keeps_try_catch; [apply keeps_request | apply keeps_ret]. Qed.

Lemma keeps_encrypt_in_world (enc : CookieEncryption) (v d : string) :
  keeps_rules (encrypt_in_world enc v d).
Proof. intros w. reflexivity. Qed.

(** Decompose a handler into the steps above. *)
Ltac keeps_step :=
  first
    [ apply keeps_bind; [|intros ?]
    | apply keeps_try_catch
    | apply keeps_ret
    | apply keeps_throw
    | apply keeps_read
    | apply keeps_request
    | apply keeps_fire
    | apply keeps_encrypt_in_world
    | apply keeps_update; intros ?; reflexivity
    | match goal with
      | |- keeps_rules (match ?x with _ => _ end) => destruct x
      end ].

Lemma keeps_logAudit (action : AuditDetails) : keeps_rules (logAudit action).
Proof. unfold logAudit. repeat keeps_step. Qed.

Lemma keeps_logCookieChange (changeInfo : ChangeInfo) :
  keeps_rules (logCookieChange changeInfo).
Proof. unfold logCookieChange. repeat keeps_step. Qed.

Lemma keeps_applyWhitelistRule (c : Cookie) (rule : WhitelistRule) :
  keeps_rules (applyWhitelistRule c rule).
Proof.
  unfold applyWhitelistRule.
  repeat first [apply keeps_logAudit | keeps_step].
Qed.

Lemma keeps_check_whitelist (c : Cookie) (patterns : list string) :
  keeps_rules (check_whitelist c patterns).
Proof.
  induction patterns as [|p rest IH]; simpl.
  - apply keeps_ret.
  - repeat first [exact IH | apply keeps_applyWhitelistRule | keeps_step].
Qed.

Lemma keeps_check_blacklist (c : Cookie) (patterns : list string) :
  keeps_rules (check_blacklist c patterns).
Proof.
  induction patterns as [|p rest IH]; simpl.
  - repeat first [apply keeps_check_whitelist | keeps_step].
  - repeat first [exact IH | apply keeps_logAudit | keeps_step].
Qed.

Lemma keeps_applyRules (c : Cookie) : keeps_rules (applyRules c).
Proof. unfold applyRules. repeat first [apply keeps_logAudit | keeps_step]. Qed.

Lemma keeps_applyEncryption (c : Cookie) : keeps_rules (applyEncryption c).
Proof. unfold applyEncryption. repeat first [apply keeps_logAudit | keeps_step]. Qed.

Lemma keeps_handleCookieChange (changeInfo : ChangeInfo) :
  keeps_rules (handleCookieChange changeInfo).
Proof.
  unfold handleCookieChange, applyWhitelistBlacklist.
  repeat first
    [ apply keeps_logCookieChange | apply keeps_check_blacklist
    | apply keeps_applyRules | apply keeps_applyEncryption | keeps_step ].
Qed.

(** What a message does to the rules. *)
Lemma handleMessage_siteRules (message : Message) (w : World) :
  siteRules (snd (handleMessage message w))
  = match message with
    | SAVE_RULE domain rule => obj_set (siteRules w) domain rule
    | DELETE_RULE domain => obj_delete (siteRules w) domain
    | _ => siteRules w
    end.
Proof.
  destruct message as [| |d r|d| | |listType p|listType p|v d|encryptedData];
    unfold handleMessage, persist_lists; run_eff;
    try reflexivity; try (case_host; reflexivity).
  - destruct (String.eqb listType "whitelist");
      [destruct (array_includes (whitelist w) p)
      |destruct (array_includes (blacklist w) p)];
      simpl; case_host; reflexivity.
  - destruct (String.eqb listType "whitelist"); simpl; case_host; reflexivity.
  - destruct (encryption w) as [enc|]; [|reflexivity].
    unfold encrypt_in_world.
    destruct (encryptCookie enc _ _ _ _); reflexivity.
  - destruct (encryption w) as [enc|]; [|reflexivity].
    destruct (decryptCookie enc encryptedData); reflexivity.
Qed.

(** Resolution falls back on the default rule, so it finds a rule whenever
    there is one under ['*']. *)
Lemma resolve_total (rules : JsObject Rule) (d : string) :
  own_get rules "*" <> None -> resolve rules d <> None.
Proof.
  intros Hd. unfold resolve. rewrite find_rule_first_hit.
  destruct (find (rule_hits d) rules); simpl; [discriminate | exact Hd].
Qed.

Lemma applyRules_completes (c : Cookie) (w : World) :
  resolve (siteRules w) (domain c) <> None -> fst (applyRules c w) = Normal tt.
Proof.
  intros Hr. unfold applyRules. run_eff.
  destruct (resolve (siteRules w) (domain c)) as [rule|]; [|contradiction].
  destruct (expiration rule) as [minutes|]; [|reflexivity].
  destruct (negb (minutes =? 0)%Z && negb (truthy_opt (expirationDate c)));
    [|reflexivity].
  case_host; [|reflexivity].
  rewrite logAudit_run. reflexivity.
Qed.

Lemma step_rules_ok (w : World) (op : Operation) :
  keeps_default op -> rules_ok w -> rules_ok (step w op).
Proof.
  intros Hop [Hnd Hd]. unfold rules_ok. destruct op as [changeInfo|message]; simpl.
  - rewrite keeps_handleCookieChange. auto.
  - rewrite handleMessage_siteRules.
    destruct message; auto.
    + split; [apply NoDup_obj_set | apply obj_set_keeps_default]; assumption.
    + split; [apply NoDup_obj_delete | apply obj_delete_keeps_default]; assumption.
Qed.

Lemma run_rules_ok (ops : list Operation) (w : World) :
  Forall keeps_default ops -> rules_ok w -> rules_ok (run w ops).
Proof.
  revert w. induction ops as [|op rest IH]; intros w Hops Hw; simpl.
  - exact Hw.
  - inversion Hops; subst. apply IH; [assumption|].
    apply step_rules_ok; assumption.
Qed.

End DefaultRuleFacts.

(** C3.  The default rule is not protected.  A fresh engine holds one rule
    under ['*'].  A [DELETE_RULE] message for ['*'] is answered with a
    success and removes it; from then on the rules hold no default rule, a
    domain that no other rule applies to resolves to nothing, [applyRules]
    throws a [TypeError] on every cookie of such a domain, and so does
    [handleCookieChange], which does not catch it. *)
Lemma default_rule_can_be_deleted :
  let w := fresh_world 0 in
  let w' := run w [message_received (DELETE_RULE "*")] in
  let c := session_cookie "example.org" "sid" "abc" in
  count_default (siteRules w) = 1
  /\ fst (handleMessage (DELETE_RULE "*") w) = Normal response_success
  /\ count_default (siteRules w') = 0
  /\ own_get (siteRules w') "*" = None
  /\ resolve (siteRules w') "example.org" = None
  /\ fst (applyRules c w') = Throw TypeError
  /\ fst (handleCookieChange (cookie_set_event c) w') = Throw TypeError.
Proof. repeat split; reflexivity. Qed.

(* ================================================================== *)
(** * Facts: expiration set by rules *)
(* ================================================================== *)

Section ExpirationFacts.
Context {E : RegExpEngine} {P : Platform}.

Lemma rule_expiry_within_a_second (t minutes : Z) :
  (1000 * rule_expiry t minutes <= t + minutes * 60 * 1000
   < 1000 * rule_expiry t minutes + 1000)%Z.
Proof.
  unfold rule_expiry.
  pose proof (Z.div_mod (t + minutes * 60 * 1000) 1000 ltac:(lia)) as Hdm.
  pose proof (Z.mod_pos_bound (t + minutes * 60 * 1000) 1000 ltac:(lia)) as Hb.
  lia.
Qed.

(** C4, as the code has it.  Let [rule] be the rule [applyRules] resolves
    for the cookie.  (1) If the rule's [expiration] is a number other than 0,
    the cookie's [expirationDate] is absent (or 0 or [NaN]), the clock and
    the expiration are in the range where the source computes exactly, and
    the host accepts the write, then exactly one cookie is written back, the
    given cookie with [expirationDate] set to the whole second of
    [now + expiration] minutes, and one [RULE_APPLIED] entry with the rule is
    put on the log.  (2) If the cookie carries an [expirationDate] (other
    than 0), nothing is written and nothing is logged.  (3) If the rule's
    [expiration] is absent or 0, nothing is written and nothing is logged
    either. *)
Theorem applyRules_expiration (w : World) (c : Cookie) (rule : Rule) :
  resolve (siteRules w) (domain c) = Some rule ->
  (forall minutes,
      expiration rule = Some minutes -> minutes <> 0%Z ->
      truthy_opt (expirationDate c) = false ->
      exact_expiry (now w) minutes ->
      let written :=
        with_expirationDate c (Some (Num (rule_expiry (now w) minutes))) in
      host_accepts w (calls w) (cookies_set written) = true ->
      let w' := snd (applyRules c w) in
      fst (applyRules c w) = Normal tt
      /\ (1000 * rule_expiry (now w) minutes <= now w + minutes * 60 * 1000
          < 1000 * rule_expiry (now w) minutes + 1000)%Z
      /\ auditLog w'
         = unshift_capped
             {| timestamp := now w;
                details := RULE_APPLIED (name c) (domain c) (Some minutes) rule |}
             (auditLog w)
      /\ calls w'
         = storage_set [item_auditLog (firstn 1000 (auditLog w'))]
           :: cookies_set written :: calls w)
  /\ (truthy_opt (expirationDate c) = true -> applyRules c w = (Normal tt, w))
  /\ (truthy_minutes (expiration rule) = false -> applyRules c w = (Normal tt, w)).
Proof.
  intros Hrule. split; [|split].
  - intros minutes Hexp Hmin Hnone Hexact written Hhost w'.
    assert (Hrun : applyRules c w
                   = (Normal tt,
                      snd (logAudit
                             (RULE_APPLIED (name c) (domain c) (Some minutes) rule)
                             (set_calls w (cookies_set written :: calls w))))).
    { unfold applyRules. run_eff. rewrite Hrule. simpl. rewrite Hexp, Hnone.
      apply Z.eqb_neq in Hmin. rewrite Hmin. simpl.
      fold written. rewrite Hhost.
      rewrite !logAudit_run. reflexivity. }
    unfold w'. rewrite Hrun. rewrite logAudit_run. simpl.
    split; [reflexivity|].
    split; [apply rule_expiry_within_a_second|].
    split; reflexivity.
  - intros Hset. unfold applyRules. run_eff. rewrite Hrule. simpl.
    destruct (expiration rule) as [minutes|]; [|reflexivity].
    rewrite Hset, andb_false_r. reflexivity.
  - intros Hzero. unfold applyRules. run_eff. rewrite Hrule. simpl.
    destruct (expiration rule) as [minutes|]; [|reflexivity].
    simpl in Hzero. rewrite Hzero. reflexivity.
Qed.

End ExpirationFacts.

(** A session cookie of [example.org] on a fresh engine resolves to the
    default rule of 30 minutes and is written back with the expiration
    1700001800, half an hour after 1700000000.123. *)
Lemma applyRules_expiration_witness :
  exists log,
    calls (snd (applyRules (session_cookie "example.org" "sid" "abc")
                  (fresh_world 1700000000123)))
    = [ storage_set [item_auditLog log];
        cookies_set
          (with_expirationDate (session_cookie "example.org" "sid" "abc")
             (Some (Num 1700001800))) ].
Proof.
  destruct (@applyRules_expiration list_pattern_engine demo_platform
              (fresh_world 1700000000123)
              (session_cookie "example.org" "sid" "abc")
              {| expiration := Some 30%Z; encrypt := false; pattern := None;
                 priority := Some medium; autoDelete := false |}
              eq_refl) as [Hwrite _].
  assert (Hexact : exact_expiry 1700000000123 30)
    by (unfold exact_expiry, safe_integer; lia).
  destruct (Hwrite 30%Z eq_refl ltac:(discriminate) eq_refl Hexact eq_refl)
    as (_ & _ & _ & Hcalls).
  eexists. rewrite Hcalls. reflexivity.
Defined.

(** A default rule of 0 minutes, saved from the options page: a session
    cookie is not written back and no entry is logged. *)
Lemma zero_minutes_rule_is_not_applied :
  let w :=
    run (fresh_world 1700000000123)
      [message_received (SAVE_RULE "*" (user_default_rule 0 false))] in
  let c := session_cookie "example.org" "sid" "abc" in
  expirationDate c = None
  /\ resolve (siteRules w) (domain c) = Some (user_default_rule 0 false)
  /\ applyRules c w = (Normal tt, w).
Proof. repeat split. Qed.

(* ================================================================== *)
(** * Facts: encryption by policy *)
(* ================================================================== *)

Section EncryptionPolicyFacts.
Context {E : RegExpEngine} {P : Platform}.

Lemma startsWith_append (prefix s : string) :
  startsWith (prefix ++ s) prefix = true.
Proof.
  induction prefix as [|a prefix IH]; simpl.
  - apply startsWith_empty.
  - rewrite Ascii.eqb_refl. exact IH.
Qed.

Lemma encrypted_ref_is_reference (c : Cookie) :
  startsWith (encrypted_ref c) "ENCRYPTED_REF_" = true.
Proof. unfold encrypted_ref. apply startsWith_append. Qed.

(** C7.  [applyEncryption] does nothing to a cookie whose value starts with
    [ENCRYPTED_REF_]: it completes and the world is the one it found, so no
    value is encrypted, no envelope and no cookie is written, no random
    bytes are drawn and no entry is logged.  The value [applyEncryption]
    substitutes is such a value, so running it again on the substituted
    cookie changes nothing, whatever the first run did. *)
Theorem applyEncryption_idempotent :
  (forall (w : World) (c : Cookie),
      startsWith (value c) "ENCRYPTED_REF_" = true ->
      applyEncryption c w = (Normal tt, w))
  /\ (forall (w : World) (c : Cookie),
         let substituted := with_value c (encrypted_ref c) in
         let w1 := snd (applyEncryption c w) in
         applyEncryption substituted w1 = (Normal tt, w1)
         /\ auditLog (snd (applyEncryption substituted w1)) = auditLog w1
         /\ calls (snd (applyEncryption substituted w1)) = calls w1).
Proof.
  assert (Hskip : forall (w : World) (c : Cookie),
             startsWith (value c) "ENCRYPTED_REF_" = true ->
             applyEncryption c w = (Normal tt, w)).
  { intros w c Href. unfold applyEncryption. run_eff.
    destruct (encryption w) as [enc|]; [|reflexivity].
    rewrite Href, andb_false_r. reflexivity. }
  split; [exact Hskip|].
  intros w c substituted w1.
  assert (Hagain : applyEncryption substituted w1 = (Normal tt, w1))
    by (apply Hskip; apply encrypted_ref_is_reference).
  rewrite Hagain. auto.
Qed.

(** A lookup by domain in what [chrome.storage.local.get] returned finds
    nothing, whatever the side table holds, unless the domain is the word
    [whitelistRules] or a name inherited from [Object.prototype]. *)
Lemma override_is_never_found (stored : option SideTable) (d : string) :
  d <> "whitelistRules"%string -> inherited d = false ->
  whitelistRules_lookup stored d = None.
Proof.
  intros Hd Hi. unfold whitelistRules_lookup.
  apply String.eqb_neq in Hd. rewrite Hd, Hi. reflexivity.
Qed.

End EncryptionPolicyFacts.

(** C9 on a concrete input.  The whitelist holds [good.example.com], the
    side table stored under [whitelistRules] has an override for
    [good.example.com] (60 minutes, encrypted), and a session cookie of that
    domain changes.  The filter answers [true] (allowed), yet the only
    request it makes is the read of the side table: the override is looked
    up in the object that wraps the table, is not found, and the cookie is
    neither given an expiration nor encrypted.  Applying the same override
    with [applyWhitelistRule] would have stored an envelope and rewritten
    the cookie. *)
Lemma whitelist_override_is_not_applied :
  own_get [("good.example.com"%string,
            {| wl_expiration := Number (Num 60); wl_encrypt := Bool true |})]
    "good.example.com"
  = Some {| wl_expiration := Number (Num 60); wl_encrypt := Bool true |}
  /\ applyWhitelistBlacklist (session_cookie "good.example.com" "sid" "abc")
       override_world
     = (Normal (Some true),
        set_calls override_world [storage_get ["whitelistRules"%string]])
  /\ map (fun call => match call with cookies_set c => Some c | _ => None end)
       (calls (snd (applyWhitelistRule
                      (session_cookie "good.example.com" "sid" "abc")
                      {| wl_expiration := Number (Num 60);
                         wl_encrypt := Bool true |}
                      override_world)))
     = [ Some {| name := "sid"; domain := "good.example.com"; path := "/";
                 value := "ENCRYPTED_REF_good.example.com_sid";
                 secure := true; httpOnly := false;
                 expirationDate := Some (Num 1700003600) |};
         None; None ].
Proof. repeat split; vm_compute; reflexivity. Qed.

(* ================================================================== *)
(** * Facts: encryption.js *)
(* ================================================================== *)

Section EncryptionFacts.
Context {P : Platform}.

(** What the platform guarantees: [atob] undoes [btoa], and AES-GCM
    decryption under the key and nonce of the encryption returns the
    plaintext. *)
Hypothesis atob_btoa : forall s, atob (btoa s) = Some s.
Hypothesis decrypt_encrypt :
  forall k iv m, subtle_decrypt k iv (subtle_encrypt k iv m) = Some m.

Lemma base64_roundtrip (buffer : list byte) (text : string) :
  arrayBufferToBase64 buffer = Normal text ->
  base64ToArrayBuffer text = Normal buffer.
Proof.
  unfold base64ToArrayBuffer, arrayBufferToBase64.
  destruct (spread_fits buffer); [|discriminate].
  intros H. inversion H; subst text.
  rewrite atob_btoa, list_byte_of_string_of_list_byte. reflexivity.
Qed.

(** [encryptCookie] returns an envelope exactly when the instance holds a
    key and each of the two buffers is short enough to be spread. *)
Lemma encryptCookie_returns
    (self : CookieEncryption) (k : CryptoKey) (iv : list byte) (now : Z)
    (v d : string) :
  key self = Some k ->
  spread_fits (subtle_encrypt k iv (TextEncoder_encode v)) = true ->
  spread_fits iv = true ->
  encryptCookie self iv now v d
  = Normal {| env_encrypted :=
                btoa (string_of_list_byte
                        (subtle_encrypt k iv (TextEncoder_encode v)));
              env_iv := btoa (string_of_list_byte iv);
              env_domain := d;
              env_timestamp := now |}.
Proof.
  intros Hkey Hcipher Hiv. unfold encryptCookie, arrayBufferToBase64.
  rewrite Hkey, Hcipher, Hiv. reflexivity.
Qed.

(** A ciphertext with more bytes than a call takes arguments is not
    converted: [encryptCookie] throws. *)
Lemma encryptCookie_throws_RangeError
    (self : CookieEncryption) (k : CryptoKey) (iv : list byte) (now : Z)
    (v d : string) :
  key self = Some k ->
  spread_fits (subtle_encrypt k iv (TextEncoder_encode v)) = false ->
  encryptCookie self iv now v d = Throw RangeError.
Proof.
  intros Hkey Hcipher. unfold encryptCookie, arrayBufferToBase64.
  rewrite Hkey, Hcipher. reflexivity.
Qed.

(** What [decryptCookie] makes of an envelope that [encryptCookie] returned
    on the same instance: the decoding of the encoding of the value. *)
Lemma decryptCookie_of_encryptCookie
    (enc : CookieEncryption) (iv : list byte) (t : Z)
    (v d : string) (envelope : Envelope) :
  encryptCookie enc iv t v d = Normal envelope ->
  decryptCookie enc envelope
  = Normal (TextDecoder_decode (TextEncoder_encode v)).
Proof.
  unfold encryptCookie. intros Henc.
  destruct (key enc) as [k|] eqn:Hkey; [|discriminate].
  destruct (arrayBufferToBase64 (subtle_encrypt k iv (TextEncoder_encode v)))
    as [encrypted64|] eqn:Hcipher; [|discriminate].
  destruct (arrayBufferToBase64 iv) as [iv64|] eqn:Hiv; [|discriminate].
  inversion Henc; subst envelope; clear Henc.
  unfold decryptCookie. simpl.
  rewrite (base64_roundtrip _ Hiv), (base64_roundtrip _ Hcipher), Hkey.
  rewrite decrypt_encrypt. reflexivity.
Qed.

(** C5, as the code has it.  On an instance that holds a key, for a value
    whose ciphertext (and the nonce) are short enough to be passed as the
    arguments of one call, [encryptCookie] returns an envelope for the given
    domain and time, and [decryptCookie] of that envelope on the same
    instance returns the UTF-8 decoding of the UTF-8 encoding of the value:
    the value itself whenever the value is text that the two codecs carry
    unchanged.  This holds for every domain, nonce and time. *)
Theorem decrypt_encrypt_roundtrip
    (self : CookieEncryption) (k : CryptoKey) (iv : list byte) (now : Z)
    (v d : string) :
  key self = Some k ->
  spread_fits (subtle_encrypt k iv (TextEncoder_encode v)) = true ->
  spread_fits iv = true ->
  exists envelope,
    encryptCookie self iv now v d = Normal envelope
    /\ env_domain envelope = d
    /\ env_timestamp envelope = now
    /\ decryptCookie self envelope
       = Normal (TextDecoder_decode (TextEncoder_encode v))
    /\ (TextDecoder_decode (TextEncoder_encode v) = v ->
        decryptCookie self envelope = Normal v).
Proof.
  intros Hkey Hcipher Hiv.
  pose proof (encryptCookie_returns self iv now v d Hkey Hcipher Hiv) as Henc.
  eexists. split; [exact Henc|]. split; [reflexivity|]. split; [reflexivity|].
  pose proof (decryptCookie_of_encryptCookie _ _ _ _ _ Henc) as Hdec.
  split; [exact Hdec|].
  intros Hcodec. rewrite Hdec, Hcodec. reflexivity.
Qed.

(** AES-GCM authenticates: decryption under another key is refused. *)
Hypothesis decrypt_other_key :
  forall k k' iv m, k <> k' -> subtle_decrypt k' iv (subtle_encrypt k iv m) = None.

(** C6.  Let an envelope be produced by an instance under its key.  After
    [generateNewKey] has given the instance a key different from that one
    (and written it to storage), [decryptCookie] of the envelope throws
    [OperationError]; it returns no text. *)
Theorem rotated_key_fails
    (self : CookieEncryption) (k fresh : CryptoKey) (iv : list byte) (now : Z)
    (v d : string) (envelope : Envelope) :
  key self = Some k ->
  fresh <> k ->
  encryptCookie self iv now v d = Normal envelope ->
  let rotated := generateNewKey self fresh in
  key (fst rotated) = Some fresh
  /\ snd rotated = arrayBufferToBase64 (subtle_exportKey fresh)
  /\ decryptCookie (fst rotated) envelope = Throw OperationError.
Proof.
  intros Hkey Hfresh Henc rotated.
  split; [reflexivity|]. split; [reflexivity|].
  unfold encryptCookie in Henc. rewrite Hkey in Henc.
  destruct (arrayBufferToBase64 (subtle_encrypt k iv (TextEncoder_encode v)))
    as [encrypted64|] eqn:Hcipher; [|discriminate].
  destruct (arrayBufferToBase64 iv) as [iv64|] eqn:Hiv; [|discriminate].
  inversion Henc; subst envelope; clear Henc.
  unfold decryptCookie. simpl.
  rewrite (base64_roundtrip _ Hiv), (base64_roundtrip _ Hcipher).
  rewrite decrypt_other_key by congruence.
  reflexivity.
Qed.

End EncryptionFacts.

Section EncryptionMessageRun.
Context {E : RegExpEngine} {P : Platform}.

(** [ENCRYPT_COOKIE] on an engine that has an encryption instance: the
    envelope, or a failure when [encryptCookie] throws; one nonce is drawn
    either way. *)
Lemma ENCRYPT_COOKIE_run (w : World) (v d : string) (enc : CookieEncryption) :
  encryption w = Some enc ->
  handleMessage (ENCRYPT_COOKIE v d) w
  = (match encryptCookie enc (random w (drawn w)) (now w) v d with
     | Normal envelope => Normal (response_encrypted envelope)
     | Throw _ => Normal response_failure
     end,
     set_drawn w (S (drawn w))).
Proof.
  intros Henc. unfold handleMessage, encrypt_in_world. run_eff.
  rewrite Henc. simpl.
  destruct (encryptCookie enc (random w (drawn w)) (now w) v d); reflexivity.
Qed.

End EncryptionMessageRun.

(** The reference platform has the round-trip properties and refuses a
    ciphertext under another key. *)
Lemma demo_atob_btoa (s : string) : @atob demo_platform (@btoa demo_platform s) = Some s.
Proof. reflexivity. Qed.

Lemma demo_byte_eqb_refl (k : byte) : Byte.eqb k k = true.
Proof. destruct k; reflexivity. Qed.

Lemma demo_decrypt_encrypt (k : @CryptoKey demo_platform) (iv m : list byte) :
  @subtle_decrypt demo_platform k iv (@subtle_encrypt demo_platform k iv m) = Some m.
Proof. simpl. rewrite demo_byte_eqb_refl. reflexivity. Qed.

Lemma demo_decrypt_other_key (k k' : @CryptoKey demo_platform) (iv m : list byte) :
  k <> k' ->
  @subtle_decrypt demo_platform k' iv (@subtle_encrypt demo_platform k iv m) = None.
Proof.
  intros Hk. simpl. destruct (Byte.eqb k' k) eqn:Heq; [|reflexivity].
  apply Byte.byte_dec_bl in Heq. congruence.
Qed.

Lemma decrypt_encrypt_roundtrip_witness :
  exists envelope,
    @encryptCookie demo_platform (keyed x07) [x00] 1700000000000
      "abc" "mybank.com" = Normal envelope
    /\ env_domain envelope = "mybank.com"%string
    /\ @decryptCookie demo_platform (keyed x07) envelope = Normal "abc"%string.
Proof.
  destruct (@decrypt_encrypt_roundtrip demo_platform demo_atob_btoa
              demo_decrypt_encrypt
              (keyed x07) x07 [x00] 1700000000000 "abc" "mybank.com"
              eq_refl eq_refl eq_refl)
    as (envelope & Henc & Hdomain & _ & _ & Hdec).
  exists envelope. split; [exact Henc|]. split; [exact Hdomain|].
  apply Hdec. reflexivity.
Defined.

(** A value of 131072 characters: [a] doubled 17 times. *)
Fixpoint doubled (n : nat) (s : string) : string :=
  match n with
  | O => s
  | S n' => doubled n' (s ++ s)
  end.

Definition long_value : string := doubled 17 "a".

Lemma length_doubled (n : nat) (s : string) :
  String.length (doubled n s) = 2 ^ n * String.length s.
Proof.
  revert s. induction n as [|n IH]; intros s.
  - simpl. lia.
  - cbn [doubled]. rewrite IH.
    assert (Happ : forall t u, String.length (t ++ u)%string
                               = String.length t + String.length u)
      by (induction t; intros u; simpl; congruence).
    rewrite Happ, Nat.pow_succ_r'. lia.
Qed.

Lemma length_list_byte_of_string (s : string) :
  List.length (list_byte_of_string s) = String.length s.
Proof.
  unfold list_byte_of_string. rewrite length_map.
  induction s; simpl; congruence.
Qed.

Lemma demo_ciphertext_length (k : byte) (iv : list byte) (v : string) :
  List.length (@subtle_encrypt demo_platform k iv
                 (@TextEncoder_encode demo_platform v))
  = S (String.length v).
Proof. simpl. rewrite length_list_byte_of_string. reflexivity. Qed.

(** A long value is not encrypted: its ciphertext has more bytes than
    [String.fromCharCode] takes arguments, the conversion throws a
    [RangeError], and [encryptCookie] returns no envelope that could be
    decrypted.  Through the message handler the failure is answered with
    [success: false]. *)
Lemma long_value_is_not_encrypted :
  N.of_nat (String.length long_value) = 131072%N
  /\ @encryptCookie demo_platform (keyed x07) [x00] 1700000000000
       long_value "mybank.com" = Throw RangeError
  /\ fst (handleMessage (ENCRYPT_COOKIE long_value "mybank.com")
            (fresh_world 1700000000000))
     = Normal response_failure.
Proof.
  assert (Hlen : N.of_nat (String.length long_value) = 131072%N).
  { unfold long_value. rewrite length_doubled.
    rewrite Nat2N.inj_mul, Nat2N.inj_pow. reflexivity. }
  assert (Hthrows : forall iv t d,
             @encryptCookie demo_platform (keyed x07) iv t long_value d
             = Throw RangeError).
  { intros iv t d.
    apply (@encryptCookie_throws_RangeError demo_platform _ x07);
      [reflexivity|].
    unfold spread_fits.
    rewrite demo_ciphertext_length, Nat2N.inj_succ, Hlen. reflexivity. }
  split; [exact Hlen|]. split; [apply Hthrows|].
  rewrite (@ENCRYPT_COOKIE_run list_pattern_engine demo_platform
             (fresh_world 1700000000000) long_value "mybank.com" (keyed x07)
             eq_refl).
  rewrite Hthrows. reflexivity.
Qed.

Lemma rotated_key_fails_witness :
  @decryptCookie demo_platform
    (fst (@generateNewKey demo_platform (keyed x07) x08))
    {| env_encrypted := string_of_list_byte (x07 :: list_byte_of_string "abc");
       env_iv := string_of_list_byte [x00];
       env_domain := "mybank.com";
       env_timestamp := 1700000000000 |}
  = Throw OperationError.
Proof.
  refine (proj2 (proj2
    (@rotated_key_fails demo_platform demo_atob_btoa demo_decrypt_other_key
       (keyed x07) x07 x08 [x00] 1700000000000 "abc" "mybank.com"
       _ eq_refl _ eq_refl))).
  discriminate.
Defined.

(* ================================================================== *)
(** * Further notions: exceptions, list checks, the encryption policy *)
(* ================================================================== *)

Section FurtherNotions.
Context {E : RegExpEngine} {P : Platform}.

(** A computation that completes normally in every world. *)
Definition never_throws (A : Type) (m : Eff A) : Prop :=
  forall w, exists a, fst (m w) = Normal a.

(** An entry that ends the loop of [applyEncryption]: a non-default rule
    whose pattern matches the domain, or whose key occurs in the domain and
    which has [encrypt] set. *)
Definition decisive (domain : string) (entry : string * Rule) : bool :=
  negb (String.eqb (fst entry) "*")
  && (pattern_test (snd entry) domain
      || (includes domain (fst entry) && encrypt (snd entry))).

(** Some rule under ['*'] has [encrypt] set. *)
Definition default_encrypts (rules : JsObject Rule) : bool :=
  existsb (fun entry => String.eqb (fst entry) "*" && encrypt (snd entry)) rules.

(** The decision the entry that ends the loop leaves in [shouldEncrypt]. *)
Definition decision (domain : string) (entry : string * Rule) : bool :=
  if pattern_test (snd entry) domain then encrypt (snd entry) else true.

(** The number of patterns of a list that match a domain. *)
Definition matching (patterns : list string) (domain : string) : nat :=
  List.length (filter (fun p => pattern_matches p domain) patterns).

End FurtherNotions.

(* ================================================================== *)
(** * Facts: what the handlers throw *)
(* ================================================================== *)

Section ExceptionFacts.
Context {E : RegExpEngine} {P : Platform}.

Lemma quiet_ret (A : Type) (a : A) : never_throws (ret a).
Proof. intros w. exists a. reflexivity. Qed.

Lemma quiet_read (A : Type) (f : World -> A) : never_throws (read f).
Proof. intros w. eexists. reflexivity. Qed.

Lemma quiet_update (f : World -> World) : never_throws (update f).
Proof. intros w. exists tt. reflexivity. Qed.

Lemma quiet_bind (A B : Type) (m : Eff A) (f : A -> Eff B) :
  never_throws m -> (forall a, never_throws (f a)) -> never_throws (bind m f).
Proof.
  intros Hm Hf w. unfold bind. destruct (Hm w) as [a Ha].
  destruct (m w) as [[a'|e] w1]; simpl in Ha; [|discriminate].
  apply Hf.
Qed.

(** A [try] whose [catch] block cannot throw cannot throw. *)
Lemma quiet_try_catch (A : Type) (m handler : Eff A) :
  never_throws handler -> never_throws (try_catch m handler).
Proof.
  intros Hh w. unfold try_catch.
  destruct (m w) as [[a|e] w1]; [exists a; reflexivity | apply Hh].
Qed.

Lemma quiet_fire (c : HostCall) : never_throws (fire c).
Proof. apply quiet_try_catch, quiet_ret. Qed.

Ltac quiet_step :=
  first
    [ apply quiet_try_catch
    | apply quiet_bind; [|intros ?]
    | apply quiet_ret
    | apply quiet_read
    | apply quiet_update
    | apply quiet_fire
    | match goal with
      | |- never_throws (match ?x with _ => _ end) => destruct x
      end ].

Lemma quiet_logAudit (action : AuditDetails) : never_throws (logAudit action).
Proof. unfold logAudit. repeat quiet_step. Qed.

Lemma quiet_logCookieChange (changeInfo : ChangeInfo) :
  never_throws (logCookieChange changeInfo).
Proof. unfold logCookieChange. repeat quiet_step. Qed.

Lemma quiet_applyWhitelistRule (c : Cookie) (rule : WhitelistRule) :
  never_throws (applyWhitelistRule c rule).
Proof. unfold applyWhitelistRule. repeat quiet_step. Qed.

Lemma quiet_check_whitelist (c : Cookie) (patterns : list string) :
  never_throws (check_whitelist c patterns).
Proof.
  induction patterns as [|p rest IH]; simpl.
  - apply quiet_ret.
  - repeat first [exact IH | quiet_step].
Qed.

Lemma quiet_check_blacklist (c : Cookie) (patterns : list string) :
  never_throws (check_blacklist c patterns).
Proof.
  induction patterns as [|p rest IH]; simpl.
  - repeat first [apply quiet_check_whitelist | quiet_step].
  - repeat first [exact IH | quiet_step].
Qed.

Lemma quiet_applyWhitelistBlacklist (c : Cookie) :
  never_throws (applyWhitelistBlacklist c).
Proof.
  unfold applyWhitelistBlacklist.
  repeat first [apply quiet_check_blacklist | quiet_step].
Qed.

Lemma quiet_applyEncryption (c : Cookie) : never_throws (applyEncryption c).
Proof. unfold applyEncryption. repeat quiet_step. Qed.

(** X1.  Every failure inside the list filter is caught:
    [applyWhitelistBlacklist] completes normally in every world, whatever
    the host rejects, whatever patterns the lists hold (sources that do not
    compile included) and whatever override is stored; so do
    [applyWhitelistRule] and [logCookieChange].  (A world holds its lists
    and its log as arrays, as the handlers of the engine leave them; a
    backup that was imported with other shapes is outside it.)
    [handleCookieChange] itself has no [try]: an exception that escapes it
    was thrown after the list filter had answered something other than
    [false], by [applyRules] or by [applyEncryption]. *)
Theorem handlers_catch_their_failures :
  (forall (c : Cookie) (w : World),
      exists r, fst (applyWhitelistBlacklist c w) = Normal r)
  /\ (forall (c : Cookie) (rule : WhitelistRule) (w : World),
         fst (applyWhitelistRule c rule w) = Normal tt)
  /\ (forall (changeInfo : ChangeInfo) (w : World),
         fst (logCookieChange changeInfo w) = Normal tt)
  /\ (forall (changeInfo : ChangeInfo) (w : World) (e : JsError),
         fst (handleCookieChange changeInfo w) = Throw e ->
         exists (listResult : option bool) (w2 : World),
           applyWhitelistBlacklist (cookie changeInfo)
             (snd (logCookieChange changeInfo w))
           = (Normal listResult, w2)
           /\ listResult <> Some false
           /\ fst (bind (applyRules (cookie changeInfo))
                     (fun _ => applyEncryption (cookie changeInfo)) w2)
              = Throw e).
Proof.
  split; [intros c w; apply quiet_applyWhitelistBlacklist|].
  split.
  { intros c rule w. destruct (quiet_applyWhitelistRule c rule w) as [[] Hu].
    exact Hu. }
  split.
  { intros changeInfo w. destruct (quiet_logCookieChange changeInfo w) as [[] Hu].
    exact Hu. }
  intros changeInfo w e. unfold handleCookieChange.
  unfold bind at 1.
  pose proof (quiet_logCookieChange changeInfo w) as [[] Hlog].
  destruct (logCookieChange changeInfo w) as [[[]|e1] w1]; simpl in Hlog;
    [|discriminate].
  simpl snd. unfold bind at 1.
  pose proof (quiet_applyWhitelistBlacklist (cookie changeInfo) w1) as [r Hr].
  destruct (applyWhitelistBlacklist (cookie changeInfo) w1) as [[r'|e2] w2];
    simpl in Hr; [|discriminate].
  intros Hthrow. exists r', w2. split; [reflexivity|].
  destruct r' as [[|]|].
  - split; [discriminate | exact Hthrow].
  - simpl in Hthrow. discriminate.
  - split; [discriminate | exact Hthrow].
Qed.

End ExceptionFacts.

(* ================================================================== *)
(** * Facts: the list filter beyond the first blacklist match *)
(* ================================================================== *)

Section ListFilterFacts.
Context {E : RegExpEngine} {P : Platform}.

Lemma set_calls_same (w : World) : set_calls w (calls w) = w.
Proof. destruct w; reflexivity. Qed.

Lemma repeat_shift (A : Type) (x : A) (n : nat) (l : list A) :
  repeat x n ++ x :: l = x :: repeat x n ++ l.
Proof. induction n as [|n IH]; simpl; [reflexivity | rewrite IH; reflexivity]. Qed.

(** X2.  On a host that rejects the removal of the cookie, the blacklist
    deletes nothing and logs nothing: the removal is asked for once per
    blacklist pattern that matches the domain, each rejection is swallowed,
    and the pass then continues with the whitelist exactly as for a cookie
    that is on no blacklist. *)
Theorem rejected_removal_falls_through (c : Cookie) (w : World) :
  (forall history,
      host_accepts w history (cookies_remove (cookie_url c) (name c)) = false) ->
  applyWhitelistBlacklist c w
  = check_whitelist c (whitelist w)
      (set_calls w
         (repeat (cookies_remove (cookie_url c) (name c))
            (matching (blacklist w) (domain c)) ++ calls w)).
Proof.
  intros Hreject. unfold applyWhitelistBlacklist, bind at 1, read at 1.
  generalize (blacklist w) as patterns. intros patterns.
  assert (Hgen : forall attempts : list HostCall,
             check_blacklist c patterns (set_calls w (attempts ++ calls w))
             = check_whitelist c (whitelist w)
                 (set_calls w
                    (repeat (cookies_remove (cookie_url c) (name c))
                       (matching patterns (domain c)) ++ attempts ++ calls w))).
  { induction patterns as [|p rest IH]; intros attempts.
    - reflexivity.
    - unfold matching. simpl filter.
      destruct (pattern_matches p (domain c)) eqn:Hp.
      + rewrite check_blacklist_rejected; [|exact Hp|apply Hreject].
        simpl calls. simpl List.length. simpl repeat.
        change (set_calls (set_calls w (attempts ++ calls w))
                  (cookies_remove (cookie_url c) (name c) :: attempts ++ calls w))
          with (set_calls w
                  ((cookies_remove (cookie_url c) (name c) :: attempts) ++ calls w)).
        rewrite IH. unfold matching. simpl app.
        rewrite <- repeat_shift. reflexivity.
      + rewrite check_blacklist_skip by exact Hp. apply IH. }
  specialize (Hgen []). simpl in Hgen.
  rewrite set_calls_same in Hgen. exact Hgen.
Qed.

(** The whitelist pass answers [true] or [null], and never throws. *)
Lemma check_whitelist_answer (c : Cookie) (patterns : list string) (w : World) :
  exists (allowed : bool) (w2 : World),
    check_whitelist c patterns w
    = (Normal (if allowed then Some true else None), w2).
Proof.
  revert w. induction patterns as [|p rest IH]; intros w.
  - exists false, w. reflexivity.
  - simpl. unfold bind at 1, try_catch at 1.
    destruct (RegExp_new (replace_star p)) as [regex|]; [|apply IH].
    destruct (RegExp_test regex (domain c)); [|apply IH].
    unfold bind at 1, request at 1.
    case_host; [|apply IH].
    unfold bind at 1, read at 1.
    set (w1 := set_calls w _).
    destruct (whitelistRules_lookup (stored_whitelistRules w1) (domain c))
      as [rule|].
    + unfold bind at 1.
      destruct (quiet_applyWhitelistRule c rule w1) as [[] Hq].
      destruct (applyWhitelistRule c rule w1) as [[[]|e] w2]; simpl in Hq;
        [|discriminate].
      exists true, w2. reflexivity.
    + exists true, w1. reflexivity.
Qed.

(** X3.  When no blacklist pattern matches the cookie's domain,
    [handleCookieChange] goes on to [applyRules] and [applyEncryption]
    whatever the whitelist answers: a whitelisted cookie is not exempt from
    the rules, and neither is the cookie of a removal event, for the event's
    [removed] flag is only written to the log. *)
Theorem unblocked_cookie_is_processed (w : World) (changeInfo : ChangeInfo) :
  let c := cookie changeInfo in
  (forall p, In p (blacklist w) -> pattern_matches p (domain c) = false) ->
  exists (allowed : bool) (w2 : World),
    applyWhitelistBlacklist c (snd (logCookieChange changeInfo w))
    = (Normal (if allowed then Some true else None), w2)
    /\ handleCookieChange changeInfo w
       = bind (applyRules c) (fun _ => applyEncryption c) w2.
Proof.
  intros c Hnone.
  unfold handleCookieChange, bind at 1.
  rewrite logCookieChange_run. simpl snd.
  set (w1 := set_calls _ _).
  assert (Hbl : applyWhitelistBlacklist c w1
                = check_whitelist c (whitelist w1) w1).
  { unfold applyWhitelistBlacklist, bind at 1, read at 1.
    rewrite <- (app_nil_r (blacklist w1)).
    rewrite check_blacklist_skip_all by exact Hnone. reflexivity. }
  destruct (check_whitelist_answer c (whitelist w1) w1) as (allowed & w2 & Hwl).
  exists allowed, w2. rewrite Hbl, Hwl. split; [reflexivity|].
  unfold bind at 1. fold c. rewrite Hbl, Hwl.
  destruct allowed; reflexivity.
Qed.

End ListFilterFacts.

(* ================================================================== *)
(** * Facts: removal events *)
(* ================================================================== *)

Section RemovalFacts.
Context {E : RegExpEngine} {P : Platform}.

Lemma check_whitelist_skip_all (c : Cookie) (patterns : list string) (w : World) :
  (forall p, In p patterns -> pattern_matches p (domain c) = false) ->
  check_whitelist c patterns w = (Normal None, w).
Proof.
  induction patterns as [|p rest IH]; intros Hnone; [reflexivity|].
  assert (Hp : pattern_matches p (domain c) = false)
    by (apply Hnone; left; reflexivity).
  unfold pattern_matches in Hp. simpl. run_eff.
  destruct (RegExp_new (replace_star p)) as [regex|].
  - rewrite Hp. apply IH. intros q Hq. apply Hnone. right. exact Hq.
  - apply IH. intros q Hq. apply Hnone. right. exact Hq.
Qed.

(** The write [applyRules] makes for a cookie without expiration. *)
Lemma applyRules_writes_back (w : World) (c : Cookie) (rule : Rule) (minutes : Z) :
  resolve (siteRules w) (domain c) = Some rule ->
  expiration rule = Some minutes -> minutes <> 0%Z ->
  truthy_opt (expirationDate c) = false ->
  host_accepts w (calls w)
    (cookies_set (with_expirationDate c (Some (Num (rule_expiry (now w) minutes)))))
  = true ->
  applyRules c w
  = (Normal tt,
     snd (logAudit (RULE_APPLIED (name c) (domain c) (Some minutes) rule)
            (set_calls w
               (cookies_set
                  (with_expirationDate c
                     (Some (Num (rule_expiry (now w) minutes))))
                :: calls w)))).
Proof.
  intros Hrule Hexp Hmin Hnone Hhost.
  unfold applyRules. run_eff. rewrite Hrule. simpl. rewrite Hexp, Hnone.
  apply Z.eqb_neq in Hmin. rewrite Hmin. simpl.
  rewrite Hhost. rewrite !logAudit_run. reflexivity.
Qed.

(** X4.  The cookie of a removal event is treated as a cookie to keep.
    When a session cookie is removed, no list pattern matches its domain,
    and the rule resolved for it has a non-zero [expiration] (the clock and
    the expiration being in the range where the source computes exactly),
    then [handleCookieChange], on a host that accepts what it is asked,
    requests [chrome.cookies.set] for the removed cookie with an expiration
    [now + expiration] minutes, logs [RULE_APPLIED], and goes on to
    [applyEncryption]. *)
Theorem removed_session_cookie_is_set_again
    (w : World) (changeInfo : ChangeInfo) (rule : Rule) (minutes : Z) :
  let c := cookie changeInfo in
  let w1 := snd (logCookieChange changeInfo w) in
  removed changeInfo = true ->
  (forall p, In p (blacklist w) -> pattern_matches p (domain c) = false) ->
  (forall p, In p (whitelist w) -> pattern_matches p (domain c) = false) ->
  resolve (siteRules w) (domain c) = Some rule ->
  expiration rule = Some minutes -> minutes <> 0%Z ->
  exact_expiry (now w) minutes ->
  truthy_opt (expirationDate c) = false ->
  (forall history call, host_accepts w history call = true) ->
  exists w3,
    handleCookieChange changeInfo w = applyEncryption c w3
    /\ auditLog w3
       = unshift_capped
           {| timestamp := now w;
              details := RULE_APPLIED (name c) (domain c) (Some minutes) rule |}
           (unshift_capped
              {| timestamp := now w;
                 details := COOKIE_CHANGE (name c) (domain c) "REMOVED"
                              (logged_value (value c)) |}
              (auditLog w))
    /\ calls w3
       = storage_set [item_auditLog (firstn 1000 (auditLog w3))]
         :: cookies_set
              (with_expirationDate c (Some (Num (rule_expiry (now w) minutes))))
         :: calls w1.
Proof.
  intros c w1 Hremoved Hbl Hwl Hrule Hexp Hmin Hexact Hnone Hhost.
  unfold handleCookieChange, bind at 1.
  unfold w1. rewrite logCookieChange_run. simpl snd.
  unfold appended_entry. rewrite Hremoved. fold c.
  set (w1' := set_calls _ _).
  assert (Hlists : applyWhitelistBlacklist c w1' = (Normal None, w1')).
  { unfold applyWhitelistBlacklist, bind at 1, read at 1.
    rewrite <- (app_nil_r (blacklist w1')).
    rewrite check_blacklist_skip_all by exact Hbl.
    simpl check_blacklist. unfold bind at 1, read at 1.
    apply check_whitelist_skip_all. exact Hwl. }
  unfold bind at 1. rewrite Hlists.
  unfold bind at 1.
  rewrite (@applyRules_writes_back w1' c rule minutes Hrule Hexp Hmin Hnone)
    by apply Hhost.
  eexists. split; [reflexivity|].
  rewrite logAudit_run. simpl. split; reflexivity.
Qed.

End RemovalFacts.

(* ================================================================== *)
(** * Facts: which rule decides encryption *)
(* ================================================================== *)

Section EncryptionDecisionFacts.
Context {E : RegExpEngine} {P : Platform}.

Lemma should_encrypt_first_decisive (entries : list (string * Rule)) (d : string)
    (shouldEncrypt : bool) :
  should_encrypt entries d shouldEncrypt
  = match find (decisive d) entries with
    | Some entry => decision d entry
    | None => shouldEncrypt || default_encrypts entries
    end.
Proof.
  revert shouldEncrypt.
  induction entries as [|[k r] rest IH]; intros acc; simpl.
  - rewrite orb_false_r. reflexivity.
  - unfold decisive at 1. simpl.
    destruct (String.eqb k "*"); simpl.
    + rewrite IH. destruct (find (decisive d) rest); [reflexivity|].
      destruct (encrypt r), acc; reflexivity.
    + destruct (pattern_test r d) eqn:Hp; simpl.
      * unfold decision. simpl. rewrite Hp. reflexivity.
      * destruct (includes d k); simpl; [destruct (encrypt r)|]; simpl;
          try apply IH.
        unfold decision. simpl. rewrite Hp. reflexivity.
Qed.

Lemma should_encrypt_passes_over (before after : list (string * Rule))
    (k : string) (r : Rule) (d : string) (shouldEncrypt : bool) :
  k <> "*"%string -> pattern_test r d = false -> encrypt r = false ->
  should_encrypt (before ++ (k, r) :: after) d shouldEncrypt
  = should_encrypt (before ++ after) d shouldEncrypt.
Proof.
  intros Hk Hp He. apply String.eqb_neq in Hk.
  revert shouldEncrypt.
  induction before as [|[k0 r0] before IH]; intros acc; simpl.
  - rewrite Hk, Hp, He, andb_false_r. reflexivity.
  - destruct (String.eqb k0 "*"); [apply IH|].
    destruct (pattern_test r0 d); [reflexivity|].
    destruct (includes d k0 && encrypt r0); [reflexivity | apply IH].
Qed.

(** X5.  [applyEncryption] takes its decision from the first non-default
    rule, in the order of [Object.entries], whose pattern matches the domain
    or whose key occurs in the domain and which has [encrypt] set: a rule
    found by its pattern decides with its own flag, also when that is off; a
    rule found by its key decides for encryption; and when there is no such
    rule the flag of the default rule decides.  A rule that applies by its
    key only and has [encrypt] off is passed over as if it were absent, so
    the rule that [applyRules] resolves for a domain need not be the one
    that decides its encryption. *)
Theorem encryption_decided_by_first_decisive_rule (rules : JsObject Rule) (d : string) :
  should_encrypt rules d false
  = match find (decisive d) rules with
    | Some entry => decision d entry
    | None => default_encrypts rules
    end
  /\ (forall before after k r,
         rules = before ++ (k, r) :: after ->
         (forall entry, In entry before -> rule_hits d entry = false) ->
         k <> "*"%string -> pattern_test r d = false ->
         includes d k = true -> encrypt r = false ->
         resolve rules d = Some r
         /\ should_encrypt rules d false
            = should_encrypt (before ++ after) d false).
Proof.
  split; [apply should_encrypt_first_decisive|].
  intros before after k r -> Hbefore Hk Hp Hkey He. split.
  - unfold resolve. rewrite find_rule_first_hit.
    rewrite find_skip by exact Hbefore.
    simpl. unfold rule_hits at 1. simpl.
    apply String.eqb_neq in Hk. rewrite Hk, Hkey, orb_true_r. reflexivity.
  - apply should_encrypt_passes_over; assumption.
Qed.

End EncryptionDecisionFacts.

(* ================================================================== *)
(** * Facts: what encryption by policy stores *)
(* ================================================================== *)

Section EncryptionRunFacts.
Context {E : RegExpEngine} {P : Platform}.

Hypothesis atob_btoa : forall s, atob (btoa s) = Some s.
Hypothesis decrypt_encrypt :
  forall k iv m, subtle_decrypt k iv (subtle_encrypt k iv m) = Some m.

Lemma nonempty_true (s : string) : s <> EmptyString -> nonempty s = true.
Proof. destruct s; [contradiction | reflexivity]. Qed.

(** X6.  When the policy says to encrypt, the engine's encryption instance
    holds a key, the cookie's value is neither empty nor a reference, its
    ciphertext and the nonce are short enough to be spread as arguments, and
    the host accepts what it is asked, [applyEncryption] stores under
    [encrypted_<domain>_<name>] an envelope that [decryptCookie] turns back
    into the cookie's value (a value that the UTF-8 codecs carry unchanged),
    then writes the cookie with the reference in place of the value, then
    logs one [ENCRYPTED] entry; it draws one nonce. *)
Theorem applyEncryption_stores_recoverable_value
    (w : World) (c : Cookie) (enc : CookieEncryption) (k : CryptoKey) :
  should_encrypt (siteRules w) (domain c) false = true ->
  encryption w = Some enc -> key enc = Some k ->
  value c <> EmptyString ->
  startsWith (value c) "ENCRYPTED_REF_" = false ->
  spread_fits (subtle_encrypt k (random w (drawn w))
                 (TextEncoder_encode (value c))) = true ->
  spread_fits (random w (drawn w)) = true ->
  TextDecoder_decode (TextEncoder_encode (value c)) = value c ->
  (forall history call, host_accepts w history call = true) ->
  let w' := snd (applyEncryption c w) in
  exists envelope,
    decryptCookie enc envelope = Normal (value c)
    /\ env_domain envelope = domain c
    /\ calls w'
       = storage_set [item_auditLog (firstn 1000 (auditLog w'))]
         :: cookies_set (with_value c (encrypted_ref c))
         :: storage_set [item_envelope (envelope_key c) envelope]
         :: calls w
    /\ auditLog w'
       = unshift_capped
           {| timestamp := now w;
              details := ENCRYPTED (name c) (domain c) auto_encryption |}
           (auditLog w)
    /\ drawn w' = S (drawn w).
Proof.
  intros Hpolicy Henc Hkey Hvalue Href Hfits Hnonce Hcodec Hhost w'.
  pose proof (encryptCookie_returns enc (random w (drawn w)) (now w)
                (value c) (domain c) Hkey Hfits Hnonce) as Hcipher.
  match type of Hcipher with
  | _ = Normal ?e => set (envelope := e) in *
  end.
  exists envelope.
  split.
  { rewrite (decryptCookie_of_encryptCookie atob_btoa decrypt_encrypt
               _ _ _ _ _ Hcipher), Hcodec. reflexivity. }
  split; [reflexivity|].
  assert (Hrun : applyEncryption c w
                 = (Normal tt,
                    snd (logAudit (ENCRYPTED (name c) (domain c) auto_encryption)
                           (set_calls (set_drawn w (S (drawn w)))
                              (cookies_set (with_value c (encrypted_ref c))
                               :: storage_set
                                    [item_envelope (envelope_key c) envelope]
                               :: calls w))))).
  { unfold applyEncryption. run_eff.
    rewrite Hpolicy, Henc, (nonempty_true Hvalue), Href. simpl.
    unfold encrypt_in_world. rewrite Hcipher. simpl.
    rewrite Hhost. simpl. rewrite Hhost. simpl.
    rewrite !logAudit_run. reflexivity. }
  unfold w'. rewrite Hrun, logAudit_run. simpl. repeat split; reflexivity.
Qed.

End EncryptionRunFacts.

Section EncryptionFailureFacts.
Context {E : RegExpEngine} {P : Platform}.

(** X7.  The ways encryption by policy fails leave no entry in the log.
    Let the policy say to encrypt a cookie whose value is neither empty nor
    a reference.  (1) If the encryption instance holds no key yet, nothing
    is requested of the host.  (2) If the host rejects the write of the
    envelope, the cookie is not written.  (3) If the host accepts the
    envelope and rejects the write of the cookie, the envelope stays stored
    while the cookie keeps its value.  In all three [applyEncryption]
    completes and the audit log is as it was. *)
Theorem applyEncryption_failures_are_silent
    (w : World) (c : Cookie) (enc : CookieEncryption) :
  should_encrypt (siteRules w) (domain c) false = true ->
  encryption w = Some enc ->
  value c <> EmptyString ->
  startsWith (value c) "ENCRYPTED_REF_" = false ->
  let w' := snd (applyEncryption c w) in
  fst (applyEncryption c w) = Normal tt
  /\ (key enc = None -> calls w' = calls w /\ auditLog w' = auditLog w)
  /\ (forall envelope,
         encryptCookie enc (random w (drawn w)) (now w) (value c) (domain c)
         = Normal envelope ->
         let stored := storage_set [item_envelope (envelope_key c) envelope] in
         (host_accepts w (calls w) stored = false ->
          calls w' = stored :: calls w /\ auditLog w' = auditLog w)
         /\ (host_accepts w (calls w) stored = true ->
             host_accepts w (stored :: calls w)
               (cookies_set (with_value c (encrypted_ref c))) = false ->
             calls w'
             = cookies_set (with_value c (encrypted_ref c)) :: stored :: calls w
             /\ auditLog w' = auditLog w)).
Proof.
  intros Hpolicy Henc Hvalue Href w'.
  split.
  { destruct (quiet_applyEncryption c w) as [[] Hq]. exact Hq. }
  assert (Hrun : applyEncryption c w
                 = try_catch
                     (bind (encrypt_in_world enc (value c) (domain c))
                        (fun encrypted =>
                           bind (request (storage_set
                                   [item_envelope (envelope_key c) encrypted]))
                             (fun _ =>
                                bind (request (cookies_set
                                        (with_value c (encrypted_ref c))))
                                  (fun _ =>
                                     logAudit (ENCRYPTED (name c) (domain c)
                                                 auto_encryption)))))
                     (ret tt) w).
  { unfold applyEncryption, bind at 1, read at 1.
    unfold bind at 1, read at 1.
    rewrite Hpolicy, Henc, (nonempty_true Hvalue), Href. reflexivity. }
  unfold w'. rewrite Hrun. clear Hrun.
  split.
  - intros Hkey. unfold encrypt_in_world, encryptCookie. run_eff.
    rewrite Hkey. simpl. auto.
  - intros envelope Hcipher. unfold encrypt_in_world. run_eff.
    rewrite !Hcipher. simpl. split.
    + intros Hreject. rewrite !Hreject. simpl. auto.
    + intros Haccept Hreject. rewrite !Haccept. simpl.
      rewrite !Hreject. simpl. auto.
Qed.

End EncryptionFailureFacts.

(* ================================================================== *)
(** * Facts: saving and deleting rules *)
(* ================================================================== *)

Section RuleStoreFacts.
Variable A : Type.
Implicit Types (o : JsObject A) (k : string) (v : A).

Lemma own_get_insert_index_same n o k v :
  own_get o k = None -> own_get (insert_index n k v o) k = Some v.
Proof.
  induction o as [|[k0 v0] o IH]; simpl; intros Hk.
  - rewrite String.eqb_refl. reflexivity.
  - destruct (String.eqb k0 k) eqn:H0; [discriminate|].
    destruct (array_index k0) as [m|]; [destruct (m <? n)%N|]; simpl;
      rewrite ?H0, ?String.eqb_refl; auto.
Qed.

Lemma own_get_obj_set_same o k v :
  k <> "__proto__"%string -> own_get (obj_set o k v) k = Some v.
Proof.
  intros Hk. apply String.eqb_neq in Hk. unfold obj_set. rewrite Hk.
  destruct (own_get o k) eqn:Hget.
  - rewrite own_get_replace_own, String.eqb_refl, Hget. reflexivity.
  - destruct (array_index k).
    + apply own_get_insert_index_same. exact Hget.
    + rewrite own_get_app, Hget. simpl. rewrite String.eqb_refl. reflexivity.
Qed.

Lemma own_get_obj_set_other o k v k' :
  k <> k' -> own_get (obj_set o k v) k' = own_get o k'.
Proof.
  intros Hk. unfold obj_set.
  destruct (String.eqb k "__proto__"); [reflexivity|].
  destruct (own_get o k).
  - rewrite own_get_replace_own. apply String.eqb_neq in Hk. rewrite Hk. reflexivity.
  - destruct (array_index k).
    + apply own_get_insert_index. exact Hk.
    + rewrite own_get_app. simpl. apply String.eqb_neq in Hk. rewrite Hk.
      destruct (own_get o k'); reflexivity.
Qed.

Lemma own_get_delete_same o k :
  NoDup (keys o) -> own_get (obj_delete o k) k = None.
Proof.
  induction o as [|[k0 v0] o IH]; simpl; intros Hnd; [reflexivity|].
  inversion Hnd as [|? ? Hk0 Hrest]; subst.
  destruct (String.eqb k0 k) eqn:H0; simpl.
  - apply String.eqb_eq in H0. subst k0. apply own_get_None. exact Hk0.
  - rewrite H0. apply IH. exact Hrest.
Qed.

Lemma obj_delete_absent o k : own_get o k = None -> obj_delete o k = o.
Proof.
  induction o as [|[k0 v0] o IH]; simpl; intros Hk; [reflexivity|].
  destruct (String.eqb k0 k); [discriminate|]. rewrite IH; auto.
Qed.

Lemma obj_delete_insert_index n o k v :
  own_get o k = None -> obj_delete (insert_index n k v o) k = o.
Proof.
  induction o as [|[k0 v0] o IH]; simpl; intros Hk.
  - rewrite String.eqb_refl. reflexivity.
  - destruct (String.eqb k0 k) eqn:H0; [discriminate|].
    destruct (array_index k0) as [m|]; [destruct (m <? n)%N|]; simpl;
      rewrite ?H0, ?String.eqb_refl, ?IH; auto.
Qed.

Lemma obj_delete_app_fresh o k v :
  own_get o k = None -> obj_delete (o ++ [(k, v)]) k = o.
Proof.
  induction o as [|[k0 v0] o IH]; simpl; intros Hk.
  - rewrite String.eqb_refl. reflexivity.
  - destruct (String.eqb k0 k); [discriminate|]. rewrite IH; auto.
Qed.

(** Deleting a key right after it was created gives back the object. *)
Lemma obj_delete_obj_set_fresh o k v :
  own_get o k = None -> obj_delete (obj_set o k v) k = o.
Proof.
  intros Hk. unfold obj_set.
  destruct (String.eqb k "__proto__"); [apply obj_delete_absent; exact Hk|].
  rewrite Hk. destruct (array_index k).
  - apply obj_delete_insert_index. exact Hk.
  - apply obj_delete_app_fresh. exact Hk.
Qed.

Lemma obj_set_index_first o k n v :
  array_index k = Some n ->
  (forall k', In k' (keys o) -> array_index k' = None) ->
  obj_set o k v = (k, v) :: o.
Proof.
  intros Hi Hnone. unfold obj_set.
  destruct (String.eqb k "__proto__") eqn:Hp.
  { apply String.eqb_eq in Hp. subst k. discriminate. }
  assert (Hk : own_get o k = None).
  { apply own_get_None. intros Hin. apply Hnone in Hin. congruence. }
  rewrite Hk, Hi. destruct o as [|[k0 v0] o]; simpl; [reflexivity|].
  rewrite (Hnone k0) by (left; reflexivity). reflexivity.
Qed.

End RuleStoreFacts.

Section RuleMessageFacts.
Context {E : RegExpEngine} {P : Platform}.

Lemma SAVE_RULE_run (d : string) (r : Rule) (w : World) :
  handleMessage (SAVE_RULE d r) w
  = (let rules := obj_set (siteRules w) d r in
     let written := storage_set [item_siteRules rules] in
     (Normal (if host_accepts w (calls w) written
              then response_success else response_failure),
      set_calls (set_siteRules w rules) (written :: calls w))).
Proof. unfold handleMessage. run_eff. case_host; reflexivity. Qed.

Lemma DELETE_RULE_run (d : string) (w : World) :
  handleMessage (DELETE_RULE d) w
  = (let rules := obj_delete (siteRules w) d in
     let written := storage_set [item_siteRules rules] in
     (Normal (if host_accepts w (calls w) written
              then response_success else response_failure),
      set_calls (set_siteRules w rules) (written :: calls w))).
Proof. unfold handleMessage. run_eff. case_host; reflexivity. Qed.

(** X8.  [SAVE_RULE] changes the rules in memory first and persists them
    second.  After the message the rule under the given key is the given
    rule (unless the key is [__proto__], which stores nothing), every other
    key has the rule it had, and the whole map was sent to storage.  The
    answer is a success exactly when the host accepted the write; a rejected
    write is answered with a failure and the rule stays changed in memory. *)
Theorem SAVE_RULE_changes_memory_then_persists (w : World) (d : string) (r : Rule) :
  let w' := snd (handleMessage (SAVE_RULE d r) w) in
  let written := storage_set [item_siteRules (siteRules w')] in
  (d <> "__proto__"%string -> own_get (siteRules w') d = Some r)
  /\ (d = "__proto__"%string -> siteRules w' = siteRules w)
  /\ (forall d', d' <> d -> own_get (siteRules w') d' = own_get (siteRules w) d')
  /\ calls w' = written :: calls w
  /\ fst (handleMessage (SAVE_RULE d r) w)
     = Normal (if host_accepts w (calls w) written
               then response_success else response_failure).
Proof.
  intros w' written. unfold written, w'. rewrite SAVE_RULE_run. simpl.
  split; [intros Hd; apply own_get_obj_set_same; exact Hd|].
  split; [intros ->; reflexivity|].
  split; [intros d' Hd'; apply own_get_obj_set_other; congruence|].
  split; reflexivity.
Qed.

(** X9.  [DELETE_RULE] removes the rule under the given key and no other:
    afterwards the key has no rule, every other key has the rule it had, a
    key that had no rule leaves the map as it was, and the map was sent to
    storage.  Deleting a key right after [SAVE_RULE] created it gives back
    the map as it was before, in the same order. *)
Theorem DELETE_RULE_removes_one_rule (w : World) (d : string) :
  NoDup (keys (siteRules w)) ->
  let w' := snd (handleMessage (DELETE_RULE d) w) in
  own_get (siteRules w') d = None
  /\ (forall d', d' <> d -> own_get (siteRules w') d' = own_get (siteRules w) d')
  /\ (own_get (siteRules w) d = None -> siteRules w' = siteRules w)
  /\ calls w' = storage_set [item_siteRules (siteRules w')] :: calls w
  /\ (forall r,
         own_get (siteRules w) d = None ->
         siteRules (snd (handleMessage (DELETE_RULE d)
                           (snd (handleMessage (SAVE_RULE d r) w))))
         = siteRules w).
Proof.
  intros Hnd w'. unfold w'. rewrite DELETE_RULE_run. simpl.
  split; [apply own_get_delete_same; exact Hnd|].
  split; [intros d' Hd'; apply own_get_delete; congruence|].
  split; [apply obj_delete_absent|].
  split; [reflexivity|].
  intros r Hfresh. rewrite SAVE_RULE_run. simpl.
  rewrite DELETE_RULE_run. simpl.
  apply obj_delete_obj_set_fresh. exact Hfresh.
Qed.

(** X10.  The order of insertion is not the order of resolution for a
    numeric key.  A rule saved under a key that is an array index (the
    text of a small whole number, such as [192]) into rules whose keys are
    not is enumerated first, and so [applyRules] resolves every domain that
    contains the key to that rule, before any rule that was there. *)
Theorem numeric_key_is_resolved_first
    (rules : JsObject Rule) (k : string) (n : N) (r : Rule) (d : string) :
  array_index k = Some n ->
  (forall k', In k' (keys rules) -> array_index k' = None) ->
  includes d k = true ->
  obj_set rules k r = (k, r) :: rules
  /\ resolve (obj_set rules k r) d = Some r.
Proof.
  intros Hi Hnone Hd.
  assert (Hset : obj_set rules k r = (k, r) :: rules)
    by (eapply obj_set_index_first; eassumption).
  split; [exact Hset|].
  rewrite Hset. unfold resolve. simpl find_rule.
  destruct (String.eqb k "*") eqn:Hstar.
  { apply String.eqb_eq in Hstar. subst k. discriminate. }
  rewrite Hd. destruct (pattern_test r d); reflexivity.
Qed.

End RuleMessageFacts.

(* ================================================================== *)
(** * Facts: editing the lists *)
(* ================================================================== *)

Section ListMessageFacts.
Context {E : RegExpEngine} {P : Platform}.

Lemma array_includes_In (l : list string) (x : string) :
  array_includes l x = true <-> In x l.
Proof.
  unfold array_includes. rewrite existsb_exists. split.
  - intros (y & Hin & Heq). apply String.eqb_eq in Heq. subst. exact Hin.
  - intros Hin. exists x. split; [exact Hin | apply String.eqb_refl].
Qed.

Lemma NoDup_push (l : list string) (x : string) :
  NoDup l -> ~ In x l -> NoDup (l ++ [x]).
Proof.
  induction l as [|y l IH]; simpl; intros Hnd Hx.
  - constructor; [tauto | constructor].
  - inversion Hnd; subst. constructor.
    + rewrite in_app_iff. simpl. intuition.
    + apply IH; tauto.
Qed.

(** The list after [if (!list.includes(pattern)) list.push(pattern)]. *)
Lemma pushed_once (l : list string) (p : string) :
  let l' := if array_includes l p then l else l ++ [p] in
  In p l'
  /\ (NoDup l -> NoDup l')
  /\ (In p l -> l' = l)
  /\ (~ In p l -> l' = l ++ [p]).
Proof.
  simpl. destruct (array_includes l p) eqn:Hin.
  - apply array_includes_In in Hin. repeat split; auto. tauto.
  - assert (Hnot : ~ In p l).
    { intros H. apply array_includes_In in H. congruence. }
    repeat split; auto.
    + rewrite in_app_iff. simpl. auto.
    + intros Hnd. apply NoDup_push; assumption.
    + tauto.
Qed.

Lemma ADD_TO_LIST_run (listType p : string) (w : World) :
  let wl := if String.eqb listType "whitelist"
            then (if array_includes (whitelist w) p then whitelist w
                  else whitelist w ++ [p])
            else whitelist w in
  let bl := if String.eqb listType "whitelist" then blacklist w
            else (if array_includes (blacklist w) p then blacklist w
                  else blacklist w ++ [p]) in
  whitelist (snd (handleMessage (ADD_TO_LIST listType p) w)) = wl
  /\ blacklist (snd (handleMessage (ADD_TO_LIST listType p) w)) = bl
  /\ calls (snd (handleMessage (ADD_TO_LIST listType p) w))
     = storage_set [item_whitelist wl; item_blacklist bl] :: calls w.
Proof.
  unfold handleMessage, persist_lists. run_eff.
  destruct (String.eqb listType "whitelist");
    [destruct (array_includes (whitelist w) p)
    |destruct (array_includes (blacklist w) p)];
    simpl; case_host; simpl; auto.
Qed.

(** X11.  [ADD_TO_LIST] appends a pattern to the end of one list unless
    that list holds it already: the pattern is on the list afterwards, a
    list without duplicates stays without duplicates, adding a pattern twice
    changes nothing the second time, and both lists are sent to storage.
    The list is the whitelist when [listType] is exactly [whitelist], and
    the blacklist for every other [listType]; the other list is left alone,
    so one pattern can be on both. *)
Theorem ADD_TO_LIST_appends_once (w : World) (listType p : string) :
  let w' := snd (handleMessage (ADD_TO_LIST listType p) w) in
  (listType = "whitelist"%string ->
     In p (whitelist w') /\ blacklist w' = blacklist w
     /\ (NoDup (whitelist w) -> NoDup (whitelist w'))
     /\ (In p (whitelist w) -> whitelist w' = whitelist w)
     /\ (~ In p (whitelist w) -> whitelist w' = whitelist w ++ [p]))
  /\ (listType <> "whitelist"%string ->
        In p (blacklist w') /\ whitelist w' = whitelist w
        /\ (NoDup (blacklist w) -> NoDup (blacklist w'))
        /\ (In p (blacklist w) -> blacklist w' = blacklist w)
        /\ (~ In p (blacklist w) -> blacklist w' = blacklist w ++ [p]))
  /\ calls w'
     = storage_set [item_whitelist (whitelist w'); item_blacklist (blacklist w')]
       :: calls w.
Proof.
  intros w'. unfold w'.
  destruct (ADD_TO_LIST_run listType p w) as (Hwl & Hbl & Hcalls).
  rewrite Hcalls, Hwl, Hbl.
  split; [|split; [|reflexivity]].
  - intros ->. rewrite String.eqb_refl.
    destruct (pushed_once (whitelist w) p) as (H1 & H2 & H3 & H4). auto.
  - intros Hlt. apply String.eqb_neq in Hlt. rewrite Hlt.
    destruct (pushed_once (blacklist w) p) as (H1 & H2 & H3 & H4). auto.
Qed.

Lemma REMOVE_FROM_LIST_run (listType p : string) (w : World) :
  let keep := filter (fun q => negb (String.eqb q p)) in
  whitelist (snd (handleMessage (REMOVE_FROM_LIST listType p) w))
  = (if String.eqb listType "whitelist" then keep (whitelist w) else whitelist w)
  /\ blacklist (snd (handleMessage (REMOVE_FROM_LIST listType p) w))
     = (if String.eqb listType "whitelist" then blacklist w else keep (blacklist w)).
Proof.
  unfold handleMessage, persist_lists. run_eff.
  destruct (String.eqb listType "whitelist"); simpl; case_host; simpl; auto.
Qed.

Lemma filter_out (l : list string) (p : string) :
  let l' := filter (fun q => negb (String.eqb q p)) l in
  ~ In p l'
  /\ (forall q, q <> p -> (In q l' <-> In q l))
  /\ (~ In p l -> l' = l).
Proof.
  simpl. split; [|split].
  - rewrite filter_In. intros [_ H]. rewrite String.eqb_refl in H. discriminate.
  - intros q Hq. rewrite filter_In. apply String.eqb_neq in Hq. rewrite Hq.
    simpl. tauto.
  - induction l as [|x l IH]; simpl; intros Hnot; [reflexivity|].
    destruct (String.eqb x p) eqn:Hx.
    + apply String.eqb_eq in Hx. tauto.
    + simpl. rewrite IH; tauto.
Qed.

Lemma filter_out_pushed (l : list string) (p : string) :
  ~ In p l -> filter (fun q => negb (String.eqb q p)) (l ++ [p]) = l.
Proof.
  intros Hnot. rewrite filter_app. simpl. rewrite String.eqb_refl. simpl.
  rewrite app_nil_r. apply filter_out. exact Hnot.
Qed.

(** X12.  [REMOVE_FROM_LIST] removes every occurrence of the pattern from
    one list (the whitelist for the [listType] [whitelist], the blacklist
    for any other) and keeps the other patterns; the other list is left
    alone.  Removing a pattern that [ADD_TO_LIST] has just added to a list
    which did not hold it gives back the list as it was. *)
Theorem REMOVE_FROM_LIST_removes_the_pattern (w : World) (listType p : string) :
  let w' := snd (handleMessage (REMOVE_FROM_LIST listType p) w) in
  (listType = "whitelist"%string ->
     ~ In p (whitelist w') /\ blacklist w' = blacklist w
     /\ (forall q, q <> p -> (In q (whitelist w') <-> In q (whitelist w))))
  /\ (listType <> "whitelist"%string ->
        ~ In p (blacklist w') /\ whitelist w' = whitelist w
        /\ (forall q, q <> p -> (In q (blacklist w') <-> In q (blacklist w))))
  /\ (let added := snd (handleMessage (ADD_TO_LIST listType p) w) in
      let undone := snd (handleMessage (REMOVE_FROM_LIST listType p) added) in
      ~ In p (whitelist w) -> ~ In p (blacklist w) ->
      whitelist undone = whitelist w /\ blacklist undone = blacklist w).
Proof.
  intros w'. unfold w'.
  destruct (REMOVE_FROM_LIST_run listType p w) as (Hwl & Hbl).
  split; [|split].
  - intros Hlt. rewrite Hwl, Hbl, Hlt, String.eqb_refl.
    destruct (filter_out (whitelist w) p) as (H1 & H2 & _). auto.
  - intros Hlt. apply String.eqb_neq in Hlt. rewrite Hwl, Hbl, Hlt.
    destruct (filter_out (blacklist w) p) as (H1 & H2 & _). auto.
  - intros Hw Hb.
    destruct (REMOVE_FROM_LIST_run listType p
                (snd (handleMessage (ADD_TO_LIST listType p) w))) as (Hwl' & Hbl').
    rewrite Hwl', Hbl'.
    destruct (ADD_TO_LIST_run listType p w) as (Hawl & Habl & _).
    rewrite Hawl, Habl.
    destruct (String.eqb listType "whitelist").
    + split; [|reflexivity].
      destruct (pushed_once (whitelist w) p) as (_ & _ & _ & H4).
      simpl in H4. rewrite (H4 Hw). apply filter_out_pushed. exact Hw.
    + split; [reflexivity|].
      destruct (pushed_once (blacklist w) p) as (_ & _ & _ & H4).
      simpl in H4. rewrite (H4 Hb). apply filter_out_pushed. exact Hb.
Qed.

End ListMessageFacts.

(* ================================================================== *)
(** * Facts: the value kept in a change entry *)
(* ================================================================== *)

Section LoggedValueFacts.
Local Open Scope string_scope.
#[local] Arguments substring : simpl never.

Lemma length_append (s t : string) :
  String.length (s ++ t) = String.length s + String.length t.
Proof. induction s; simpl; congruence. Qed.

Lemma substring_0_cons (m : nat) (a : ascii) (s : string) :
  substring 0 (S m) (String a s) = String a (substring 0 m s).
Proof. reflexivity. Qed.

Lemma substring_0_length (m : nat) (s : string) :
  String.length (substring 0 m s) <= m.
Proof.
  revert s. induction m as [|m IH]; intros s.
  - destruct s; simpl; lia.
  - destruct s as [|a s]; [simpl; lia|].
    rewrite substring_0_cons. simpl. specialize (IH s). lia.
Qed.

Lemma substring_0_split (m : nat) (s : string) :
  exists tail,
    s = substring 0 m s ++ tail
    /\ String.length tail = String.length s - m.
Proof.
  revert s. induction m as [|m IH]; intros s.
  - exists s. destruct s; simpl; split; auto; lia.
  - destruct s as [|a s]; [exists ""; split; reflexivity|].
    destruct (IH s) as (tail & Hs & Hlen). exists tail.
    rewrite substring_0_cons. simpl. split; [congruence | exact Hlen].
Qed.

(** X13.  A change entry never holds more than the first 50 characters of
    a cookie's value (followed by three dots): the logged text is at most 53
    characters long; a value of 1 to 50 characters is logged whole; of a
    longer value exactly the first 50 characters are logged and the rest,
    which is not empty, is left out; an empty value is logged as the word
    [empty]. *)
Theorem logged_value_is_truncated (v : string) :
  String.length (logged_value v) <= 53
  /\ (v = "" -> logged_value v = "empty")
  /\ (v <> "" -> String.length v <= 50 -> logged_value v = v)
  /\ (50 < String.length v ->
      exists tail,
        v = substring 0 50 v ++ tail
        /\ String.length tail = String.length v - 50
        /\ logged_value v = substring 0 50 v ++ "...").
Proof.
  assert (Hform : forall a s,
             logged_value (String a s)
             = if (50 <? String.length (String a s))%nat
               then substring 0 50 (String a s) ++ "..."
               else String a s) by reflexivity.
  split; [|split; [|split]].
  - destruct v as [|a s]; [simpl; lia|].
    rewrite Hform. destruct (50 <? String.length (String a s))%nat eqn:Hlen.
    + rewrite length_append.
      pose proof (substring_0_length 50 (String a s)).
      change (String.length "...") with 3. lia.
    + apply Nat.ltb_ge in Hlen. lia.
  - intros ->. reflexivity.
  - intros Hv Hlen. destruct v as [|a s]; [contradiction|].
    rewrite Hform. apply Nat.ltb_ge in Hlen. rewrite Hlen. reflexivity.
  - intros Hlen. destruct v as [|a s]; [simpl in Hlen; lia|].
    destruct (substring_0_split 50 (String a s)) as (tail & Hs & Htail).
    exists tail. split; [exact Hs|]. split; [exact Htail|].
    rewrite Hform. apply Nat.ltb_lt in Hlen. rewrite Hlen. reflexivity.
Qed.

End LoggedValueFacts.

(* ================================================================== *)
(** * Facts: encryption through messages *)
(* ================================================================== *)

Section EncryptionMessageFacts.
Context {E : RegExpEngine} {P : Platform}.

Hypothesis atob_btoa : forall s, atob (btoa s) = Some s.
Hypothesis decrypt_encrypt :
  forall k iv m, subtle_decrypt k iv (subtle_encrypt k iv m) = Some m.

(** X14.  What [ENCRYPT_COOKIE] answers, [DECRYPT_COOKIE] turns back.  Let
    the engine's encryption instance hold a key.  When the ciphertext of the
    value and the nonce are short enough to be spread as arguments,
    [ENCRYPT_COOKIE] answers with an envelope and changes nothing of the
    engine but the count of nonces drawn, and [DECRYPT_COOKIE] of that
    envelope, in any later world with the same instance, changes nothing and
    answers with the UTF-8 decoding of the UTF-8 encoding of the value: the
    value itself when the codecs carry it unchanged.  When the ciphertext or
    the nonce is too long, the [RangeError] is caught and [ENCRYPT_COOKIE]
    answers with a failure.  It also answers with a failure when the
    instance holds no key or the engine has no encryption instance. *)
Theorem ENCRYPT_COOKIE_then_DECRYPT_COOKIE (w : World) (v d : string) :
  (forall enc k,
      encryption w = Some enc -> key enc = Some k ->
      let iv := random w (drawn w) in
      let ciphertext := subtle_encrypt k iv (TextEncoder_encode v) in
      let decoded := TextDecoder_decode (TextEncoder_encode v) in
      (spread_fits ciphertext = true -> spread_fits iv = true ->
       exists envelope,
         handleMessage (ENCRYPT_COOKIE v d) w
         = (Normal (response_encrypted envelope), set_drawn w (S (drawn w)))
         /\ forall w1,
              encryption w1 = Some enc ->
              handleMessage (DECRYPT_COOKIE envelope) w1
              = (Normal (response_decrypted decoded), w1)
              /\ (decoded = v ->
                  handleMessage (DECRYPT_COOKIE envelope) w1
                  = (Normal (response_decrypted v), w1)))
      /\ (spread_fits ciphertext = false \/ spread_fits iv = false ->
          handleMessage (ENCRYPT_COOKIE v d) w
          = (Normal response_failure, set_drawn w (S (drawn w)))))
  /\ (forall enc,
         encryption w = Some enc -> key enc = None ->
         fst (handleMessage (ENCRYPT_COOKIE v d) w) = Normal response_failure)
  /\ (encryption w = None ->
      handleMessage (ENCRYPT_COOKIE v d) w = (Normal response_failure, w)
      /\ forall envelope,
           handleMessage (DECRYPT_COOKIE envelope) w = (Normal response_failure, w)).
Proof.
  split; [|split].
  - intros enc k Henc Hkey iv ciphertext decoded. split.
    + intros Hfits Hnonce.
      pose proof (encryptCookie_returns enc iv (now w) v d Hkey Hfits Hnonce)
        as Hcipher.
      match type of Hcipher with
      | _ = Normal ?e => set (envelope := e) in *
      end.
      exists envelope. split.
      * rewrite (ENCRYPT_COOKIE_run w v d Henc). fold iv. rewrite Hcipher.
        reflexivity.
      * intros w1 Henc1.
        assert (Hback : handleMessage (DECRYPT_COOKIE envelope) w1
                        = (Normal (response_decrypted decoded), w1)).
        { unfold handleMessage. run_eff. rewrite Henc1.
          rewrite (decryptCookie_of_encryptCookie atob_btoa decrypt_encrypt
                     _ _ _ _ _ Hcipher).
          reflexivity. }
        split; [exact Hback|]. intros Hcodec. rewrite Hback, Hcodec. reflexivity.
    + intros Hlong. rewrite (ENCRYPT_COOKIE_run w v d Henc). fold iv.
      unfold encryptCookie, arrayBufferToBase64. rewrite Hkey. fold ciphertext.
      destruct Hlong as [Hlong | Hlong]; rewrite Hlong; [reflexivity|].
      destruct (spread_fits ciphertext); reflexivity.
  - intros enc Henc Hkey. rewrite (ENCRYPT_COOKIE_run w v d Henc).
    unfold encryptCookie. rewrite Hkey. reflexivity.
  - intros Henc. split; [|intros envelope];
      unfold handleMessage; run_eff; rewrite Henc; reflexivity.
Qed.

End EncryptionMessageFacts.

(* ================================================================== *)
(** * categories.js *)
(* ================================================================== *)

(** The regular-expression literals of the classifier, written as the
    expressions they denote. *)
Definition lit (w : string) : compiled := {| body := word w; ignoreCase := false |}.

Definition lit_i (w : string) : compiled := {| body := word w; ignoreCase := true |}.

(** [/w s?/i]: the word, optionally followed by one character. *)
Definition lit_i_optional (w : string) (last : ascii) : compiled :=
  {| body := Cat (word w) (Alt (Chr last) Eps); ignoreCase := true |}.

(** One entry of [this.categories]. *)
Record CategoryData : Type := {
  patterns : list compiled;
  description : string
}.

(** [this.categories], in the order the constructor writes it. *)
Definition categories : JsObject CategoryData :=
  [ ("essential"%string,
     {| patterns :=
          [ {| body := Alt (word "session")
                         (Alt (word "auth")
                            (Alt (word "token") (Alt (word "login") (word "jwt"))));
               ignoreCase := true |};
            lit "__Secure-"; lit "__Host-" ];
        description := "Required for site functionality" |});
    ("analytics"%string,
     {| patterns :=
          [ {| body := Cat (word "_ga") (Alt (Chr "_") (Chr ":"));
               ignoreCase := false |};
            lit "_gid"; lit "_gat"; lit "amplitude"; lit "mixpanel";
            lit_i "hotjar" ];
        description := "Tracking user behavior" |});
    ("advertising"%string,
     {| patterns :=
          [ lit "_fbp"; lit "_fbc"; lit "ads"; lit_i "doubleclick";
            lit_i "googleadservices" ];
        description := "Advertising and targeting" |});
    ("functional"%string,
     {| patterns :=
          [ lit_i_optional "preference" "s"; lit_i_optional "setting" "s";
            lit_i "theme"; lit_i "language" ];
        description := "User preferences" |});
    ("security"%string,
     {| patterns := [ lit_i "csrf"; lit_i "xsrf"; lit_i "security"; lit_i "nonce" ];
        description := "Security protection" |});
    ("unknown"%string,
     {| patterns := []; description := "Uncategorized" |}) ].

(** What a lookup in an object literal gives: a text of the literal, or a
    member the object inherits from [Object.prototype]. *)
Inductive Looked : Type :=
| Text (s : string)
| Inherited (name : string).

Definition riskLevels : JsObject string :=
  [ ("essential", "low"); ("security", "low"); ("functional", "low");
    ("analytics", "medium"); ("advertising", "high"); ("unknown", "medium") ]%string.

(** [riskLevels[category] || 'medium'] *)
Definition calculateRisk (category : string) : Looked :=
  match own_get riskLevels category with
  | Some (String a s) => Text (String a s)
  | Some EmptyString => Text "medium"
  | None => if inherited category then Inherited category else Text "medium"
  end.

(** The object [categorizeCookie] returns. *)
Record Categorization : Type := {
  category : string;
  category_description : string;
  risk : Looked
}.

(** The inner loop of [categorizeCookie]: some pattern of the category
    matches the cookie's name or its domain. *)
Fixpoint some_pattern_matches (ps : list compiled) (c : Cookie) : bool :=
  match ps with
  | [] => false
  | p :: rest =>
      if regex_test p (name c) || regex_test p (domain c) then true
      else some_pattern_matches rest c
  end.

(** The outer loop of [categorizeCookie]. *)
Fixpoint categorize_in (entries : list (string * CategoryData)) (c : Cookie)
  : Categorization :=
  match entries with
  | [] =>
      {| category := "unknown";
         category_description := "Uncategorized cookie";
         risk := Text "medium" |}
  | (cat, data) :: rest =>
      if String.eqb cat "unknown" then categorize_in rest c
      else if some_pattern_matches (patterns data) c then
        {| category := cat;
           category_description := description data;
           risk := calculateRisk cat |}
      else categorize_in rest c
  end.

Definition categorizeCookie (c : Cookie) : Categorization :=
  categorize_in categories c.

(** [aggregateCategories]: [counts[category] = (counts[category] || 0) + 1]
    for each categorization in turn.  The result is [None] when a category
    is a name that a plain object inherits, for then the thing counted up
    is not a number. *)
Fixpoint aggregate_into (counts : JsObject nat) (categorized : list Categorization)
  : option (JsObject nat) :=
  match categorized with
  | [] => Some counts
  | cat :: rest =>
      match own_get counts (category cat) with
      | Some n => aggregate_into (obj_set counts (category cat) (n + 1)) rest
      | None =>
          if inherited (category cat) then None
          else aggregate_into (obj_set counts (category cat) (0 + 1)) rest
      end
  end.

Definition aggregateCategories (categorized : list Categorization)
  : option (JsObject nat) :=
  aggregate_into [] categorized.

(** The count an object of counts gives for a name it may not have. *)
Definition count_of (counts : JsObject nat) (k : string) : nat :=
  match own_get counts k with
  | Some n => n
  | None => 0
  end.

(** A category of the classifier has a pattern that matches the cookie. *)
Definition category_matches (c : Cookie) (entry : string * CategoryData) : bool :=
  negb (String.eqb (fst entry) "unknown")
  && existsb (fun p => regex_test p (name c) || regex_test p (domain c))
       (patterns (snd entry)).

(** The words of the first pattern of the [essential] category, and its
    two prefixes. *)
Definition essential_words : list string :=
  [ "session"; "auth"; "token"; "login"; "jwt"; "__Secure-"; "__Host-" ]%string.

(* ================================================================== *)
(** * Facts: the classifier *)
(* ================================================================== *)

Section ClassifierFacts.
Local Open Scope string_scope.

Lemma some_pattern_matches_existsb (ps : list compiled) (c : Cookie) :
  some_pattern_matches ps c
  = existsb (fun p => regex_test p (name c) || regex_test p (domain c)) ps.
Proof.
  induction ps as [|p ps IH]; simpl; [reflexivity|].
  destruct (regex_test p (name c) || regex_test p (domain c)); simpl; auto.
Qed.

Definition categorization_of (found : option (string * CategoryData))
  : Categorization :=
  match found with
  | Some (cat, data) =>
      {| category := cat; category_description := description data;
         risk := calculateRisk cat |}
  | None =>
      {| category := "unknown"; category_description := "Uncategorized cookie";
         risk := Text "medium" |}
  end.

Lemma categorize_in_first_match (entries : list (string * CategoryData)) (c : Cookie) :
  categorize_in entries c = categorization_of (find (category_matches c) entries).
Proof.
  induction entries as [|[cat data] rest IH]; simpl; [reflexivity|].
  unfold category_matches at 1. simpl.
  rewrite <- some_pattern_matches_existsb.
  destruct (String.eqb cat "unknown"); simpl; [exact IH|].
  destruct (some_pattern_matches (patterns data) c); [reflexivity | exact IH].
Qed.

(** The categories and the risks the classifier can answer with. *)
Definition classifications : list (string * Looked) :=
  [ ("essential", Text "low"); ("analytics", Text "medium");
    ("advertising", Text "high"); ("functional", Text "low");
    ("security", Text "low"); ("unknown", Text "medium") ].

Lemma categorizeCookie_classification (c : Cookie) :
  In (category (categorizeCookie c), risk (categorizeCookie c)) classifications.
Proof.
  unfold categorizeCookie. rewrite categorize_in_first_match.
  destruct (find (category_matches c) categories) as [[cat data]|] eqn:Hfind.
  - apply find_some in Hfind as [Hin _]. simpl.
    unfold categories in Hin. simpl in Hin.
    repeat (destruct Hin as [Heq|Hin];
            [inversion Heq; subst; simpl; tauto|]).
    contradiction.
  - simpl. tauto.
Qed.

(** X15.  [categorizeCookie] answers with the first category, in the order
    essential, analytics, advertising, functional, security, that has a
    pattern matching the cookie's name or its domain, and with [unknown]
    when none has.  The risk it reports is [low] for essential, functional
    and security cookies, [medium] for analytics and unknown ones and [high]
    for advertising ones, so it is [high] exactly for the category
    [advertising]. *)
Theorem categorizeCookie_first_category (c : Cookie) :
  categorizeCookie c = categorization_of (find (category_matches c) categories)
  /\ map fst (filter (fun entry => negb (String.eqb (fst entry) "unknown")) categories)
     = [ "essential"; "analytics"; "advertising"; "functional"; "security" ]
  /\ In (category (categorizeCookie c), risk (categorizeCookie c)) classifications
  /\ (risk (categorizeCookie c) = Text "high"
      <-> category (categorizeCookie c) = "advertising").
Proof.
  split; [apply categorize_in_first_match|].
  split; [reflexivity|].
  split; [apply categorizeCookie_classification|].
  pose proof (categorizeCookie_classification c) as Hin.
  unfold classifications in Hin. simpl in Hin.
  repeat (destruct Hin as [Heq|Hin];
          [inversion Heq as [[Hc Hr]]; split; intros H;
           try reflexivity; try discriminate|]);
    try contradiction.
Qed.

Lemma Matches_word (ci : bool) (w : string) (p n : option ascii) :
  Matches ci p (word w) w n.
Proof.
  revert p. induction w as [|a w IH]; intros p; simpl.
  - constructor.
  - change (String a w) with (String a "" ++ w).
    constructor; [|apply IH].
    constructor. unfold char_match. destruct ci; apply Ascii.eqb_refl.
Qed.

Lemma regex_test_contains (re : compiled) (pre mid post : string) :
  Matches (ignoreCase re) (after None pre) (body re) mid (before post None) ->
  regex_test re (pre ++ mid ++ post) = true.
Proof.
  intros Hm. unfold regex_test. apply search_spec.
  exists pre, mid, post. auto.
Qed.

(** Some pattern of the essential category matches a text that contains
    one of its words. *)
Lemma essential_word_matches (w pre post : string) :
  In w essential_words ->
  exists p,
    In p [ {| body := Alt (word "session")
                        (Alt (word "auth")
                           (Alt (word "token") (Alt (word "login") (word "jwt"))));
              ignoreCase := true |};
           lit "__Secure-"; lit "__Host-" ]
    /\ regex_test p (pre ++ w ++ post) = true.
Proof.
  intros Hw. unfold essential_words in Hw. simpl in Hw.
  destruct Hw as [<-|[<-|[<-|[<-|[<-|[<-|[<-|[]]]]]]]].
  - eexists. split; [left; reflexivity|].
    apply regex_test_contains. unfold lit. cbn [body ignoreCase]. apply MAltL, Matches_word.
  - eexists. split; [left; reflexivity|].
    apply regex_test_contains. unfold lit. cbn [body ignoreCase]. apply MAltR, MAltL, Matches_word.
  - eexists. split; [left; reflexivity|].
    apply regex_test_contains. unfold lit. cbn [body ignoreCase]. apply MAltR, MAltR, MAltL, Matches_word.
  - eexists. split; [left; reflexivity|].
    apply regex_test_contains. unfold lit. cbn [body ignoreCase].
    apply MAltR, MAltR, MAltR, MAltL, Matches_word.
  - eexists. split; [left; reflexivity|].
    apply regex_test_contains. unfold lit. cbn [body ignoreCase].
    apply MAltR, MAltR, MAltR, MAltR, Matches_word.
  - exists (lit "__Secure-"). split; [right; left; reflexivity|].
    apply regex_test_contains. unfold lit. cbn [body ignoreCase]. apply Matches_word.
  - exists (lit "__Host-"). split; [right; right; left; reflexivity|].
    apply regex_test_contains. unfold lit. cbn [body ignoreCase]. apply Matches_word.
Qed.

(** X16.  The essential category comes first and wins: a cookie whose name
    or whose domain contains [session], [auth], [token], [login], [jwt],
    [__Secure-] or [__Host-] is classified essential, with low risk,
    whatever else its name and domain contain (also a marker of an
    advertising or analytics cookie). *)
Theorem essential_word_makes_essential (c : Cookie) (w pre post : string) :
  In w essential_words ->
  name c = pre ++ w ++ post \/ domain c = pre ++ w ++ post ->
  categorizeCookie c
  = {| category := "essential";
       category_description := "Required for site functionality";
       risk := Text "low" |}.
Proof.
  intros Hw Hwhere.
  destruct (@essential_word_matches w pre post Hw) as (p & Hp & Htest).
  unfold categorizeCookie, categories.
  unfold categorize_in.
  change (String.eqb "essential" "unknown") with false. cbv iota.
  cbv beta iota delta [patterns].
  rewrite some_pattern_matches_existsb.
  assert (Hex : existsb
                  (fun p0 => regex_test p0 (name c) || regex_test p0 (domain c))
                  [ {| body := Alt (word "session")
                                 (Alt (word "auth")
                                    (Alt (word "token")
                                       (Alt (word "login") (word "jwt"))));
                       ignoreCase := true |};
                    lit "__Secure-"; lit "__Host-" ] = true).
  { apply existsb_exists. exists p. split; [exact Hp|].
    destruct Hwhere as [-> | ->]; rewrite Htest; auto using orb_true_r. }
  rewrite Hex. reflexivity.
Qed.

End ClassifierFacts.

(* ================================================================== *)
(** * Facts: counting categories *)
(* ================================================================== *)

Section AggregateFacts.
Local Open Scope string_scope.

Lemma inherited_proto (k : string) : inherited k = false -> k <> "__proto__".
Proof. intros Hk ->. discriminate. Qed.

Lemma count_of_obj_set (counts : JsObject nat) (k k' : string) (n : nat) :
  k <> "__proto__" ->
  count_of (obj_set counts k n) k'
  = if String.eqb k k' then n else count_of counts k'.
Proof.
  intros Hk. unfold count_of.
  destruct (String.eqb k k') eqn:Heq.
  - apply String.eqb_eq in Heq. subst k'.
    rewrite own_get_obj_set_same by exact Hk. reflexivity.
  - apply String.eqb_neq in Heq.
    rewrite own_get_obj_set_other by exact Heq. reflexivity.
Qed.

Lemma aggregate_into_counts (categorized : list Categorization)
    (counts : JsObject nat) :
  (forall cat, In cat categorized -> inherited (category cat) = false) ->
  exists result,
    aggregate_into counts categorized = Some result
    /\ forall k,
         count_of result k
         = count_of counts k
           + List.length
               (filter (fun cat => String.eqb (category cat) k) categorized).
Proof.
  revert counts.
  induction categorized as [|cat rest IH]; intros counts Hnames.
  - exists counts. split; [reflexivity|]. intros k. simpl. lia.
  - assert (Hcat : inherited (category cat) = false)
      by (apply Hnames; left; reflexivity).
    assert (Hrest : forall x, In x rest -> inherited (category x) = false)
      by (intros x Hx; apply Hnames; right; exact Hx).
    assert (Hstep : aggregate_into counts (cat :: rest)
                    = aggregate_into
                        (obj_set counts (category cat)
                           (count_of counts (category cat) + 1)) rest).
    { simpl. unfold count_of.
      destruct (own_get counts (category cat)); [reflexivity|].
      rewrite Hcat. reflexivity. }
    destruct (IH (obj_set counts (category cat)
                    (count_of counts (category cat) + 1)) Hrest)
      as (result & Hresult & Hcount).
    exists result. split; [rewrite Hstep; exact Hresult|].
    intros k. rewrite Hcount.
    rewrite count_of_obj_set by (apply inherited_proto; exact Hcat).
    simpl filter.
    destruct (String.eqb (category cat) k) eqn:Heq; simpl; [|lia].
    apply String.eqb_eq in Heq. subst k. lia.
Qed.

Lemma category_not_inherited (c : Cookie) :
  inherited (category (categorizeCookie c)) = false.
Proof.
  pose proof (categorizeCookie_classification c) as Hin.
  unfold classifications in Hin. simpl in Hin.
  repeat (destruct Hin as [Heq|Hin];
          [inversion Heq as [[Hc Hr]]; reflexivity|]).
  contradiction.
Qed.

(** X17.  As in [GET_STATS], where every cookie is classified and the
    classifications are counted: [aggregateCategories] gives an object of
    numbers in which every category has the number of cookies that
    [categorizeCookie] puts in it (a category without cookies has no entry),
    so a cookie is counted once and in one category. *)
Theorem aggregateCategories_counts_cookies (cookies : list Cookie) :
  exists counts,
    aggregateCategories (map categorizeCookie cookies) = Some counts
    /\ forall k,
         count_of counts k
         = List.length
             (filter (fun c => String.eqb (category (categorizeCookie c)) k)
                cookies)
         /\ (own_get counts k = None
             <-> forall c, In c cookies -> category (categorizeCookie c) <> k).
Proof.
  destruct (@aggregate_into_counts (map categorizeCookie cookies) [])
    as (counts & Hcounts & Hcount).
  { intros cat Hin. apply in_map_iff in Hin as (c & <- & _).
    apply category_not_inherited. }
  exists counts. split; [exact Hcounts|].
  assert (Hlen : forall k,
             List.length
               (filter (fun cat => String.eqb (category cat) k)
                  (map categorizeCookie cookies))
             = List.length
                 (filter (fun c => String.eqb (category (categorizeCookie c)) k)
                    cookies)).
  { intros k. clear. induction cookies as [|c cs IH]; simpl; [reflexivity|].
    destruct (String.eqb (category (categorizeCookie c)) k); simpl;
      rewrite IH; reflexivity. }
  assert (Hpositive : forall cats start result,
             (forall k n, own_get start k = Some n -> 0 < n) ->
             aggregate_into start cats = Some result ->
             forall k n, own_get result k = Some n -> 0 < n).
  { induction cats as [|cat rest IH]; intros start result Hstart Hagg k n Hk.
    - inversion Hagg; subst. eapply Hstart; eassumption.
    - simpl in Hagg.
      assert (Hnext : forall v, 0 < v ->
                 forall k0 n0,
                   own_get (obj_set start (category cat) v) k0 = Some n0 -> 0 < n0).
      { intros v Hv k0 n0 Hget.
        destruct (String.eqb (category cat) k0) eqn:Heq.
        - apply String.eqb_eq in Heq. subst k0.
          destruct (String.eqb (category cat) "__proto__") eqn:Hp.
          + unfold obj_set in Hget. rewrite Hp in Hget. eapply Hstart; eassumption.
          + apply String.eqb_neq in Hp.
            rewrite own_get_obj_set_same in Hget by exact Hp.
            inversion Hget; subst; exact Hv.
        - apply String.eqb_neq in Heq.
          rewrite own_get_obj_set_other in Hget by exact Heq.
          eapply Hstart; eassumption. }
      destruct (own_get start (category cat)) as [m|].
      + eapply (IH _ _ (Hnext (m + 1) ltac:(lia))); eassumption.
      + destruct (inherited (category cat)); [discriminate|].
        eapply (IH _ _ (Hnext (0 + 1) ltac:(lia))); eassumption. }
  intros k. specialize (Hcount k). rewrite Hlen in Hcount. simpl in Hcount.
  split; [exact Hcount|].
  unfold count_of in Hcount. split.
  - intros Hnone c Hin Hk. rewrite Hnone in Hcount.
    assert (Hin' : In c (filter
                     (fun c => String.eqb (category (categorizeCookie c)) k) cookies)).
    { apply filter_In. split; [exact Hin | apply String.eqb_eq; exact Hk]. }
    destruct (filter (fun c => String.eqb (category (categorizeCookie c)) k) cookies);
      [contradiction | discriminate].
  - intros Hno. destruct (own_get counts k) as [n|] eqn:Hget; [|reflexivity].
    assert (Hn : 0 < n).
    { eapply (Hpositive _ [] counts); [|exact Hcounts|exact Hget].
      intros k0 n0 H0. discriminate. }
    assert (Hempty : filter
                       (fun c => String.eqb (category (categorizeCookie c)) k)
                       cookies = []).
    { destruct (filter (fun c => String.eqb (category (categorizeCookie c)) k)
                  cookies) as [|c cs] eqn:Hf; [reflexivity|].
      assert (Hc : In c (c :: cs)) by (left; reflexivity).
      rewrite <- Hf in Hc. apply filter_In in Hc as [Hc1 Hc2].
      apply String.eqb_eq in Hc2. exfalso. exact (Hno c Hc1 Hc2). }
    rewrite Hempty in Hcount. simpl in Hcount. lia.
Qed.

End AggregateFacts.

(* ================================================================== *)
(** * encryption.js: loading the key *)
(* ================================================================== *)

Section KeyLoading.
Context {P : Platform}.

(** [crypto.subtle.importKey('raw', keyData, ...)]: the key, or what the
    call throws. *)
Variable subtle_importKey : list byte -> Completion CryptoKey.

(** [loadOrGenerateKey].  [stored] is what storage holds under
    [encryptionKey] ([None] when it holds nothing) and [fresh] is the key
    [generateNewKey] would generate.  The result is the instance as the call
    leaves it and, when the call does not throw, the text written to storage
    if a key was generated. *)
Definition loadOrGenerateKey (self : CookieEncryption) (stored : option string)
    (fresh : CryptoKey) : CookieEncryption * Completion (option string) :=
  match stored with
  | Some (String a s) =>
      match base64ToArrayBuffer (String a s) with
      | Throw e => (self, Throw e)
      | Normal keyData =>
          match subtle_importKey keyData with
          | Throw e => (self, Throw e)
          | Normal k => ({| key := Some k |}, Normal None)
          end
      end
  | _ =>
      let (self', written) := generateNewKey self fresh in
      (self', match written with
              | Normal text => Normal (Some text)
              | Throw e => Throw e
              end)
  end.

Hypothesis atob_btoa : forall s, atob (btoa s) = Some s.
Hypothesis decrypt_encrypt :
  forall k iv m, subtle_decrypt k iv (subtle_encrypt k iv m) = Some m.
Hypothesis import_export :
  forall k, subtle_importKey (subtle_exportKey k) = Normal k.

(** X18.  A key survives a restart.  The text that [generateNewKey] writes
    to storage, when it is not empty, makes [loadOrGenerateKey] on any other
    instance load that same key and write nothing; every envelope that the
    first instance produced is decrypted by the other to what the first
    would have decrypted it to, the UTF-8 decoding of the UTF-8 encoding of
    the value.  With nothing (or an empty text) in storage,
    [loadOrGenerateKey] generates a key and writes it. *)
Theorem stored_key_is_loaded_again
    (first other : CookieEncryption) (k unused : CryptoKey) (text : string) :
  let generated := generateNewKey first k in
  snd generated = Normal text ->
  text <> EmptyString ->
  let loaded := fst (loadOrGenerateKey other (Some text) unused) in
  loadOrGenerateKey other (Some text) unused = ({| key := Some k |}, Normal None)
  /\ (forall (iv : list byte) (t : Z) (v d : string) (envelope : Envelope),
         encryptCookie (fst generated) iv t v d = Normal envelope ->
         decryptCookie loaded envelope
         = Normal (TextDecoder_decode (TextEncoder_encode v))
         /\ decryptCookie loaded envelope = decryptCookie (fst generated) envelope)
  /\ loadOrGenerateKey other None k = ({| key := Some k |}, Normal (Some text))
  /\ loadOrGenerateKey other (Some EmptyString) k
     = ({| key := Some k |}, Normal (Some text)).
Proof.
  intros generated Hwritten Htext loaded.
  assert (Hload : loadOrGenerateKey other (Some text) unused
                  = ({| key := Some k |}, Normal None)).
  { unfold loadOrGenerateKey.
    destruct text as [|a s]; [contradiction|].
    unfold generated in Hwritten. simpl snd in Hwritten.
    rewrite (base64_roundtrip atob_btoa _ Hwritten), import_export. reflexivity. }
  split; [exact Hload|].
  split.
  { intros iv t v d envelope Hcipher.
    unfold loaded. rewrite Hload. simpl fst.
    assert (Hsame : encryptCookie {| key := Some k |} iv t v d = Normal envelope)
      by exact Hcipher.
    pose proof (decryptCookie_of_encryptCookie atob_btoa decrypt_encrypt
                  _ _ _ _ _ Hsame) as Hdec.
    split; [exact Hdec | reflexivity]. }
  unfold generated in Hwritten. simpl snd in Hwritten.
  unfold loadOrGenerateKey, generateNewKey. rewrite Hwritten. split; reflexivity.
Qed.

End KeyLoading.

(* ================================================================== *)
(** * The filters of the periodic scans *)
(* ================================================================== *)

(** [cookie.expirationDate - now] with [now = Date.now() / 1000], in
    milliseconds, for a cookie whose [expirationDate] counts ([None] when
    [!cookie.expirationDate]).  An [expirationDate] of this model is a whole
    number of seconds and the clock a whole number of milliseconds, so the
    comparisons below are the comparisons of the source. *)
Definition timeLeft_ms (now : Z) (c : Cookie) : option Z :=
  match expirationDate c with
  | Some (Num z) => if (z =? 0)%Z then None else Some (1000 * z - now)%Z
  | _ => None
  end.

(** The filter of [cleanOldCookies]: [age > 30 * 24 * 60 * 60]. *)
Definition oldCookies_filter (now : Z) (c : Cookie) : bool :=
  match timeLeft_ms now c with
  | Some age => (30 * 24 * 60 * 60 * 1000 <? age)%Z
  | None => false
  end.

(** The filter of [checkExpiringCookies]: [timeLeft > 0 && timeLeft < 300]. *)
Definition expiringSoon_filter (now : Z) (c : Cookie) : bool :=
  match timeLeft_ms now c with
  | Some timeLeft => (0 <? timeLeft)%Z && (timeLeft <? 300 * 1000)%Z
  | None => false
  end.

(** The filter of [updateBadge]: [timeLeft > 0 && timeLeft < 3600]. *)
Definition badge_filter (now : Z) (c : Cookie) : bool :=
  match timeLeft_ms now c with
  | Some timeLeft => (0 <? timeLeft)%Z && (timeLeft <? 3600 * 1000)%Z
  | None => false
  end.

Section ScanFacts.

(** X19.  The stale-cookie filter looks at how far ahead a cookie expires,
    not at how old it is.  It never selects a session cookie; a cookie that
    the near-expiry scan selects is counted for the badge and is not
    selected as stale; and a cookie to which [applyRules] has just given an
    expiration (on a clock past the epoch) is selected as stale at that same
    instant exactly when the rule's [expiration] exceeds 43200 minutes,
    that is 30 days. *)
Theorem oldCookies_filter_selects_far_expirations (now : Z) (c : Cookie) :
  (expirationDate c = None -> oldCookies_filter now c = false)
  /\ (expiringSoon_filter now c = true ->
      badge_filter now c = true /\ oldCookies_filter now c = false)
  /\ (forall minutes,
         (0 <= now)%Z -> (0 < minutes)%Z ->
         (oldCookies_filter now
            (with_expirationDate c (Some (Num (rule_expiry now minutes)))) = true
          <-> (43200 < minutes)%Z)).
Proof.
  split; [|split].
  - intros Hnone. unfold oldCookies_filter, timeLeft_ms. rewrite Hnone. reflexivity.
  - unfold expiringSoon_filter, badge_filter, oldCookies_filter.
    destruct (timeLeft_ms now c) as [t|]; [|discriminate].
    intros H. apply andb_true_iff in H as [H1 H2].
    apply Z.ltb_lt in H1. apply Z.ltb_lt in H2. split.
    + apply andb_true_iff. split; apply Z.ltb_lt; lia.
    + apply Z.ltb_ge. lia.
  - intros minutes Hnow Hmin.
    pose proof (rule_expiry_within_a_second now minutes) as Hbound.
    unfold oldCookies_filter, timeLeft_ms.
    cbn [expirationDate with_expirationDate].
    destruct (rule_expiry now minutes =? 0)%Z eqn:Hzero.
    + apply Z.eqb_eq in Hzero. rewrite Hzero in Hbound. exfalso. lia.
    + rewrite Z.ltb_lt. lia.
Qed.

End ScanFacts.

(* ================================================================== *)
(** * Further sample worlds *)
(* ================================================================== *)

Section MoreSamples.
#[local] Existing Instance list_pattern_engine.
#[local] Existing Instance demo_platform.

(** The change event for a cookie that has been removed. *)
Definition cookie_removed_event (c : Cookie) : ChangeInfo :=
  {| cookie := c; removed := true; cause := "explicit"%string |}.

(** A host that rejects every removal of a cookie and accepts the rest. *)
Definition rejects_removals (history : list HostCall) (call : HostCall) : bool :=
  match call with
  | cookies_remove _ _ => false
  | _ => true
  end.

(** An engine whose blacklist holds two patterns for the same hosts, on a
    host that rejects removals. *)
Definition stubborn_world : World :=
  {| auditLog := [];
     siteRules := getDefaultRules;
     whitelist := [];
     blacklist := ["*.ads.example.com"; "shop.*"; "x.ads.*"]%string;
     encryption := Some (keyed x07);
     now := 1700000000000;
     random := fun _ => [x00];
     drawn := 0;
     stored_whitelistRules := None;
     host_accepts := rejects_removals;
     calls := [] |}.

(** An engine whose encryption instance has not loaded its key yet. *)
Definition keyless_world : World :=
  {| auditLog := [];
     siteRules := getDefaultRules;
     whitelist := [];
     blacklist := [];
     encryption := Some {| key := None |};
     now := 1700000000000;
     random := fun _ => [x00];
     drawn := 0;
     stored_whitelistRules := None;
     host_accepts := fun _ _ => true;
     calls := [] |}.

(** [importKey] of the reference platform: a key is its one byte. *)
Definition demo_importKey (keyData : list byte) : Completion byte :=
  match keyData with
  | [k] => Normal k
  | _ => Throw OperationError
  end.

End MoreSamples.

(* ================================================================== *)
(** * The further facts on concrete inputs *)
(* ================================================================== *)

(** A blacklisted cookie whose removal the host rejects is not deleted and
    not logged as deleted.  The blacklist holds [*bank*], the host rejects
    removals, and a session cookie of [mybank.com] changes: the removal is
    asked for once, at the URL of the cookie; the log receives no
    [BLACKLIST_DELETED] entry; and the rules and the encryption are applied
    to the cookie, which is written back twice. *)
Lemma rejected_removal_is_not_logged :
  let w := set_blacklist stubborn_world ["*bank*"%string] in
  let c := session_cookie "mybank.com" "sess" "abc" in
  let w' := snd (handleCookieChange (cookie_set_event c) w) in
  @pattern_matches list_pattern_engine "*bank*" (domain c) = true
  /\ fst (handleCookieChange (cookie_set_event c) w) = Normal tt
  /\ map action (auditLog w')
     = [ Some "ENCRYPTED"; Some "RULE_APPLIED"; None ]%string
  /\ map (fun call =>
            match call with
            | cookies_remove url name => Some (url, name)
            | _ => None
            end) (calls w')
     = [ None; None; None; None; None;
         Some ("https://mybank.com/", "sess"); None ]%string
  /\ map (fun call =>
            match call with
            | cookies_set written => Some (value written, expirationDate written)
            | _ => None
            end) (calls w')
     = [ None; Some ("ENCRYPTED_REF_mybank.com_sess", None); None; None;
         Some ("abc", Some (Num 1700000900)); None; None ]%string.
Proof. repeat split; reflexivity. Qed.

Lemma rejected_removal_falls_through_witness :
  applyWhitelistBlacklist (session_cookie "x.ads.example.com" "sid" "abc")
    stubborn_world
  = (Normal None,
     set_calls stubborn_world
       [ cookies_remove "https://x.ads.example.com/" "sid";
         cookies_remove "https://x.ads.example.com/" "sid" ]).
Proof.
  rewrite (@rejected_removal_falls_through list_pattern_engine demo_platform
             (session_cookie "x.ads.example.com" "sid" "abc") stubborn_world
             (fun _ => eq_refl)).
  reflexivity.
Defined.

Lemma unblocked_cookie_is_processed_witness :
  exists (allowed : bool) (w2 : @World list_pattern_engine demo_platform),
    applyWhitelistBlacklist (session_cookie "shop.example.com" "cart" "abc")
      (snd (logCookieChange
              (cookie_removed_event (session_cookie "shop.example.com" "cart" "abc"))
              ads_world))
    = (Normal (if allowed then Some true else None), w2)
    /\ handleCookieChange
         (cookie_removed_event (session_cookie "shop.example.com" "cart" "abc"))
         ads_world
       = bind (applyRules (session_cookie "shop.example.com" "cart" "abc"))
           (fun _ => applyEncryption (session_cookie "shop.example.com" "cart" "abc"))
           w2.
Proof.
  apply (@unblocked_cookie_is_processed list_pattern_engine demo_platform
           ads_world
           (cookie_removed_event (session_cookie "shop.example.com" "cart" "abc"))).
  intros p [<-|[]]. vm_compute. reflexivity.
Defined.

Lemma removed_session_cookie_is_set_again_witness :
  exists w3 : @World list_pattern_engine demo_platform,
    handleCookieChange
      (cookie_removed_event (session_cookie "example.org" "sid" "abc"))
      (fresh_world 1700000000123)
    = applyEncryption (session_cookie "example.org" "sid" "abc") w3
    /\ hd_error (tl (calls w3))
       = Some (cookies_set
                 (with_expirationDate (session_cookie "example.org" "sid" "abc")
                    (Some (Num 1700001800)))).
Proof.
  destruct (@removed_session_cookie_is_set_again list_pattern_engine demo_platform
              (fresh_world 1700000000123)
              (cookie_removed_event (session_cookie "example.org" "sid" "abc"))
              {| expiration := Some 30%Z; encrypt := false; pattern := None;
                 priority := Some medium; autoDelete := false |}
              30%Z eq_refl
              (fun p (H : In p []) => match H with end)
              (fun p (H : In p []) => match H with end)
              eq_refl eq_refl ltac:(discriminate)
              ltac:(unfold exact_expiry, safe_integer; simpl; lia) eq_refl
              (fun _ _ => eq_refl))
    as (w3 & Hrun & _ & Hcalls).
  exists w3. split; [exact Hrun|]. rewrite Hcalls. reflexivity.
Defined.

Lemma applyEncryption_stores_recoverable_value_witness :
  drawn (snd (applyEncryption (session_cookie "mybank.com" "sess" "abc")
                (fresh_world 1700000000000))) = 1.
Proof.
  destruct (@applyEncryption_stores_recoverable_value
              list_pattern_engine demo_platform
              demo_atob_btoa demo_decrypt_encrypt
              (fresh_world 1700000000000)
              (session_cookie "mybank.com" "sess" "abc") (keyed x07) x07
              eq_refl eq_refl eq_refl ltac:(discriminate) eq_refl
              eq_refl eq_refl eq_refl
              (fun _ _ => eq_refl))
    as (envelope & _ & _ & _ & _ & Hdrawn).
  exact Hdrawn.
Defined.

Lemma applyEncryption_failures_are_silent_witness :
  fst (applyEncryption (session_cookie "mybank.com" "sess" "abc") keyless_world)
  = Normal tt.
Proof.
  refine (proj1 (@applyEncryption_failures_are_silent
                   list_pattern_engine demo_platform keyless_world
                   (session_cookie "mybank.com" "sess" "abc")
                   {| key := None |} eq_refl eq_refl _ eq_refl)).
  discriminate.
Defined.

Lemma DELETE_RULE_removes_one_rule_witness :
  own_get (siteRules (snd (handleMessage (DELETE_RULE "social") (fresh_world 0))))
    "social" = None.
Proof.
  refine (proj1 (@DELETE_RULE_removes_one_rule list_pattern_engine demo_platform
                   (fresh_world 0) "social" _)).
  repeat constructor; simpl; intuition discriminate.
Defined.

Lemma numeric_key_is_resolved_first_witness :
  resolve (obj_set getDefaultRules "192" (user_rule 5 false)) "192.168.1.10"
  = Some (user_rule 5 false).
Proof.
  refine (proj2 (@numeric_key_is_resolved_first list_pattern_engine
                   getDefaultRules "192" 192 (user_rule 5 false) "192.168.1.10"
                   eq_refl _ eq_refl)).
  simpl. intros k' [<-|[<-|[<-|[<-|[]]]]]; reflexivity.
Defined.

Lemma ENCRYPT_COOKIE_then_DECRYPT_COOKIE_witness :
  exists envelope,
    handleMessage (ENCRYPT_COOKIE "abc" "mybank.com") (fresh_world 0)
    = (Normal (response_encrypted envelope), set_drawn (fresh_world 0) 1)
    /\ handleMessage (DECRYPT_COOKIE envelope) (fresh_world 0)
       = (Normal (response_decrypted "abc"), fresh_world 0).
Proof.
  destruct (proj1 (proj1 (@ENCRYPT_COOKIE_then_DECRYPT_COOKIE
                            list_pattern_engine demo_platform
                            demo_atob_btoa demo_decrypt_encrypt
                            (fresh_world 0) "abc" "mybank.com")
                     (keyed x07) x07 eq_refl eq_refl)
              eq_refl eq_refl)
    as (envelope & Hencrypt & Hdecrypt).
  exists envelope. split; [exact Hencrypt|].
  apply (proj2 (Hdecrypt (fresh_world 0) eq_refl)). reflexivity.
Defined.

Lemma essential_word_makes_essential_witness :
  categorizeCookie (session_cookie "tracker.example.com" "ads_session_id" "abc")
  = {| category := "essential";
       category_description := "Required for site functionality";
       risk := Text "low" |}.
Proof.
  apply (@essential_word_makes_essential
           (session_cookie "tracker.example.com" "ads_session_id" "abc")
           "session" "ads_" "_id").
  - unfold essential_words. simpl. auto.
  - left. reflexivity.
Defined.

Lemma demo_import_export (k : @CryptoKey demo_platform) :
  demo_importKey (@subtle_exportKey demo_platform k) = Normal k.
Proof. reflexivity. Qed.

Lemma stored_key_is_loaded_again_witness :
  @loadOrGenerateKey demo_platform demo_importKey (keyed x00)
    (Some (string_of_list_byte [x07])) x08
  = (keyed x07, Normal None).
Proof.
  apply (proj1 (@stored_key_is_loaded_again demo_platform demo_importKey
                  demo_atob_btoa demo_decrypt_encrypt demo_import_export
                  (keyed x00) (keyed x00) x07 x08 (string_of_list_byte [x07])
                  eq_refl ltac:(discriminate))).
Defined.
